(** * chronoschema: schema extraction and migration execution for SQL Server

    A shallow embedding of [chronoschema.py] and the properties of its
    batch splitting, batch execution, slug and file-tree code.

    Python's [str] is a sequence of code points: it is modelled as a list
    of [N].  File-system paths are lists of names below the drive root. *)

From Stdlib Require Import List NArith Lia Bool String Ascii.
From Equations Require Import Equations.
From stdpp Require Import gmap list.
Import ListNotations.

Set Warnings "-register-all,-clear-no-such-hyp".
Local Open Scope N_scope.
Local Open Scope list_scope.

(** * The model

    The functions of [chronoschema.py], in the order of their parts:
    strings, the batch splitter, commands and their output, the file
    tree, the database commands, slugs, the schema stager and cleanup. *)

(** ** Python strings *)

Definition str : Type := list N.

(** A string literal of the source, character by character. *)
Definition lit (s : string) : str :=
  map N_of_ascii (list_ascii_of_string s).

Module Py.

(** [s[len(p):]] when [s.startswith(p)]. *)
Fixpoint strip_prefix (p s : str) : option str :=
  match p, s with
  | [], _ => Some s
  | _ :: _, [] => None
  | x :: p', y :: s' => if N.eqb x y then strip_prefix p' s' else None
  end.

Definition startswith (s p : str) : bool :=
  match strip_prefix p s with Some _ => true | None => false end.

Definition endswith (s p : str) : bool :=
  startswith (rev s) (rev p).

(** [s.partition(sep)] at the first occurrence of [sep]: the text before
    it and the text after it, [None] when [sep] does not occur. *)
Fixpoint partition (sep s : str) {struct s} : option (str * str) :=
  match strip_prefix sep s with
  | Some after => Some ([], after)
  | None =>
      match s with
      | [] => None
      | c :: s' =>
          match partition sep s' with
          | Some (before, after) => Some (c :: before, after)
          | None => None
          end
      end
  end.

Definition inspect {A} (a : A) : {b : A | a = b} := exist _ a eq_refl.

(** [s.split(sep)], which is also [re.split] for a pattern that matches
    the literal [sep] and nothing else: the matches are taken leftmost
    first and do not overlap.  Python refuses an empty separator; the
    separators of this program are constants of three characters. *)
Equations? split (sep s : str) : list str by wf (length s) lt :=
  split [] s := [s];
  split (x :: sep) s with inspect (partition (x :: sep) s) := {
    | exist _ None _ := [s];
    | exist _ (Some (before, after)) H := before :: split (x :: sep) after }.
Proof.
  clear split. revert before H.
  induction s as [|c s IH]; intros before H.
  - discriminate.
  - cbn [partition] in H.
    destruct (strip_prefix (x :: sep) (c :: s)) as [r|] eqn:E.
    + injection H as <- <-. clear IH.
      cbn in E. destruct (N.eqb x c); [|discriminate].
      revert s E. induction sep as [|y sep IHs]; intros s E; cbn in E.
      * injection E as <-. cbn. lia.
      * destruct s as [|d s]; [discriminate|].
        destruct (N.eqb y d); [|discriminate].
        specialize (IHs _ E). cbn in *. lia.
    + destruct (partition (x :: sep) s) as [[b a]|] eqn:E'; [|discriminate].
      injection H as <- <-. specialize (IH _ eq_refl). cbn. lia.
Qed.

(** [sep.join(l)]. *)
Fixpoint join (sep : str) (l : list str) : str :=
  match l with
  | [] => []
  | [x] => x
  | x :: l' => x ++ sep ++ join sep l'
  end.

(** [l[:-1]]. *)
Fixpoint drop_last {A} (l : list A) : list A :=
  match l with
  | [] => []
  | [_] => []
  | x :: l' => x :: drop_last l'
  end.

(** [s.lstrip(chars)], [s.rstrip(chars)] and [s.strip(chars)], the
    characters to strip given by a test. *)
Fixpoint lstrip (strippable : N -> bool) (s : str) : str :=
  match s with
  | [] => []
  | c :: s' => if strippable c then lstrip strippable s' else s
  end.

Fixpoint rstrip (strippable : N -> bool) (s : str) : str :=
  match s with
  | [] => []
  | c :: s' =>
      match rstrip strippable s' with
      | [] => if strippable c then [] else [c]
      | r => c :: r
      end
  end.

Definition strip (strippable : N -> bool) (s : str) : str :=
  rstrip strippable (lstrip strippable s).

Definition one_of (chars : str) (c : N) : bool :=
  existsb (N.eqb c) chars.

(** [s.replace(old, new)]. *)
Definition replace (old new s : str) : str :=
  match old with
  | [] => new ++ flat_map (fun c => c :: new) s
  | _ :: _ => join new (split old s)
  end.

(** [dict(pairs).items()]: a key keeps its first place and takes its
    last value. *)
Fixpoint dict_set (k v : str) (d : list (str * str)) : list (str * str) :=
  match d with
  | [] => [(k, v)]
  | (k', v') :: d' =>
      if decide (k' = k) then (k, v) :: d' else (k', v') :: dict_set k v d'
  end.

Definition dict (pairs : list (str * str)) : list (str * str) :=
  fold_left (fun d kv => dict_set (fst kv) (snd kv) d) pairs [].

(** The number of positions of [s] at which [sep] occurs. *)
Fixpoint count (sep s : str) : nat :=
  match s with
  | [] => 0%nat
  | _ :: s' => ((if startswith s sep then 1 else 0) + count sep s')%nat
  end.

End Py.

(** ** Batch splitter: [re.split(r"(?<=)GO\n", f.read())[:-1]] *)

(** The pattern: an empty look-behind, which holds at every position,
    followed by the three characters G, O and line feed. *)
Definition GO_newline : str := Eval cbv in (lit "GO" ++ [10]).

Definition re_split_GO (text : str) : list str := Py.split GO_newline text.

Definition split_batches (text : str) : list str :=
  Py.drop_last (re_split_GO text).

(** ** Exceptions, output and the command monad *)

(** The exceptions the program meets; all derive from [Exception]. *)
Inductive exn : Type :=
| FileNotFoundError
| PermissionError
| FileExistsError
| NotADirectoryError
| DirectoryNotEmpty
| UnicodeDecodeError
| ValueError
| IndexError
| ReError
| DatabaseError (info : str).

Inductive res (A : Type) : Type :=
| Ok (a : A)
| Raise (e : exn).
Arguments Ok {A} a.
Arguments Raise {A} e.

(** The lines the commands print, with the values they interpolate. *)
Inductive message : Type :=
| Trying_to_connect (server : str)
| Preparing_to_execute
| Dropping_if_exists (db : str)
| Executing_batches (n : nat)
| Failed_on_batch (position total : nat)
| Exception_text (e : exn)
| Overwriting_existing (dir : list str)
| Cleaning_up (n : nat) (pattern : str)
| Got_error_cleaning (index total : nat) (file : str).

(** What a command does to the outside, in order. *)
Inductive event : Type :=
| Print (m : message)
| Opened (server : str)
| Execute (server stmt : str) (outcome : option exn)
| Closed (server : str).

(** A command over a state [S]: the state it leaves, the events it
    produced, and its value or the exception that left it. *)
Definition M (S A : Type) : Type := S -> S * list event * res A.

Definition ret {S A} (a : A) : M S A := fun s => (s, [], Ok a).

Definition raise {S A} (e : exn) : M S A := fun s => (s, [], Raise e).

Definition bind {S A B} (m : M S A) (k : A -> M S B) : M S B :=
  fun s =>
    match m s with
    | (s1, ev1, Ok a) =>
        match k a s1 with (s2, ev2, r) => (s2, ev1 ++ ev2, r) end
    | (s1, ev1, Raise e) => (s1, ev1, Raise e)
    end.

#[global] Instance M_ret {S} : MRet (M S) := fun A a => ret a.
#[global] Instance M_bind {S} : MBind (M S) := fun A B k m => bind m k.

Definition print {S} (m : message) : M S unit :=
  fun s => (s, [Print m], Ok tt).

Definition get {S} : M S S := fun s => (s, [], Ok s).

Definition lift {S A} (r : res A) : M S A := fun s => (s, [], r).

(** [for x in l: body(x)]. *)
Fixpoint for_each {S A} (l : list A) (body : A -> M S unit) : M S unit :=
  match l with
  | [] => ret tt
  | x :: l' => body x ;; for_each l' body
  end.

(** [enumerate(l)], counting from [i]. *)
Fixpoint enumerate_from {A} (i : nat) (l : list A) : list (nat * A) :=
  match l with
  | [] => []
  | x :: l' => (i, x) :: enumerate_from (S i) l'
  end.

Definition enumerate {A} (l : list A) : list (nat * A) := enumerate_from 0 l.

(** ** The file tree

    The file system is a tree of directories and files without links or
    permissions.  A path is the list of the names on the way from the
    root; [os.path.join(root, name)], for a name that the walk of the
    tree yields, is [root ++ [name]].  A path that the source builds
    from other texts with backslashes, such as
    [f"{base_dir}\\schema\\{server}\\{database}"], is resolved by the
    operating system, see [descend] below. *)

(** What [open(..., "r", encoding="utf-8").read()] finds in a file: text,
    or bytes that are no UTF-8. *)
Inductive contents : Type :=
| Text (text : str)
| Undecodable.

(** A directory lists its entries in the order the operating system
    gives them. *)
Inductive node : Type :=
| File (data : contents)
| Dir (entries : list (str * node)).

(** A path: the names from the root down. *)
Definition path : Type := list str.

Module Fs.

Definition is_dir (n : node) : bool :=
  match n with Dir _ => true | File _ => false end.

Fixpoint assoc (name : str) (es : list (str * node)) : option node :=
  match es with
  | [] => None
  | (k, v) :: es' => if decide (k = name) then Some v else assoc name es'
  end.

Fixpoint lookup (p : path) (n : node) : option node :=
  match p with
  | [] => Some n
  | name :: p' =>
      match n with
      | File _ => None
      | Dir es =>
          match assoc name es with
          | Some child => lookup p' child
          | None => None
          end
      end
  end.

Definition isdir (fs : node) (p : path) : bool :=
  match lookup p fs with Some (Dir _) => true | _ => false end.

Definition isfile (fs : node) (p : path) : bool :=
  match lookup p fs with Some (File _) => true | _ => false end.

(** The names [os.scandir] reports as directories, and the others. *)
Definition dirnames (es : list (str * node)) : list str :=
  map fst (List.filter (fun e => is_dir (snd e)) es).

Definition filenames (es : list (str * node)) : list str :=
  map fst (List.filter (fun e => negb (is_dir (snd e))) es).

(** [os.walk(top)]: each directory before its subdirectories.  Walking
    what is no directory yields nothing. *)
Fixpoint walk_from (top : path) (n : node) : list (path * list str * list str) :=
  match n with
  | File _ => []
  | Dir es =>
      (top, dirnames es, filenames es)
      :: flat_map (fun e => walk_from (top ++ [fst e]) (snd e)) es
  end.

(** [os.walk(top, topdown=False)]: each directory after its
    subdirectories.  The names of a directory are read before its
    subdirectories are walked. *)
Fixpoint walk_bottom_up_from (top : path) (n : node)
  : list (path * list str * list str) :=
  match n with
  | File _ => []
  | Dir es =>
      flat_map (fun e => walk_bottom_up_from (top ++ [fst e]) (snd e)) es
      ++ [(top, dirnames es, filenames es)]
  end.

Definition walk (fs : node) (top : path) : list (path * list str * list str) :=
  match lookup top fs with
  | Some n => walk_from top n
  | None => []
  end.

Definition walk_bottom_up (fs : node) (top : path)
  : list (path * list str * list str) :=
  match lookup top fs with
  | Some n => walk_bottom_up_from top n
  | None => []
  end.

(** [open(p, "r", encoding="utf-8").read()]. *)
Definition read_text (fs : node) (p : path) : res str :=
  match lookup p fs with
  | Some (File (Text t)) => Ok t
  | Some (File Undecodable) => Raise UnicodeDecodeError
  | Some (Dir _) => Raise PermissionError
  | None => Raise FileNotFoundError
  end.

(** The entries of a directory with the entry [name] set to a node, or
    deleted. *)
Definition has_name (name : str) (e : str * node) : bool :=
  bool_decide (fst e = name).

Definition set_entry (name : str) (v : node) (es : list (str * node))
  : list (str * node) :=
  if existsb (has_name name) es
  then map (fun e => if has_name name e then (name, v) else e) es
  else es ++ [(name, v)].

Definition del_entry (name : str) (es : list (str * node))
  : list (str * node) :=
  List.filter (fun e => negb (has_name name e)) es.

Definition upd (name : str) (o : option node) (es : list (str * node))
  : list (str * node) :=
  match o with
  | Some v => set_entry name v es
  | None => del_entry name es
  end.

(** The tree with the node at [p] replaced, or deleted; unchanged when
    the directory that holds [p] does not exist. *)
Fixpoint put (p : path) (o : option node) (n : node) : node :=
  match p with
  | [] => match o with Some n' => n' | None => n end
  | name :: p' =>
      match n with
      | File _ => n
      | Dir es =>
          match p' with
          | [] => Dir (upd name o es)
          | _ :: _ =>
              match assoc name es with
              | Some child => Dir (upd name (Some (put p' o child)) es)
              | None => n
              end
          end
      end
  end.

(** [os.rmdir(p)]. *)
Definition rmdir (p : path) (fs : node) : res node :=
  match p with
  | [] => Raise PermissionError
  | _ :: _ =>
      match lookup p fs with
      | Some (Dir []) => Ok (put p None fs)
      | Some (Dir (_ :: _)) => Raise DirectoryNotEmpty
      | Some (File _) => Raise NotADirectoryError
      | None => Raise FileNotFoundError
      end
  end.

(** [os.remove(p)]. *)
Definition remove (p : path) (fs : node) : res node :=
  match lookup p fs with
  | Some (File _) => Ok (put p None fs)
  | Some (Dir _) => Raise PermissionError
  | None => Raise FileNotFoundError
  end.

(** [open(p, "w", encoding="utf-8").write(text)]. *)
Definition write_text (p : path) (text : str) (fs : node) : res node :=
  match lookup p fs with
  | Some (File _) => Ok (put p (Some (File (Text text))) fs)
  | Some (Dir _) => Raise PermissionError
  | None =>
      if isdir fs (removelast p)
      then Ok (put p (Some (File (Text text))) fs)
      else Raise FileNotFoundError
  end.

(** [os.makedirs(p)]: the directories of [p] that are missing, from the
    root down. *)
Fixpoint make_from (p : path) (n : node) : res node :=
  match p with
  | [] => Ok n
  | name :: p' =>
      match n with
      | File _ => Raise NotADirectoryError
      | Dir es =>
          match make_from p' (match assoc name es with
                              | Some child => child
                              | None => Dir []
                              end) with
          | Ok child' => Ok (Dir (upd name (Some child') es))
          | Raise e => Raise e
          end
      end
  end.

Definition makedirs (p : path) (fs : node) : res node :=
  match lookup p fs with
  | Some _ => Raise FileExistsError
  | None => make_from p fs
  end.

(** [os.rename(src, dst)] on Windows: an existing [dst] is an error. *)
Definition rename (src dst : path) (fs : node) : res node :=
  match lookup src fs with
  | None => Raise FileNotFoundError
  | Some n =>
      match lookup dst fs with
      | Some _ => Raise FileExistsError
      | None =>
          let fs' := put src None fs in
          if isdir fs' (removelast dst)
          then Ok (put dst (Some n) fs')
          else Raise FileNotFoundError
      end
  end.

(** Names are not empty and no directory holds a name twice. *)
Fixpoint wf (n : node) : bool :=
  match n with
  | File _ => true
  | Dir es =>
      bool_decide (NoDup (map fst es))
      && forallb (fun e => negb (bool_decide (fst e = [])) && wf (snd e)) es
  end.

End Fs.

(** ** Path strings

    The operating system reads a path string part by part: the parts
    stand between separators, the backslash and the slash; an empty part
    and the part [.] stay in the directory, the part [..] goes to the
    directory above (at the root it stays), and every other part is a
    name to go down by.  So a server named [SRV\SQLEXPRESS] stands for
    two directories, one in the other. *)
Definition is_separator (c : N) : bool := (c =? 92) || (c =? 47).

Fixpoint segments (s : str) : list str :=
  match s with
  | [] => [[]]
  | c :: s' =>
      if is_separator c then [] :: segments s'
      else match segments s' with
           | part :: rest => (c :: part) :: rest
           | [] => [[c]]
           end
  end.

Definition enter (p : path) (part : str) : path :=
  if decide (part = []) then p
  else if decide (part = lit ".") then p
  else if decide (part = lit "..") then removelast p
  else p ++ [part].

(** The path that [f"{p}\\{s}"] names, [p] being the path that the text
    before the backslash names. *)
Definition descend (p : path) (s : str) : path :=
  fold_left enter (segments s) p.

(** A part of the text goes to the directory above. *)
Definition climbs (s : str) : bool :=
  existsb (fun part => bool_decide (part = lit "..")) (segments s).

(** A step on the file system inside a command. *)
Definition fs_op (f : node -> res node) : M node unit :=
  fun fs =>
    match f fs with
    | Ok fs' => (fs', [], Ok tt)
    | Raise e => (fs, [], Raise e)
    end.

(** ** The database commands *)

(** The driver layer (pyodbc and SQLAlchemy), over a state [db] of the
    servers: the installed driver names, opening a connection to a
    server, and running one statement on a connection in autocommit. *)
Record odbc (db : Type) : Type := {
  drivers : list str;
  connect : db -> str -> option exn;
  execute : db -> str -> str -> db * option exn
}.
Arguments drivers {db} _.
Arguments connect {db} _ _ _.
Arguments execute {db} _ _ _ _.

Section Database.
Context {db : Type} (env : odbc db).

(** [[x for x in pyodbc.drivers() if x.endswith('SQL Server')][0]]. *)
Definition sql_driver : M db str :=
  match List.filter (fun x => Py.endswith x (lit "SQL Server")) (drivers env) with
  | [] => raise IndexError
  | d :: _ => ret d
  end.

(** [connection.execute(sql.text(stmt))], the exception as a value. *)
Definition try_execute (server stmt : str) : M db (option exn) :=
  fun s =>
    match execute env s server stmt with
    | (s', r) => (s', [Execute server stmt r], Ok r)
    end.

(** [connection.execute(sql.text(stmt))] outside a [try]. *)
Definition run_statement (server stmt : str) : M db unit :=
  r ← try_execute server stmt;
  match r with
  | None => ret tt
  | Some exc => raise exc
  end.

(** [with sql_engine.connect() as connection: body]. *)
Definition with_connection {A} (server : str) (body : M db A) : M db A :=
  fun s =>
    match connect env s server with
    | Some exc => (s, [], Raise exc)
    | None =>
        match body s with
        | (s', evs, r) => (s', Opened server :: evs ++ [Closed server], r)
        end
    end.

(** The batch executor: the [for i, batch in enumerate(batches)] loop of
    [migration_to_db] and [schema_to_db]. *)
Definition execute_batch (server : str) (total : nat) (ib : nat * str)
  : M db unit :=
  r ← try_execute server (snd ib);
  match r with
  | None => ret tt
  | Some exc =>
      print (Failed_on_batch (fst ib + 1) total) ;;
      print (Exception_text exc)
  end.

Definition execute_batches (server : str) (batches : list str) : M db unit :=
  for_each (enumerate batches) (execute_batch server (length batches)).

(** [target.strip("[").strip("]").split("].[")], unpacked into two names. *)
Definition parse_address {S} (target : str) : M S (str * str) :=
  match Py.split (lit "].[")
          (Py.strip (Py.one_of (lit "]")) (Py.strip (Py.one_of (lit "[")) target)) with
  | [server; database] => ret (server, database)
  | _ => raise ValueError
  end.

Definition migration_to_db (fs : node) (target_server : str)
    (target_migrations : list str) (base_dir : path) : M db unit :=
  for_each target_migrations (fun target =>
    sql_driver ;;
    print (Trying_to_connect target_server) ;;
    text ← lift (Fs.read_text fs
                   (descend (base_dir ++ [lit "migrations"])
                      (target ++ lit ".sql")));
    let batches := split_batches text in
    with_connection target_server (
      print (Executing_batches (length batches)) ;;
      execute_batches target_server batches)).

Definition drop_database (target_db : str) : str :=
  lit "DROP DATABASE IF EXISTS [" ++ target_db ++ lit "];".

Definition schema_to_db (fs : node) (target_addresses : list str)
    (overwrite : bool) (base_dir : path) : M db unit :=
  for_each target_addresses (fun target =>
    address ← parse_address target;
    let target_server := fst address in
    let target_db := snd address in
    sql_driver ;;
    print (Trying_to_connect target_server) ;;
    for_each (Fs.walk fs (descend (descend (base_dir ++ [lit "schema"])
                                     target_server) target_db))
      (fun entry =>
         let root := fst (fst entry) in
         for_each (snd entry) (fun file =>
           text ← lift (Fs.read_text fs (root ++ [file]));
           let batches := split_batches text in
           with_connection target_server (
             print Preparing_to_execute ;;
             (if overwrite
              then print (Dropping_if_exists target_db) ;;
                   run_statement target_server (drop_database target_db)
              else ret tt) ;;
             print (Executing_batches (length batches)) ;;
             execute_batches target_server batches)))).

End Database.

(** The statements sent to the server, the outcomes the server gave, and
    the batch positions reported as failed, each in order. *)
Definition statements (evs : list event) : list str :=
  flat_map (fun e => match e with Execute _ stmt _ => [stmt] | _ => [] end) evs.

Definition outcomes (evs : list event) : list (option exn) :=
  flat_map (fun e => match e with Execute _ _ r => [r] | _ => [] end) evs.

Definition reported (evs : list event) : list (nat * nat) :=
  flat_map (fun e => match e with
                     | Print (Failed_on_batch i n) => [(i, n)]
                     | _ => []
                     end) evs.

(** The 1-based positions, from [i + 1] on, of the outcomes that are
    exceptions. *)
Fixpoint failed_from (i : nat) (rs : list (option exn)) : list nat :=
  match rs with
  | [] => []
  | None :: rs' => failed_from (S i) rs'
  | Some _ :: rs' => S i :: failed_from (S i) rs'
  end.

Definition events_of {S A} (x : S * list event * res A) : list event :=
  snd (fst x).

Definition result_of {S A} (x : S * list event * res A) : res A := snd x.

(** ** Slugs *)

(** The Unicode character database behind [unicodedata.normalize],
    [str.lower] and the classes [\w] and [\s] of [re].  Its tables are a
    parameter; on ASCII the functions are written out below. *)
Record unicode_data : Type := {
  nfkc : str -> str;
  nfkd : str -> str;
  lower_table : str -> str;
  alnum_table : N -> bool;
  space_table : N -> bool
}.

Inductive normal_form : Type := NFKC | NFKD.

Module Unicode.

Definition between (lo hi c : N) : bool := (lo <=? c) && (c <=? hi).

Definition is_ascii (c : N) : bool := c <? 128.

Definition ascii_lower (c : N) : N :=
  if between 65 90 c then c + 32 else c.

Definition ascii_alnum (c : N) : bool :=
  between 48 57 c || between 65 90 c || between 97 122 c.

(** Tab to carriage return, the four separators 28 to 31, and space. *)
Definition ascii_space (c : N) : bool :=
  between 9 13 c || between 28 32 c.

Section Tables.
Context (ucd : unicode_data).

(** [unicodedata.normalize(form, s)]: an ASCII text is in every normal
    form. *)
Definition normalize (form : normal_form) (s : str) : str :=
  if forallb is_ascii s then s
  else match form with NFKC => nfkc ucd s | NFKD => nfkd ucd s end.

(** [s.lower()]: in an ASCII text the letters A to Z become a to z. *)
Definition lower (s : str) : str :=
  if forallb is_ascii s then map ascii_lower s else lower_table ucd s.

Definition isalnum (c : N) : bool :=
  if is_ascii c then ascii_alnum c else alnum_table ucd c.

(** The class [\s]. *)
Definition isspace (c : N) : bool :=
  if is_ascii c then ascii_space c else space_table ucd c.

(** The class [\w]: alphanumeric, or the underscore. *)
Definition is_word (c : N) : bool := isalnum c || (c =? 95).

End Tables.

(** [s.encode('ascii', 'ignore').decode('ascii')]. *)
Definition encode_ascii_ignore (s : str) : str := List.filter is_ascii s.

End Unicode.

Section Slugify.
Context (ucd : unicode_data).

(** The class [[^\w\s-]] complemented: what [re.sub(r'[^\w\s-]', '', _)]
    keeps. *)
Definition kept (c : N) : bool :=
  Unicode.is_word ucd c || Unicode.isspace ucd c || (c =? 45).

Definition remove_others (s : str) : str := List.filter kept s.

(** The class [[-\s]]. *)
Definition hyphen_or_space (c : N) : bool :=
  (c =? 45) || Unicode.isspace ucd c.

(** [re.sub(r'[-\s]+', '-', s)], reading [s] from the left; [in_run]
    says that the character before was of the class. *)
Fixpoint collapse_from (in_run : bool) (s : str) : str :=
  match s with
  | [] => []
  | c :: s' =>
      if hyphen_or_space c
      then (if in_run then collapse_from true s'
            else 45 :: collapse_from true s')
      else c :: collapse_from false s'
  end.

Definition collapse (s : str) : str := collapse_from false s.

Definition hyphen_underscore (c : N) : bool := Py.one_of (lit "-_") c.

Definition slugify (value : str) (allow_unicode : bool) : str :=
  let value :=
    if allow_unicode then Unicode.normalize ucd NFKC value
    else Unicode.encode_ascii_ignore (Unicode.normalize ucd NFKD value) in
  let value := remove_others (Unicode.lower ucd value) in
  Py.strip hyphen_underscore (collapse value).

End Slugify.

(** A lowercase ASCII word character, or the hyphen. *)
Definition slug_char (c : N) : bool :=
  Unicode.between 97 122 c || Unicode.between 48 57 c
  || (c =? 95) || (c =? 45).

(** The database on ASCII and Hangul: the conjoining jamo and the
    syllables are letters without case, and a syllable is composed from
    and decomposed into jamo by the arithmetic of the Unicode standard.
    The tables of the other scripts are left out: their code points are
    kept as they are and are in no class. *)
Module Hangul.

Definition SBase : N := 44032.
Definition LBase : N := 4352.
Definition VBase : N := 4449.
Definition TBase : N := 4519.
Definition LCount : N := 19.
Definition VCount : N := 21.
Definition TCount : N := 28.
Definition SCount : N := 11172.

Definition is_L (c : N) : bool := (LBase <=? c) && (c <? LBase + LCount).
Definition is_V (c : N) : bool := (VBase <=? c) && (c <? VBase + VCount).
Definition is_T (c : N) : bool := (TBase <? c) && (c <? TBase + TCount).
Definition is_S (c : N) : bool := (SBase <=? c) && (c <? SBase + SCount).
Definition is_LV (c : N) : bool :=
  is_S c && ((c - SBase) mod TCount =? 0).

Definition decompose_char (c : N) : str :=
  if is_S c then
    let i := c - SBase in
    let l := LBase + i / (VCount * TCount) in
    let v := VBase + (i mod (VCount * TCount)) / TCount in
    let t := TBase + i mod TCount in
    if t =? TBase then [l; v] else [l; v; t]
  else [c].

Definition decompose (s : str) : str := flat_map decompose_char s.

Fixpoint compose_from (last : N) (s : str) : str :=
  match s with
  | [] => [last]
  | c :: s' =>
      if is_L last && is_V c
      then compose_from
             (SBase + ((last - LBase) * VCount + (c - VBase)) * TCount) s'
      else if is_LV last && is_T c
      then compose_from (last + (c - TBase)) s'
      else last :: compose_from c s'
  end.

Definition compose (s : str) : str :=
  match s with
  | [] => []
  | c :: s' => compose_from c s'
  end.

Definition is_letter (c : N) : bool :=
  Unicode.between 4352 4607 c || is_S c.

Definition ucd : unicode_data := {|
  nfkc := fun s => compose (decompose s);
  nfkd := decompose;
  lower_table := map Unicode.ascii_lower;
  alnum_table := is_letter;
  space_table := fun _ => false
|}.

End Hangul.

(** ** Schema stager: the overwrite step of [from_db] *)

(** [f"{base_dir}\\schema\\{source_server}\\{source_db}"]: the texts
    that the path string joins with backslashes, as it is printed, and
    the directory that it names. *)
Definition schema_base_dir_texts (base_dir : path)
    (source_server source_db : str) : list str :=
  base_dir ++ [lit "schema"; source_server; source_db].

Definition schema_base_dir (base_dir : path) (source_server source_db : str)
  : path :=
  descend (descend (base_dir ++ [lit "schema"]) source_server) source_db.

(** The staging area of a source, where the scripting engine has put its
    files when the overwrite step runs:
    [f"{base_dir}\\.stg\\{slugify(source)}"]. *)
Definition db_stg_dir (ucd : unicode_data) (base_dir : path) (source : str)
  : path :=
  descend (base_dir ++ [lit ".stg"]) (slugify ucd source false).

Definition remove_sql_files (entry : path * list str * list str)
  : M node unit :=
  let root := fst (fst entry) in
  for_each (snd entry) (fun file =>
    if Py.endswith file (lit ".sql")
    then fs_op (Fs.remove (root ++ [file]))
    else ret tt).

(** Lines 91 to 98 of [from_db]. *)
Definition overwrite_existing (base_dir : path) (source_server source_db : str)
    (overwrite : bool) : M node unit :=
  let dir := schema_base_dir base_dir source_server source_db in
  if overwrite then
    print (Overwriting_existing
             (schema_base_dir_texts base_dir source_server source_db)) ;;
    fs ← get;
    if Fs.isdir fs dir
    then for_each (Fs.walk fs dir) remove_sql_files
    else ret tt
  else ret tt.

(** ** Cleanup *)

Record cleanup_options : Type := {
  name_swaps : list (str * str);
  (** [re.sub(regex_remove, "", text, flags=re.MULTILINE)]; the pattern
      may be one that [re] refuses. *)
  regex_remove : str -> res str;
  swap_filenames : bool;
  remove_empty_dirs : bool;
  overwrite : bool
}.

Definition backslash : str := [92].

(** The path a path string names: its parts between backslashes. *)
Definition resolve (s : str) : path :=
  List.filter (fun name => negb (bool_decide (name = [])))
    (Py.split backslash s).

(** [s.rsplit('\\', 1)[0]]. *)
Definition rsplit_head (s : str) : str :=
  match Py.partition backslash (rev s) with
  | Some (_, before) => rev before
  | None => s
  end.

Definition swap_names (swaps : list (str * str)) (s : str) : str :=
  fold_left (fun t st => Py.replace (fst st) (snd st) t) swaps s.

(** How the body of the loop over the files leaves: on to the next file,
    or out of [cleanup]. *)
Inductive flow : Type := Next | Return.

Section Cleanup.
Context (opts : cleanup_options).

(** One turn of the loop over the matched files. *)
Definition clean_file (total : nat) (ifile : nat * str) : M node flow :=
  let i := fst ifile in
  let file := snd ifile in
  fs ← get;
  match Fs.read_text fs (resolve file) with
  | Raise exc =>
      print (Got_error_cleaning i total file) ;;
      print (Exception_text exc) ;;
      ret Return
  | Ok text =>
      text ← lift (regex_remove opts text);
      let text := swap_names (Py.dict (name_swaps opts)) text in
      let newfile :=
        if swap_filenames opts
        then swap_names (Py.dict (name_swaps opts)) file
        else file in
      fs_op (Fs.write_text (resolve file) text) ;;
      if swap_filenames opts && negb (bool_decide (file = newfile)) then
        let newfile_dir := rsplit_head newfile in
        fs ← get;
        (if Fs.isdir fs (resolve newfile_dir) then ret tt
         else fs_op (Fs.makedirs (resolve newfile_dir))) ;;
        fs ← get;
        (if overwrite opts && Fs.isfile fs (resolve newfile)
         then fs_op (Fs.remove (resolve newfile)) else ret tt) ;;
        fs_op (Fs.rename (resolve file) (resolve newfile)) ;;
        ret Next
      else ret Next
  end.

Fixpoint clean_files (total : nat) (files : list (nat * str)) : M node flow :=
  match files with
  | [] => ret Next
  | ifile :: rest =>
      f ← clean_file total ifile;
      match f with
      | Return => ret Return
      | Next => clean_files total rest
      end
  end.

(** One turn of the loop over the walk: lines 262 to 269. *)
Definition prune_dir (deleted : gset path) (entry : path * list str * list str)
  : M node (gset path) :=
  let current_dir := fst (fst entry) in
  let subdirs := snd (fst entry) in
  let files := snd entry in
  let still_has_subdirs :=
    existsb (fun subdir =>
               negb (bool_decide (current_dir ++ [subdir] ∈ deleted)))
      subdirs in
  if negb (existsb (fun f => negb (bool_decide (f = []))) files)
     && negb still_has_subdirs
  then fs_op (Fs.rmdir current_dir) ;; ret ({[current_dir]} ∪ deleted)
  else ret deleted.

Fixpoint prune_loop (entries : list (path * list str * list str))
    (deleted : gset path) : M node (gset path) :=
  match entries with
  | [] => ret deleted
  | entry :: rest => d ← prune_dir deleted entry; prune_loop rest d
  end.

(** Lines 260 to 269; its value is the set [deleted] at the end. *)
Definition prune_empty_dirs (base_dir : path) : M node (gset path) :=
  fs ← get; prune_loop (Fs.walk_bottom_up fs base_dir) ∅.

(** [cleanup], from the list [files] that [glob] matched on. *)
Definition cleanup (target_files : str) (files : list str) (base_dir : path)
  : M node unit :=
  print (Cleaning_up (length files) target_files) ;;
  f ← clean_files (length files) (enumerate files);
  match f with
  | Return => ret tt
  | Next =>
      if remove_empty_dirs opts
      then prune_empty_dirs base_dir ;; ret tt
      else ret tt
  end.

End Cleanup.

(** ** Schema stager: where a staged file goes

    Lines 103 and 104 of [from_db], on path strings: [root] is a
    directory that [os.walk(db_stg_dir)] yields. *)
Definition target_dir (db_stg_dir root : str) : str :=
  Py.replace db_stg_dir [] root.

Definition full_target_dir (base_dir db_stg_dir root : str) : str :=
  base_dir ++ backslash ++ target_dir db_stg_dir root.

(** ** The scaffolder: [new_blank]

    [new_blank] opens its file without naming an encoding, so the text
    is stored in the encoding of the locale, and [migration_to_db] reads
    it back as UTF-8.  [locale text] is what such a reader finds of
    [text] written that way: nothing when the locale cannot encode the
    text, in which case [write] raises [UnicodeEncodeError], a
    [ValueError], and leaves the opened file empty. *)

(** [open(p, "w").write(...)], [found] being what a reader will find. *)
Definition write_found (p : path) (found : contents) (fs : node) : res node :=
  match Fs.lookup p fs with
  | Some (File _) => Ok (Fs.put p (Some (File found)) fs)
  | Some (Dir _) => Raise PermissionError
  | None =>
      if Fs.isdir fs (removelast p)
      then Ok (Fs.put p (Some (File found)) fs)
      else Raise FileNotFoundError
  end.

(** The clock is read twice: [stamp] is the first reading as
    [%Y%m%d%H%M%S], [written] the second as [%Y-%m-%d %H:%M:%S]. *)
Definition new_blank (ucd : unicode_data) (locale : str -> option contents)
    (stamp written name : str) (base_dir : path) : M node unit :=
  let migrations := base_dir ++ [lit "migrations"] in
  let file :=
    migrations ++ [slugify ucd (stamp ++ lit "-" ++ name) false ++ lit ".sql"] in
  let text := lit "-- " ++ written ++ lit " - " ++ name in
  fs ← get;
  (if Fs.isdir fs migrations then ret tt
   else fs_op (Fs.makedirs migrations)) ;;
  match locale text with
  | Some found => fs_op (write_found file found)
  | None => fs_op (write_found file (Text [])) ;; raise ValueError
  end.

(** * Properties

    From here on: facts about the definitions above, and the properties
    stated of the program, C1 to C10. *)

(** ** Facts about Python strings *)

Module PyFacts.
Import Py.

Lemma strip_prefix_app (p s : str) : strip_prefix p (p ++ s) = Some s.
Proof.
  induction p as [|x p IH]; cbn; [reflexivity|].
  now rewrite N.eqb_refl.
Qed.

Lemma strip_prefix_Some (p s r : str) :
  strip_prefix p s = Some r -> s = p ++ r.
Proof.
  revert s. induction p as [|x p IH]; intros s H; cbn in H.
  - now injection H as <-.
  - destruct s as [|y s]; [discriminate|].
    destruct (N.eqb_spec x y) as [->|]; [|discriminate].
    cbn. f_equal. now apply IH.
Qed.

Lemma partition_Some (sep s b a : str) :
  partition sep s = Some (b, a) -> s = b ++ sep ++ a.
Proof.
  revert b. induction s as [|c s IH]; intros b H.
  - cbn in H. destruct (strip_prefix sep []) as [r|] eqn:E; [|discriminate].
    injection H as <- <-. now apply strip_prefix_Some in E.
  - cbn [partition] in H.
    destruct (strip_prefix sep (c :: s)) as [r|] eqn:E.
    + injection H as <- <-. now apply strip_prefix_Some in E.
    + destruct (partition sep s) as [[b' a']|]; [|discriminate].
      injection H as <- <-. cbn. f_equal. now apply IH.
Qed.

Lemma partition_here (sep s r : str) :
  strip_prefix sep s = Some r -> partition sep s = Some ([], r).
Proof. intros H. destruct s; cbn [partition]; now rewrite H. Qed.

Lemma split_unfold (x : N) (sep s : str) :
  split (x :: sep) s =
  match partition (x :: sep) s with
  | None => [s]
  | Some (b, a) => b :: split (x :: sep) a
  end.
Proof.
  rewrite split_equation_2.
  destruct (inspect (partition (x :: sep) s)) as [[[b a]|] E].
  - transitivity (b :: split (x :: sep) a); [reflexivity | now rewrite E].
  - transitivity [s]; [reflexivity | now rewrite E].
Qed.

(** Induction over a text, separator by separator: the way [split] reads
    it. *)
Lemma separator_ind (x : N) (sep : str) (P : str -> Prop) :
  (forall s, partition (x :: sep) s = None -> P s) ->
  (forall b a, partition (x :: sep) (b ++ (x :: sep) ++ a) = Some (b, a) ->
               P a -> P (b ++ (x :: sep) ++ a)) ->
  forall s, P s.
Proof.
  intros Hnone Hsome s.
  remember (length s) as n eqn:Hn. revert s Hn.
  induction n as [n IH] using lt_wf_ind. intros s ->.
  destruct (partition (x :: sep) s) as [[b a]|] eqn:E.
  - pose proof (partition_Some _ _ _ _ E) as ->.
    apply Hsome; [exact E|].
    apply (IH (length a)); [|reflexivity].
    rewrite !length_app. cbn. lia.
  - now apply Hnone.
Qed.

Lemma split_not_nil (x : N) (sep s : str) : split (x :: sep) s <> [].
Proof.
  rewrite split_unfold.
  destruct (partition (x :: sep) s) as [[b a]|]; discriminate.
Qed.

Lemma join_cons (sep x : str) (l : list str) :
  l <> [] -> join sep (x :: l) = x ++ sep ++ join sep l.
Proof. destruct l; [congruence | reflexivity]. Qed.

(** Joining the pieces with the separator gives the text back. *)
Lemma join_split (x : N) (sep s : str) :
  join (x :: sep) (split (x :: sep) s) = s.
Proof.
  induction s as [s E | b a E IH] using (separator_ind x sep);
    rewrite split_unfold, E.
  - reflexivity.
  - rewrite join_cons by apply split_not_nil. now rewrite IH.
Qed.

Lemma drop_last_snoc {A} (l : list A) (x : A) : drop_last (l ++ [x]) = l.
Proof.
  induction l as [|y l IH]; [reflexivity|].
  cbn [app drop_last]. rewrite IH. now destruct l.
Qed.

Lemma drop_last_last {A} (l : list A) (d : A) :
  l <> [] -> l = drop_last l ++ [List.last l d].
Proof.
  induction l as [|y l IH]; [congruence|]. intros _.
  destruct l as [|z l]; [reflexivity|].
  cbn [drop_last List.last app]. f_equal. apply IH. discriminate.
Qed.

Lemma length_drop_last {A} (l : list A) :
  length (drop_last l) = Nat.pred (length l).
Proof.
  induction l as [|y l IH]; [reflexivity|].
  destruct l as [|z l]; [reflexivity|].
  cbn [drop_last length] in *. now rewrite IH.
Qed.

Lemma length_drop_last_S {A} (l : list A) :
  l <> [] -> S (length (drop_last l)) = length l.
Proof. rewrite length_drop_last. destruct l; [congruence | reflexivity]. Qed.

Lemma join_snoc (sep : str) (l : list str) (x : str) :
  l <> [] -> join sep (l ++ [x]) = join sep l ++ sep ++ x.
Proof.
  induction l as [|y l IH]; [congruence|]. intros _.
  destruct l as [|z l]; [reflexivity|].
  change ((y :: z :: l) ++ [x]) with (y :: ((z :: l) ++ [x])).
  rewrite join_cons by (now destruct l).
  rewrite IH by discriminate.
  rewrite (join_cons sep y (z :: l)) by discriminate.
  now rewrite <- !app_assoc.
Qed.

Lemma partition_None_count (x : N) (sep s : str) :
  partition (x :: sep) s = None -> count (x :: sep) s = 0%nat.
Proof.
  induction s as [|c s IH]; [reflexivity|].
  cbn [partition count]. unfold startswith.
  destruct (strip_prefix (x :: sep) (c :: s)); [discriminate|].
  destruct (partition (x :: sep) s) as [[? ?]|]; [discriminate|].
  intros _. now rewrite IH.
Qed.

Lemma count_0_partition (x : N) (sep s : str) :
  count (x :: sep) s = 0%nat -> partition (x :: sep) s = None.
Proof.
  induction s as [|c s IH]; [reflexivity|].
  cbn [partition count]. unfold startswith.
  destruct (strip_prefix (x :: sep) (c :: s)); [discriminate|].
  cbn. intros H. now rewrite IH.
Qed.

End PyFacts.

(** ** The batch splitter *)

Module Splitter.
Import Py PyFacts.

(** The script of the example: a table name that ends in GO. *)
Definition cargo_script : str :=
  lit "SELECT * FROM CARGO" ++ [10] ++ lit "GO" ++ [10].

Lemma strip_GO_straddle (c : N) (b a : str) :
  strip_prefix GO_newline (c :: b) = None ->
  strip_prefix GO_newline (c :: b ++ GO_newline ++ a) = None.
Proof.
  unfold GO_newline. cbn [strip_prefix app].
  destruct (N.eqb 71 c); [|reflexivity].
  destruct b as [|c2 b]; cbn [strip_prefix app]; [reflexivity|].
  destruct (N.eqb 79 c2); [|reflexivity].
  destruct b as [|c3 b]; cbn [strip_prefix app]; [reflexivity|].
  destruct (N.eqb 10 c3); [discriminate | reflexivity].
Qed.

(** A text free of separators, followed by a separator: the first
    separator found is that one. *)
Lemma partition_GO_first (b a : str) :
  count GO_newline b = 0%nat ->
  partition GO_newline (b ++ GO_newline ++ a) = Some (b, a).
Proof.
  induction b as [|c b IH]; intros H.
  - change ([] ++ GO_newline ++ a) with (GO_newline ++ a).
    apply partition_here, strip_prefix_app.
  - cbn [count] in H. unfold startswith in H.
    destruct (strip_prefix GO_newline (c :: b)) eqn:E; [discriminate|].
    cbn [app partition].
    change (c :: b ++ GO_newline ++ a) with (c :: b ++ GO_newline ++ a).
    rewrite (strip_GO_straddle c b a E).
    now rewrite IH.
Qed.

(** The separator does not overlap itself: after an occurrence the next
    one starts no earlier than three characters on. *)
Lemma count_GO_app (a : str) :
  count GO_newline (GO_newline ++ a) = S (count GO_newline a).
Proof. reflexivity. Qed.

Lemma partition_GO_count (s b a : str) :
  partition GO_newline s = Some (b, a) ->
  count GO_newline s = S (count GO_newline a).
Proof.
  revert b. induction s as [|c s IH]; intros b H.
  - discriminate.
  - cbn [partition] in H.
    destruct (strip_prefix GO_newline (c :: s)) as [r|] eqn:E.
    + injection H as <- <-. apply strip_prefix_Some in E.
      rewrite E. apply count_GO_app.
    + destruct (partition GO_newline s) as [[b' a']|]; [|discriminate].
      injection H as <- <-. cbn [count]. unfold startswith.
      rewrite E. apply (IH _ eq_refl).
Qed.

(** Induction over a script, batch by batch. *)
Lemma script_ind (P : str -> Prop) :
  (forall s, partition GO_newline s = None -> re_split_GO s = [s] -> P s) ->
  (forall b a, partition GO_newline (b ++ GO_newline ++ a) = Some (b, a) ->
               re_split_GO (b ++ GO_newline ++ a) = b :: re_split_GO a ->
               P a -> P (b ++ GO_newline ++ a)) ->
  forall s, P s.
Proof.
  intros Hnone Hsome. unfold re_split_GO in *.
  apply (separator_ind 71 [79; 10]).
  - intros s E. apply Hnone; [exact E|].
    unfold GO_newline. rewrite split_unfold. now rewrite E.
  - intros b a E IH. apply Hsome; [exact E| |exact IH].
    unfold GO_newline. rewrite split_unfold. now rewrite E.
Qed.

Lemma partition_GO_none (s : str) :
  partition GO_newline s = None -> count GO_newline s = 0%nat.
Proof. apply (partition_None_count 71 [79; 10]). Qed.

Lemma count_GO_none (s : str) :
  count GO_newline s = 0%nat -> partition GO_newline s = None.
Proof. apply (count_0_partition 71 [79; 10]). Qed.

Lemma re_split_not_nil (text : str) : re_split_GO text <> [].
Proof. apply split_not_nil. Qed.

Lemma length_re_split (text : str) :
  length (re_split_GO text) = S (count GO_newline text).
Proof.
  induction text as [s E R | b a E R IH] using script_ind;
    rewrite R; cbn [length].
  - now rewrite (partition_GO_none _ E).
  - now rewrite IH, (partition_GO_count _ _ _ E).
Qed.

Lemma last_re_split_count (text : str) :
  count GO_newline (List.last (re_split_GO text) []) = 0%nat.
Proof.
  induction text as [s E R | b a E R IH] using script_ind; rewrite R.
  - now apply partition_GO_none.
  - pose proof (re_split_not_nil a) as Hne.
    destruct (re_split_GO a) as [|p ps]; [congruence|]. exact IH.
Qed.

Lemma re_split_one (b a : str) :
  count GO_newline b = 0%nat ->
  re_split_GO (b ++ GO_newline ++ a) = b :: re_split_GO a.
Proof.
  intros Hb. unfold re_split_GO, GO_newline at 1 3.
  rewrite split_unfold. fold GO_newline.
  now rewrite (partition_GO_first b a Hb).
Qed.

Lemma re_split_none (s : str) :
  count GO_newline s = 0%nat -> re_split_GO s = [s].
Proof.
  intros H. unfold re_split_GO, GO_newline. rewrite split_unfold.
  fold GO_newline. now rewrite (count_GO_none _ H).
Qed.

Lemma re_split_concat (bs : list str) (rest : str) :
  Forall (fun b => count GO_newline b = 0%nat) bs ->
  count GO_newline rest = 0%nat ->
  re_split_GO (concat (map (fun b => b ++ GO_newline) bs) ++ rest)
  = bs ++ [rest].
Proof.
  intros Hbs Hrest.
  induction Hbs as [|b bs Hb _ IH]; cbn [map concat app].
  - now apply re_split_none.
  - rewrite <- !app_assoc. rewrite (re_split_one b _ Hb). now rewrite IH.
Qed.

Lemma join_re_split (text : str) :
  join GO_newline (re_split_GO text) = text.
Proof. apply join_split. Qed.

(** C2 does not hold of the code: a boundary is to stand only at a line
    that consists of GO alone, and the script [SELECT * FROM CARGO], line
    feed, [GO], line feed has one such line, after one batch, the SELECT
    line.  The look-behind of the pattern is empty, so the splitter also
    cuts at the GO that ends the word CARGO: it yields the two batches
    [SELECT * FROM CAR] and the empty text. *)
Theorem split_batches_cuts_inside_word :
  split_batches cargo_script = [lit "SELECT * FROM CAR"; []].
Proof. vm_compute. reflexivity. Qed.

(** C3 does not hold of the code: the claim counts as separators the
    lines that are GO alone.  The final element of the raw split is
    dropped, but the splitter also cuts at a GO that ends a longer line:
    a script of the one line [SELECT * FROM CARGO], with no separator
    line, yields one batch and not none; and the script of that line and
    one separator line, which ends after the separator, yields two
    batches and not one, the first of them not the text before the
    separator line. *)
Theorem split_batches_counts_GO_inside_lines :
  split_batches (lit "SELECT * FROM CARGO" ++ [10]) = [lit "SELECT * FROM CAR"]
  /\ split_batches cargo_script = [lit "SELECT * FROM CAR"; []].
Proof. split; vm_compute; reflexivity. Qed.

(** X28: the final element of the raw split is always dropped, so the
    number of batches is the number of places of the text at which GO
    and a line feed stand, inside a line or not; a text without such a
    place yields no batch; and a text made of [n] pieces free of them,
    each followed by GO and a line feed, yields exactly these [n]
    pieces, in order. *)
Theorem split_batches_drop_last (text : str) (bs : list str) :
  re_split_GO text = split_batches text ++ [List.last (re_split_GO text) []]
  /\ length (split_batches text) = count GO_newline text
  /\ (count GO_newline text = 0%nat -> split_batches text = [])
  /\ (Forall (fun b => count GO_newline b = 0%nat) bs ->
      text = concat (map (fun b => b ++ GO_newline) bs) ->
      split_batches text = bs /\ count GO_newline text = length bs).
Proof.
  assert (Hlen : length (split_batches text) = count GO_newline text).
  { unfold split_batches. rewrite length_drop_last, length_re_split.
    reflexivity. }
  split; [|split; [|split]].
  - apply drop_last_last, re_split_not_nil.
  - exact Hlen.
  - intros H0. rewrite <- Hlen in H0.
    now destruct (split_batches text).
  - intros Hbs ->.
    assert (E : split_batches (concat (map (fun b => b ++ GO_newline) bs))
                = bs).
    { unfold split_batches.
      rewrite <- (app_nil_r (concat _)).
      rewrite (re_split_concat bs [] Hbs eq_refl).
      apply drop_last_snoc. }
    split; [exact E|]. rewrite <- Hlen. now rewrite E.
Qed.

Lemma split_batches_drop_last_witness :
  split_batches (lit "CREATE SCHEMA s" ++ [10] ++ GO_newline
                 ++ lit "CREATE TABLE s.t (c int)" ++ [10] ++ GO_newline)
  = [lit "CREATE SCHEMA s" ++ [10]; lit "CREATE TABLE s.t (c int)" ++ [10]]
  /\ split_batches (lit "SELECT 1") = [].
Proof.
  split.
  - destruct (split_batches_drop_last
                (lit "CREATE SCHEMA s" ++ [10] ++ GO_newline
                 ++ lit "CREATE TABLE s.t (c int)" ++ [10] ++ GO_newline)
                [lit "CREATE SCHEMA s" ++ [10];
                 lit "CREATE TABLE s.t (c int)" ++ [10]])
      as (_ & _ & _ & H).
    apply H; [repeat constructor | reflexivity].
  - destruct (split_batches_drop_last (lit "SELECT 1") []) as (_ & _ & H & _).
    apply H. reflexivity.
Defined.

(** C8: for a text with at least one separator, the batches joined with
    the separator, followed by one more separator and by the dropped
    final element of the raw split, are the text again; the dropped
    element holds no separator, so what precedes it is the text up to
    and including its last separator. *)
Theorem split_batches_roundtrip (text : str) :
  count GO_newline text <> 0%nat ->
  let rest := List.last (re_split_GO text) [] in
  text = join GO_newline (split_batches text) ++ GO_newline ++ rest
  /\ count GO_newline rest = 0%nat.
Proof.
  intros Hsep rest. split; [|apply last_re_split_count].
  pose proof (join_re_split text) as J.
  rewrite (drop_last_last (re_split_GO text) [] (re_split_not_nil text)) in J.
  fold (split_batches text) in J. fold rest in J.
  rewrite join_snoc in J; [now symmetry|].
  intros E. apply Hsep.
  pose proof (length_re_split text) as L.
  pose proof (length_drop_last_S _ (re_split_not_nil text)) as L'.
  unfold split_batches in E. rewrite E, L in L'. cbn in L'. lia.
Qed.

Lemma split_batches_roundtrip_witness :
  lit "PRINT 1" ++ [10] ++ GO_newline ++ lit "PRINT 2"
  = join GO_newline [lit "PRINT 1" ++ [10]] ++ GO_newline ++ lit "PRINT 2".
Proof.
  pose proof (split_batches_roundtrip
                (lit "PRINT 1" ++ [10] ++ GO_newline ++ lit "PRINT 2")) as H.
  apply H. vm_compute. discriminate.
Defined.

End Splitter.

(** ** The batch executor *)

Module Executor.

Lemma for_each_cons {S A} (x : A) (l : list A) (body : A -> M S unit) (s : S) :
  for_each (x :: l) body s =
  match body x s with
  | (s1, ev1, Ok _) =>
      match for_each l body s1 with (s2, ev2, r) => (s2, ev1 ++ ev2, r) end
  | (s1, ev1, Raise e) => (s1, ev1, Raise e)
  end.
Proof. reflexivity. Qed.

Section Executor.
Context {db : Type} (env : odbc db) (server : str) (total : nat).

Lemma execute_batch_run (i : nat) (b : str) (s : db) :
  execute_batch env server total (i, b) s =
  match execute env s server b with
  | (s1, None) => (s1, [Execute server b None], Ok tt)
  | (s1, Some exc) =>
      (s1, [Execute server b (Some exc);
            Print (Failed_on_batch (S i) total);
            Print (Exception_text exc)], Ok tt)
  end.
Proof.
  unfold execute_batch, try_execute, mbind, M_bind, bind. cbn [fst snd].
  destruct (execute env s server b) as [s1 [exc|]]; cbn;
    rewrite ?Nat.add_1_r; reflexivity.
Qed.

Lemma execute_from (batches : list str) (i : nat) (s : db) :
  let run := for_each (enumerate_from i batches)
               (execute_batch env server total) s in
  result_of run = Ok tt
  /\ statements (events_of run) = batches
  /\ length (outcomes (events_of run)) = length batches
  /\ reported (events_of run)
     = map (fun k => (k, total)) (failed_from i (outcomes (events_of run))).
Proof.
  revert i s. induction batches as [|b rest IH]; intros i s.
  - cbn. auto.
  - cbv zeta. cbn [enumerate_from]. rewrite for_each_cons, execute_batch_run.
    destruct (execute env s server b) as [s1 r].
    specialize (IH (S i) s1). cbv zeta in IH.
    destruct r as [exc|]; cbv iota beta;
      destruct (for_each (enumerate_from (S i) rest)
                  (execute_batch env server total) s1) as [[s2 evs] r2];
      unfold result_of, events_of in *; cbn [fst snd] in *;
      destruct IH as (-> & Hst & Hlen & Hrep);
      unfold statements, outcomes, reported in *;
      cbn; rewrite Hst, Hlen, Hrep; auto.
Qed.

End Executor.

(** C4: every batch of the sequence is sent to the server exactly once,
    in the given order, whatever the outcomes; the loop ends normally;
    the positions reported as failed are the 1-based positions of the
    batches whose execution raised, each with the number of batches; so
    for three batches of which the second fails, three are attempted and
    the one report is for position 2. *)
Theorem execute_batches_attempts_all {db : Type} (env : odbc db)
    (server : str) (batches : list str) (s : db) :
  let run := execute_batches env server batches s in
  result_of run = Ok tt
  /\ statements (events_of run) = batches
  /\ length (outcomes (events_of run)) = length batches
  /\ reported (events_of run)
     = map (fun k => (k, length batches))
         (failed_from 0 (outcomes (events_of run)))
  /\ (forall B1 B2 B3 s1 s2 s3 exc,
        batches = [B1; B2; B3] ->
        execute env s server B1 = (s1, None) ->
        execute env s1 server B2 = (s2, Some exc) ->
        execute env s2 server B3 = (s3, None) ->
        statements (events_of run) = [B1; B2; B3]
        /\ reported (events_of run) = [(2, 3)%nat]).
Proof.
  intros run.
  destruct (execute_from env server (length batches) batches 0 s)
    as (Hr & Hst & Hlen & Hrep).
  fold (enumerate batches) in Hr, Hst, Hlen, Hrep.
  split; [exact Hr|]. split; [exact Hst|]. split; [exact Hlen|].
  split; [exact Hrep|].
  intros B1 B2 B3 s1 s2 s3 exc -> E1 E2 E3.
  split; [exact Hst|].
  subst run. unfold execute_batches, enumerate.
  cbn [enumerate_from length].
  rewrite !for_each_cons, execute_batch_run, E1. cbv iota beta.
  rewrite !for_each_cons, execute_batch_run, E2. cbv iota beta.
  rewrite !for_each_cons, execute_batch_run, E3. reflexivity.
Qed.

(** A server on which exactly the statement [B2] fails. *)
Definition picky : odbc unit := {|
  drivers := [lit "ODBC Driver 17 for SQL Server"];
  connect := fun _ _ => None;
  execute := fun _ _ stmt =>
    (tt, if decide (stmt = lit "B2")
         then Some (DatabaseError (lit "syntax error")) else None)
|}.

Lemma execute_batches_attempts_all_witness :
  statements (events_of (execute_batches picky (lit "srv")
                           [lit "B1"; lit "B2"; lit "B3"] tt))
  = [lit "B1"; lit "B2"; lit "B3"]
  /\ reported (events_of (execute_batches picky (lit "srv")
                            [lit "B1"; lit "B2"; lit "B3"] tt))
     = [(2, 3)%nat].
Proof.
  destruct (execute_batches_attempts_all picky (lit "srv")
              [lit "B1"; lit "B2"; lit "B3"] tt) as (_ & _ & _ & _ & H).
  apply (H (lit "B1") (lit "B2") (lit "B3") tt tt tt
           (DatabaseError (lit "syntax error")));
    reflexivity.
Defined.

End Executor.

(** ** The schema deployer *)

Module Deployer.

(** A server that accepts every statement. *)
Definition agreeable : odbc unit := {|
  drivers := [lit "SQL Server"];
  connect := fun _ _ => None;
  execute := fun _ _ _ => (tt, None)
|}.

(** The schema tree of one target with two object files, each of one
    batch, under the base directory [repo]. *)
Definition two_files : node :=
  Dir [(lit "repo", Dir [(lit "schema", Dir [(lit "srv", Dir [(lit "app", Dir [
    (lit "dbo.a.Table.sql", File (Text (lit "CREATE TABLE a (c int)" ++ [10] ++ GO_newline)));
    (lit "dbo.b.Table.sql", File (Text (lit "CREATE TABLE b (c int)" ++ [10] ++ GO_newline)))
  ])])])])].

(** C1 does not hold of the code: the drop is to be issued once per
    target, before the batches of all its files.  It stands inside the
    loop over the files: for one target with two object files and
    [overwrite] set, [schema_to_db] issues it once per file, and the
    second drop follows the batch of the first file. *)
Theorem schema_to_db_drops_per_file :
  statements (events_of (schema_to_db agreeable two_files
                           [lit "[srv].[app]"] true [lit "repo"] tt))
  = [ drop_database (lit "app");
      lit "CREATE TABLE a (c int)" ++ [10];
      drop_database (lit "app");
      lit "CREATE TABLE b (c int)" ++ [10] ].
Proof. vm_compute. reflexivity. Qed.

End Deployer.

(** ** Facts about stripping *)

Module StripFacts.
Import Py.

Section Strip.
Context (p : N -> bool).

Lemma lstrip_length (s : str) : (length (lstrip p s) <= length s)%nat.
Proof.
  induction s as [|c s IH]; cbn; [lia|]. destruct (p c); cbn; lia.
Qed.

Lemma lstrip_idem (s : str) : lstrip p (lstrip p s) = lstrip p s.
Proof.
  induction s as [|c s IH]; [reflexivity|].
  cbn [lstrip]. destruct (p c) eqn:E; [exact IH|].
  cbn [lstrip]. now rewrite E.
Qed.

Lemma rstrip_cons (c : N) (s : str) :
  rstrip p (c :: s) = [] \/ rstrip p (c :: s) = c :: rstrip p s.
Proof.
  cbn [rstrip]. destruct (rstrip p s) as [|d r].
  - destruct (p c); auto.
  - auto.
Qed.

Lemma rstrip_idem (s : str) : rstrip p (rstrip p s) = rstrip p s.
Proof.
  induction s as [|c s IH]; [reflexivity|].
  cbn [rstrip]. destruct (rstrip p s) as [|d r] eqn:E.
  - destruct (p c) eqn:Ec; [reflexivity|]. cbn. now rewrite Ec.
  - cbn [rstrip] in *. now rewrite IH.
Qed.

(** Stripping on the right keeps a first character that stays. *)
Lemma lstrip_rstrip (s : str) :
  lstrip p s = s -> lstrip p (rstrip p s) = rstrip p s.
Proof.
  destruct s as [|c s]; [reflexivity|].
  cbn [lstrip]. destruct (p c) eqn:Ec.
  - intros H. exfalso.
    pose proof (lstrip_length s) as L. rewrite H in L. cbn in L. lia.
  - intros _. cbn [rstrip]. destruct (rstrip p s).
    + rewrite Ec. cbn. now rewrite Ec.
    + cbn. now rewrite Ec.
Qed.

Lemma strip_idem (s : str) : strip p (strip p s) = strip p s.
Proof.
  unfold strip.
  rewrite (lstrip_rstrip (lstrip p s)) by apply lstrip_idem.
  apply rstrip_idem.
Qed.

Lemma lstrip_Forall (Q : N -> Prop) (s : str) :
  List.Forall Q s -> List.Forall Q (lstrip p s).
Proof.
  induction 1 as [|c s Hc Hs IH]; cbn; [constructor|].
  destruct (p c); [exact IH | now constructor].
Qed.

Lemma rstrip_Forall (Q : N -> Prop) (s : str) :
  List.Forall Q s -> List.Forall Q (rstrip p s).
Proof.
  induction 1 as [|c s Hc Hs IH]; [constructor|].
  destruct (rstrip_cons c s) as [-> | ->]; [constructor | now constructor].
Qed.

Lemma strip_Forall (Q : N -> Prop) (s : str) :
  List.Forall Q s -> List.Forall Q (strip p s).
Proof. intros H. now apply rstrip_Forall, lstrip_Forall. Qed.

(** What is left starts and ends with a character that is not stripped. *)
Lemma lstrip_head (s : str) (c : N) :
  lstrip p s = s -> hd_error s = Some c -> p c = false.
Proof.
  destruct s as [|d s]; [discriminate|]. cbn [lstrip hd_error].
  destruct (p d) eqn:E.
  - intros H. exfalso.
    pose proof (lstrip_length s) as L. rewrite H in L. cbn in L. lia.
  - now intros _ [= <-].
Qed.

Lemma rstrip_last (s : str) (d : N) :
  rstrip p s = s -> s <> [] -> p (List.last s d) = false.
Proof.
  induction s as [|c s IH]; [congruence|]. intros H _.
  cbn [rstrip] in H. destruct (rstrip p s) as [|x r] eqn:E.
  - destruct (p c) eqn:Ec; [discriminate|].
    injection H as <-. exact Ec.
  - injection H as H. rewrite <- H in *.
    cbn [List.last]. apply IH; [reflexivity | discriminate].
Qed.

Lemma strip_head (s : str) (c : N) :
  hd_error (strip p s) = Some c -> p c = false.
Proof.
  apply lstrip_head. unfold strip. apply lstrip_rstrip, lstrip_idem.
Qed.

Lemma strip_last (s : str) (d : N) :
  strip p s <> [] -> p (List.last (strip p s) d) = false.
Proof. apply rstrip_last. unfold strip. apply rstrip_idem. Qed.

End Strip.
End StripFacts.

(** ** Facts about slugs *)

Module SlugFacts.
Import Py StripFacts Unicode.

(** No character of the class [\s], and no hyphen after a hyphen;
    [after_hyphen] says that the character before was a hyphen. *)
Fixpoint tidy (ucd : unicode_data) (after_hyphen : bool) (s : str) : bool :=
  match s with
  | [] => true
  | c :: s' =>
      if c =? 45 then negb after_hyphen && tidy ucd true s'
      else negb (isspace ucd c) && tidy ucd false s'
  end.

Section Slug.
Context (ucd : unicode_data).

(** The steps of [slugify] after normalisation and lowering. *)
Definition finish (s : str) : str :=
  strip hyphen_underscore (collapse ucd (remove_others ucd s)).

Lemma slugify_finish (value : str) (allow_unicode : bool) :
  slugify ucd value allow_unicode =
  finish (lower ucd
            (if allow_unicode then normalize ucd NFKC value
             else encode_ascii_ignore (normalize ucd NFKD value))).
Proof. reflexivity. Qed.

Lemma tidy_weaken (s : str) (b : bool) :
  tidy ucd b s = true -> tidy ucd false s = true.
Proof.
  destruct s as [|c s]; [reflexivity|]. cbn [tidy].
  destruct (c =? 45); [|easy].
  rewrite andb_true_iff. now intros [_ ->].
Qed.

Lemma tidy_collapse (s : str) (b : bool) :
  tidy ucd b (collapse_from ucd b s) = true.
Proof.
  revert b. induction s as [|c s IH]; intros b; [reflexivity|].
  cbn [collapse_from]. unfold hyphen_or_space.
  destruct (c =? 45) eqn:E45; cbn [orb].
  - destruct b; [apply IH|]. cbn [tidy]. cbn. apply IH.
  - destruct (isspace ucd c) eqn:Esp.
    + destruct b; [apply IH|]. cbn [tidy]. cbn. apply IH.
    + cbn [tidy]. rewrite E45, Esp. cbn. apply IH.
Qed.

Lemma collapse_tidy (s : str) (b : bool) :
  tidy ucd b s = true -> collapse_from ucd b s = s.
Proof.
  revert b. induction s as [|c s IH]; intros b; [reflexivity|].
  cbn [tidy collapse_from]. unfold hyphen_or_space.
  destruct (N.eqb_spec c 45) as [->|Hc]; cbn [orb].
  - rewrite andb_true_iff. intros [Hb Ht].
    destruct b; [discriminate|]. now rewrite IH.
  - rewrite andb_true_iff. intros [Hsp Ht].
    apply negb_true_iff in Hsp. rewrite Hsp. now rewrite IH.
Qed.

Lemma tidy_lstrip (p : N -> bool) (s : str) (b : bool) :
  tidy ucd b s = true -> tidy ucd false (lstrip p s) = true.
Proof.
  revert b. induction s as [|c s IH]; intros b H; [reflexivity|].
  cbn [lstrip]. destruct (p c); [|now apply tidy_weaken with b].
  cbn [tidy] in H. destruct (c =? 45);
    apply andb_true_iff in H as [_ H]; now apply IH in H.
Qed.

Lemma tidy_rstrip (p : N -> bool) (s : str) (b : bool) :
  tidy ucd b s = true -> tidy ucd b (rstrip p s) = true.
Proof.
  revert b. induction s as [|c s IH]; intros b H; [reflexivity|].
  destruct (rstrip_cons p c s) as [-> | ->]; [reflexivity|].
  cbn [tidy] in *. destruct (c =? 45);
    apply andb_true_iff in H as [-> H]; now rewrite (IH _ H).
Qed.

Lemma tidy_finish (s : str) : tidy ucd false (finish s) = true.
Proof.
  unfold finish, strip.
  apply tidy_rstrip, tidy_lstrip with false, tidy_collapse.
Qed.

(** Hyphens stand alone in a tidy text: two hyphens in a row occur
    nowhere. *)
Lemma tidy_single_hyphens (s : str) (b : bool) :
  tidy ucd b s = true -> count [45; 45] s = 0%nat.
Proof.
  revert b. induction s as [|c s IH]; intros b H; [reflexivity|].
  cbn [tidy] in H. cbn [count]. unfold startswith. cbn [strip_prefix].
  rewrite (N.eqb_sym 45 c).
  destruct (N.eqb_spec c 45) as [->|Hc];
    apply andb_true_iff in H as [_ H]; rewrite (IH _ H); [|reflexivity].
  destruct s as [|d s]; [reflexivity|].
  cbn [tidy] in H. rewrite (N.eqb_sym 45 d).
  destruct (N.eqb_spec d 45) as [->|Hd]; [discriminate | reflexivity].
Qed.

(** The characters of a finished text: a hyphen, or a word character of
    the text it was made from. *)
Lemma collapse_chars (Q : N -> Prop) (s : str) (b : bool) :
  Q 45 ->
  List.Forall (fun c => hyphen_or_space ucd c = false -> Q c) s ->
  List.Forall Q (collapse_from ucd b s).
Proof.
  intros Q45 H. revert b.
  induction H as [|c s Hc Hs IH]; intros b; [constructor|].
  cbn [collapse_from]. destruct (hyphen_or_space ucd c) eqn:E.
  - destruct b; [apply IH | constructor; [exact Q45 | apply IH]].
  - constructor; [now apply Hc | apply IH].
Qed.

Lemma finish_chars (Q : N -> Prop) (s : str) :
  Q 45 ->
  List.Forall (fun c => is_word ucd c = true -> Q c) s ->
  List.Forall Q (finish s).
Proof.
  intros Q45 H. unfold finish. apply strip_Forall, collapse_chars; [exact Q45|].
  unfold remove_others. induction H as [|c s Hc Hs IH]; [constructor|].
  cbn [List.filter]. destruct (kept ucd c) eqn:Ek; [|exact IH].
  constructor; [|exact IH]. intros Ehs. apply Hc.
  unfold kept, hyphen_or_space in *.
  destruct (is_word ucd c); [reflexivity|].
  destruct (isspace ucd c), (c =? 45); discriminate.
Qed.

Lemma filter_all {A} (f : A -> bool) (l : list A) :
  List.Forall (fun x => f x = true) l -> List.filter f l = l.
Proof.
  induction 1 as [|x l Hx Hl IH]; [reflexivity|].
  cbn. now rewrite Hx, IH.
Qed.

Lemma finish_kept (s : str) :
  List.Forall (fun c => kept ucd c = true) (finish s).
Proof.
  apply finish_chars.
  - unfold kept. now rewrite orb_true_r.
  - apply List.Forall_forall. intros c _ Hw. unfold kept. now rewrite Hw.
Qed.

(** The steps after lowering change nothing when run again. *)
Lemma finish_idem (s : str) : finish (finish s) = finish s.
Proof.
  unfold finish at 1.
  rewrite (filter_all _ _ (finish_kept s) : remove_others ucd _ = _).
  unfold collapse. rewrite (collapse_tidy _ _ (tidy_finish s)).
  unfold finish. apply strip_idem.
Qed.

End Slug.

(** *** The ASCII path *)

Ltac ranges :=
  unfold slug_char, is_word, isalnum, ascii_alnum, ascii_lower, is_ascii,
    hyphen_underscore, between in *;
  repeat match goal with
    | H : _ /\ _ |- _ => destruct H
    | H : context [N.leb ?a ?b] |- _ => destruct (N.leb_spec a b)
    | H : context [N.ltb ?a ?b] |- _ => destruct (N.ltb_spec a b)
    | H : context [N.eqb ?a ?b] |- _ => destruct (N.eqb_spec a b)
    | |- context [N.leb ?a ?b] => destruct (N.leb_spec a b)
    | |- context [N.ltb ?a ?b] => destruct (N.ltb_spec a b)
    | |- context [N.eqb ?a ?b] => destruct (N.eqb_spec a b)
    end;
  cbn in *; try split; try reflexivity; try discriminate; try lia.

(** An ASCII character that lowering leaves as it is. *)
Definition lowered (c : N) : Prop :=
  is_ascii c = true /\ ascii_lower c = c.

Lemma lowered_ascii_lower (c : N) :
  is_ascii c = true -> lowered (ascii_lower c).
Proof. unfold lowered. intros H. ranges. Qed.

Lemma lowered_hyphen : lowered 45.
Proof. now split. Qed.

Lemma lowered_word_slug_char (ucd : unicode_data) (c : N) :
  lowered c -> is_word ucd c = true -> slug_char c = true.
Proof. unfold lowered. intros H Hw. ranges. Qed.

Lemma forallb_all {A} (f : A -> bool) (l : list A) :
  List.Forall (fun x => f x = true) l -> forallb f l = true.
Proof. induction 1 as [|x l Hx _ IH]; cbn; [easy | now rewrite Hx]. Qed.

Lemma filter_holds {A} (f : A -> bool) (l : list A) :
  List.Forall (fun x => f x = true) (List.filter f l).
Proof.
  induction l as [|x l IH]; cbn; [constructor|].
  destruct (f x) eqn:E; [now constructor | exact IH].
Qed.

Lemma map_fixed {A} (f : A -> A) (l : list A) :
  List.Forall (fun x => f x = x) l -> map f l = l.
Proof. induction 1 as [|x l Hx _ IH]; cbn; [easy | now rewrite Hx, IH]. Qed.

Section Ascii.
Context (ucd : unicode_data).

Lemma lower_ascii (s : str) :
  List.Forall (fun c => is_ascii c = true) s ->
  lower ucd s = map ascii_lower s.
Proof. intros H. unfold lower. now rewrite (forallb_all _ _ H). Qed.

(** With [allow_unicode=False] the text that reaches the last steps is
    ASCII and lowered. *)
Lemma ascii_path_lowered (value : str) :
  List.Forall lowered
    (lower ucd (encode_ascii_ignore (normalize ucd NFKD value))).
Proof.
  unfold encode_ascii_ignore.
  rewrite lower_ascii by apply filter_holds.
  apply List.Forall_map.
  eapply List.Forall_impl; [|apply filter_holds].
  intros c Hc. now apply lowered_ascii_lower.
Qed.

Lemma slug_lowered (value : str) :
  List.Forall lowered (slugify ucd value false).
Proof.
  rewrite slugify_finish. apply finish_chars; [exact lowered_hyphen|].
  eapply List.Forall_impl; [|apply ascii_path_lowered]. now intros c Hc _.
Qed.

Lemma slug_chars (value : str) :
  List.Forall (fun c => slug_char c = true) (slugify ucd value false).
Proof.
  rewrite slugify_finish. apply finish_chars; [reflexivity|].
  eapply List.Forall_impl; [|apply ascii_path_lowered].
  intros c Hc Hw. now apply (lowered_word_slug_char ucd).
Qed.

(** A lowered ASCII text passes normalisation, encoding and lowering
    unchanged. *)
Lemma lowered_through (s : str) :
  List.Forall lowered s ->
  lower ucd (encode_ascii_ignore (normalize ucd NFKD s)) = s.
Proof.
  intros H.
  assert (Ha : List.Forall (fun c => is_ascii c = true) s)
    by (eapply List.Forall_impl; [|exact H]; now intros c [Hc _]).
  unfold normalize. rewrite (forallb_all _ _ Ha).
  unfold encode_ascii_ignore. rewrite (filter_all _ _ Ha).
  rewrite (lower_ascii _ Ha). apply map_fixed.
  eapply List.Forall_impl; [|exact H]. now intros c [_ Hc].
Qed.

End Ascii.
(** The text of three code points: the leading consonant KIYEOK, an
    exclamation mark, and the vowel A. *)
Definition jamo_apart : str := [4352; 33; 4449].

(** C9 fails with [allow_unicode=True]: the slug of [jamo_apart] is the
    two jamo side by side, which is not in normal form; a second run
    composes them into the syllable GA. *)
Lemma slugify_not_idempotent_unicode :
  slugify Hangul.ucd jamo_apart true = [4352; 4449]
  /\ slugify Hangul.ucd (slugify Hangul.ucd jamo_apart true) true = [44032]
  /\ slugify Hangul.ucd (slugify Hangul.ucd jamo_apart true) true
     <> slugify Hangul.ucd jamo_apart true.
Proof.
  split; [reflexivity|]. split; [reflexivity|].
  vm_compute. discriminate.
Qed.

(** C9, amended: [slugify] run on its own result gives that result
    again, for every text with [allow_unicode=False], and with
    [allow_unicode=True] for every text whose slug is left as it is by
    NFKC normalisation and by lowering; with [allow_unicode=False] the
    slug holds only lowercase ASCII word characters and hyphens, no two
    hyphens in a row, and neither starts nor ends with a hyphen or an
    underscore. *)
Theorem slugify_idempotent (ucd : unicode_data) (value : str)
    (allow_unicode : bool) :
  let slug := slugify ucd value allow_unicode in
  ((allow_unicode = true ->
    normalize ucd NFKC slug = slug /\ lower ucd slug = slug) ->
   slugify ucd slug allow_unicode = slug)
  /\ (allow_unicode = false ->
      List.Forall (fun c => slug_char c = true) slug
      /\ count [45; 45] slug = 0%nat
      /\ (forall c, hd_error slug = Some c -> hyphen_underscore c = false)
      /\ (slug <> [] -> hyphen_underscore (List.last slug 0) = false)).
Proof.
  intros slug. split.
  - intros Hstable. subst slug. destruct allow_unicode.
    + destruct (Hstable eq_refl) as [Hn Hl].
      rewrite (slugify_finish ucd (slugify ucd value true)).
      rewrite Hn, Hl. rewrite slugify_finish. apply finish_idem.
    + rewrite (slugify_finish ucd (slugify ucd value false)).
      rewrite (lowered_through ucd _ (slug_lowered ucd value)).
      rewrite slugify_finish. apply finish_idem.
  - intros ->. subst slug. split; [apply slug_chars|].
    rewrite slugify_finish. split; [|split].
    + apply (tidy_single_hyphens ucd _ false), tidy_finish.
    + intros c. apply strip_head.
    + apply strip_last.
Qed.

Lemma slugify_idempotent_witness :
  slugify Hangul.ucd (lit "my-db-name-2024") false = lit "my-db-name-2024"
  /\ slugify Hangul.ucd [54620; 45; 44544] true = [54620; 45; 44544].
Proof.
  split.
  - apply (slugify_idempotent Hangul.ucd (lit "My DB! Name--2024") false).
    discriminate.
  - apply (slugify_idempotent Hangul.ucd [54620; 32; 44544] true).
    intros _. split; reflexivity.
Defined.

End SlugFacts.

(** ** Facts about the file tree *)

Module FsFacts.
Import Fs.

Lemma node_rect' (P : node -> Prop) :
  (forall c, P (File c)) ->
  (forall es, List.Forall (fun e => P (snd e)) es -> P (Dir es)) ->
  forall n, P n.
Proof.
  intros HF HD. fix IH 1. intros [c|es]; [apply HF|]. apply HD.
  induction es as [|[k v] es IHes]; constructor; [apply IH | exact IHes].
Qed.

(** *** Entries *)

Lemma assoc_None (a : str) (es : list (str * node)) :
  assoc a es = None <-> a ∉ map fst es.
Proof.
  induction es as [|[k v] es IH]; cbn.
  - split; [intros _; apply not_elem_of_nil | reflexivity].
  - rewrite not_elem_of_cons. destruct (decide (k = a)) as [->|Hne].
    + split; [discriminate | now intros [? _]].
    + rewrite IH. split; [now intros; split; [congruence|] | now intros [_ ?]].
Qed.

Lemma assoc_Some_elem (a : str) (v : node) (es : list (str * node)) :
  assoc a es = Some v -> (a, v) ∈ es.
Proof.
  induction es as [|[k w] es IH]; cbn; [discriminate|].
  destruct (decide (k = a)) as [->|Hne].
  - intros [= ->]. apply elem_of_cons. now left.
  - intros H. apply elem_of_cons. right. now apply IH.
Qed.

Lemma assoc_app (a : str) (A B : list (str * node)) :
  assoc a (A ++ B) =
  match assoc a A with Some v => Some v | None => assoc a B end.
Proof.
  induction A as [|[k v] A IH]; cbn; [reflexivity|].
  now destruct (decide (k = a)).
Qed.

Lemma assoc_middle (a : str) (v : node) (A B : list (str * node)) :
  a ∉ map fst A -> assoc a (A ++ (a, v) :: B) = Some v.
Proof.
  intros HA. rewrite assoc_app. apply assoc_None in HA. rewrite HA.
  cbn. now destruct (decide (a = a)).
Qed.

Lemma existsb_has_name (a : str) (es : list (str * node)) :
  existsb (has_name a) es = false <-> a ∉ map fst es.
Proof.
  induction es as [|[k v] es IH]; cbn.
  - split; [intros _; apply not_elem_of_nil | reflexivity].
  - rewrite not_elem_of_cons, orb_false_iff, IH. unfold has_name. cbn.
    rewrite bool_decide_eq_false. intuition congruence.
Qed.

Lemma has_name_true (a : str) (e : str * node) :
  has_name a e = true <-> fst e = a.
Proof. unfold has_name. now rewrite bool_decide_eq_true. Qed.

Lemma has_name_false (a : str) (e : str * node) :
  has_name a e = false <-> fst e <> a.
Proof. unfold has_name. now rewrite bool_decide_eq_false. Qed.

Lemma map_unnamed (a : str) (f : str * node -> str * node)
    (es : list (str * node)) :
  a ∉ map fst es ->
  map (fun e => if has_name a e then f e else e) es = es.
Proof.
  induction es as [|e es IH]; cbn; [reflexivity|].
  rewrite not_elem_of_cons. intros [Hne Hes].
  destruct (has_name a e) eqn:E.
  - apply has_name_true in E. congruence.
  - now rewrite IH.
Qed.

Lemma filter_unnamed (a : str) (es : list (str * node)) :
  a ∉ map fst es -> del_entry a es = es.
Proof.
  unfold del_entry. induction es as [|e es IH]; cbn; [reflexivity|].
  rewrite not_elem_of_cons. intros [Hne Hes].
  destruct (has_name a e) eqn:E.
  - apply has_name_true in E. congruence.
  - cbn. now rewrite IH.
Qed.

(** In a directory without a double name, setting or deleting the entry
    of a name acts where that entry stands. *)
Lemma upd_middle (a : str) (v : node) (o : option node)
    (A B : list (str * node)) :
  a ∉ map fst A -> a ∉ map fst B ->
  upd a o (A ++ (a, v) :: B) =
  A ++ match o with Some v' => [(a, v')] | None => [] end ++ B.
Proof.
  intros HA HB. destruct o as [v'|]; cbn [upd].
  - unfold set_entry.
    assert (E : existsb (has_name a) (A ++ (a, v) :: B) = true).
    { rewrite existsb_app. cbn. unfold has_name at 2. cbn.
      rewrite bool_decide_eq_true_2 by reflexivity.
      now rewrite orb_true_r. }
    rewrite E, map_app. cbn [map].
    rewrite (map_unnamed a (fun _ => (a, v')) A HA).
    rewrite (map_unnamed a (fun _ => (a, v')) B HB).
    unfold has_name. cbn. now rewrite bool_decide_eq_true_2.
  - unfold del_entry. rewrite List.filter_app. cbn [List.filter].
    fold (del_entry a A). fold (del_entry a B).
    rewrite (filter_unnamed a A HA), (filter_unnamed a B HB).
    unfold has_name. cbn. now rewrite bool_decide_eq_true_2.
Qed.

(** An entry found by its name splits the directory around it. *)
Lemma assoc_split (a : str) (v : node) (es : list (str * node)) :
  NoDup (map fst es) -> assoc a es = Some v ->
  exists A B, es = A ++ ((a, v) :: B) /\ (a ∉ map fst A) /\ (a ∉ map fst B).
Proof.
  induction es as [|[k w] es IH]; cbn; [discriminate|].
  rewrite NoDup_cons. intros [Hk Hnd].
  destruct (decide (k = a)) as [->|Hne].
  - intros [= ->]. exists [], es. repeat split; [apply not_elem_of_nil | exact Hk].
  - intros H. destruct (IH Hnd H) as (A & B & -> & HA & HB).
    exists ((k, w) :: A), B. repeat split; [|exact HB].
    cbn. rewrite not_elem_of_cons. split; [congruence | exact HA].
Qed.

Lemma upd_same (a : str) (v : node) (es : list (str * node)) :
  NoDup (map fst es) -> assoc a es = Some v -> upd a (Some v) es = es.
Proof.
  intros Hnd H. destruct (assoc_split a v es Hnd H) as (A & B & -> & HA & HB).
  now rewrite upd_middle.
Qed.

Lemma upd_upd (a : str) (v : node) (o : option node)
    (es : list (str * node)) :
  NoDup (map fst es) -> is_Some (assoc a es) ->
  upd a o (upd a (Some v) es) = upd a o es.
Proof.
  intros Hnd [w H]. destruct (assoc_split a w es Hnd H) as (A & B & -> & HA & HB).
  rewrite (upd_middle a w (Some v)) by assumption. cbn [app].
  now rewrite !upd_middle.
Qed.

Lemma assoc_upd (a : str) (w : node) (o : option node)
    (es : list (str * node)) :
  NoDup (map fst es) -> assoc a es = Some w -> assoc a (upd a o es) = o.
Proof.
  intros Hnd H. destruct (assoc_split a w es Hnd H) as (A & B & -> & HA & HB).
  rewrite upd_middle by assumption. destruct o as [v'|].
  - now apply assoc_middle.
  - cbn [app]. apply assoc_None. rewrite map_app, not_elem_of_app. now split.
Qed.

Lemma assoc_upd_ne (a b : str) (o : option node) (es : list (str * node)) :
  a <> b -> assoc b (upd a o es) = assoc b es.
Proof.
  intros Hne. destruct o as [v|]; cbn [upd].
  - unfold set_entry. destruct (existsb (has_name a) es).
    + induction es as [|[k w] es IH]; cbn; [reflexivity|].
      unfold has_name at 1. cbn.
      destruct (decide (k = a)) as [->|Hk].
      * rewrite bool_decide_eq_true_2 by reflexivity. cbn.
        destruct (decide (a = b)); [congruence | exact IH].
      * rewrite bool_decide_eq_false_2 by exact Hk. cbn.
        destruct (decide (k = b)); [reflexivity | exact IH].
    + rewrite assoc_app. destruct (assoc b es); [reflexivity|]. cbn.
      destruct (decide (a = b)); [congruence | reflexivity].
  - unfold del_entry. induction es as [|[k w] es IH]; cbn; [reflexivity|].
    unfold has_name at 1. cbn. destruct (decide (k = a)) as [->|Hk].
    + rewrite bool_decide_eq_true_2 by reflexivity. cbn.
      destruct (decide (a = b)); [congruence | exact IH].
    + rewrite bool_decide_eq_false_2 by exact Hk. cbn.
      destruct (decide (k = b)); [reflexivity | exact IH].
Qed.

Lemma exists_last_or_nil {A} (l : list A) :
  l = [] \/ exists l' x, l = l' ++ [x].
Proof.
  destruct l as [|a l]; [now left|]. right.
  destruct (exists_last (l := a :: l) ltac:(discriminate)) as (l' & x & E).
  now exists l', x.
Qed.

Lemma entry_list (A : list (str * node)) (k : str) (v : node)
    (B : list (str * node)) :
  A ++ (k, v) :: B = (A ++ [(k, v)]) ++ B.
Proof. now rewrite <- app_assoc. Qed.

Lemma assoc_set_entry (a : str) (v : node) (es : list (str * node)) :
  assoc a (set_entry a v es) = Some v.
Proof.
  unfold set_entry. destruct (existsb (has_name a) es) eqn:E.
  - induction es as [|[k w] es IH]; cbn in *; [discriminate|].
    unfold has_name in E at 1. unfold has_name at 1. cbn in *.
    destruct (decide (k = a)) as [->|Hk].
    + rewrite bool_decide_eq_true_2 by reflexivity. cbn.
      now destruct (decide (a = a)).
    + rewrite bool_decide_eq_false_2 in * by exact Hk. cbn in *.
      destruct (decide (k = a)); [congruence | now apply IH].
  - apply existsb_has_name in E. now apply assoc_middle.
Qed.

(** *** Well-formed trees *)

Lemma wf_Dir (es : list (str * node)) :
  wf (Dir es) = true <->
  NoDup (map fst es)
  /\ List.Forall (fun e => fst e <> [] /\ wf (snd e) = true) es.
Proof.
  cbn [wf]. rewrite andb_true_iff, bool_decide_eq_true.
  rewrite forallb_forall, List.Forall_forall.
  split; intros [Hnd H]; (split; [exact Hnd|]); intros e He;
    specialize (H e He).
  - apply andb_true_iff in H as [H1 H2]. apply negb_true_iff in H1.
    apply bool_decide_eq_false in H1. now split.
  - destruct H as [H1 H2]. rewrite H2, andb_true_r.
    apply negb_true_iff. now apply bool_decide_eq_false.
Qed.

Lemma wf_child (a : str) (v : node) (es : list (str * node)) :
  wf (Dir es) = true -> assoc a es = Some v -> a <> [] /\ wf v = true.
Proof.
  intros [_ H]%wf_Dir Ha%assoc_Some_elem.
  rewrite List.Forall_forall in H. apply list_elem_of_In in Ha.
  apply (H _ Ha).
Qed.

Lemma wf_upd (a : str) (w : node) (o : option node) (es : list (str * node)) :
  wf (Dir es) = true -> assoc a es = Some w ->
  (forall v, o = Some v -> wf v = true) ->
  wf (Dir (upd a o es)) = true.
Proof.
  intros Hwf Ha Ho. pose proof (wf_child _ _ _ Hwf Ha) as [Hne _].
  apply wf_Dir in Hwf as [Hnd HF].
  destruct (assoc_split a w es Hnd Ha) as (A & B & -> & HA & HB).
  rewrite upd_middle by assumption. apply wf_Dir.
  rewrite map_app in Hnd. cbn in Hnd.
  apply NoDup_app in Hnd as (HndA & HAB & HndB).
  apply NoDup_cons in HndB as [_ HndB].
  apply List.Forall_app in HF as [HFA HFB].
  apply List.Forall_cons_iff in HFB as [_ HFB].
  destruct o as [v|]; cbn [app].
  - split.
    + rewrite map_app. cbn. apply NoDup_app. repeat split; try assumption.
      now apply NoDup_cons.
    + apply List.Forall_app. split; [exact HFA|].
      constructor; [|exact HFB]. cbn. split; [exact Hne | now apply Ho].
  - split.
    + rewrite map_app. apply NoDup_app. repeat split; try assumption.
      intros x Hx Hx'. apply (HAB x Hx). apply elem_of_cons. now right.
    + apply List.Forall_app. now split.
Qed.

(** *** Looking up and replacing a subtree *)

Lemma lookup_Dir (a : str) (p : path) (fs n : node) :
  lookup (a :: p) fs = Some n ->
  exists es child,
    fs = Dir es /\ assoc a es = Some child /\ lookup p child = Some n.
Proof.
  cbn. destruct fs as [c|es]; [discriminate|].
  destruct (assoc a es) as [child|] eqn:E; [|discriminate].
  intros H. now exists es, child.
Qed.

Lemma lookup_app (top q : path) (fs : node) :
  lookup (top ++ q) fs =
  match lookup top fs with Some n => lookup q n | None => None end.
Proof.
  revert fs. induction top as [|a top IH]; intros fs; [reflexivity|].
  cbn. destruct fs as [c|es]; [reflexivity|].
  destruct (assoc a es); [apply IH | reflexivity].
Qed.

Lemma lookup_wf (top : path) (fs n : node) :
  wf fs = true -> lookup top fs = Some n -> wf n = true.
Proof.
  revert fs. induction top as [|a top IH]; intros fs Hwf H.
  - now injection H as <-.
  - apply lookup_Dir in H as (es & child & -> & Ha & H).
    apply (IH child); [|exact H]. now apply (wf_child a child es).
Qed.

Lemma put_single (a : str) (o : option node) (es : list (str * node)) :
  put [a] o (Dir es) = Dir (upd a o es).
Proof. reflexivity. Qed.

Lemma put_deeper (a b : str) (top : path) (o : option node)
    (es : list (str * node)) (child : node) :
  assoc a es = Some child ->
  put (a :: b :: top) o (Dir es)
  = Dir (upd a (Some (put (b :: top) o child)) es).
Proof. intros H. cbn [put]. now rewrite H. Qed.

Lemma lookup_cons (a : str) (p : path) (es : list (str * node)) :
  lookup (a :: p) (Dir es) =
  match assoc a es with Some child => lookup p child | None => None end.
Proof. reflexivity. Qed.

Lemma assoc_upd_Some (a : str) (v : node) (es : list (str * node)) :
  assoc a (upd a (Some v) es) = Some v.
Proof. apply assoc_set_entry. Qed.

Lemma put_same (top : path) (fs n : node) :
  wf fs = true -> lookup top fs = Some n -> put top (Some n) fs = fs.
Proof.
  revert fs. induction top as [|a top IH]; intros fs Hwf H.
  - now injection H as <-.
  - apply lookup_Dir in H as (es & child & -> & Ha & H).
    pose proof (wf_child _ _ _ Hwf Ha) as [_ Hc].
    apply wf_Dir in Hwf as [Hnd _].
    destruct top as [|b top].
    + injection H as <-. now rewrite put_single, upd_same.
    + rewrite (put_deeper _ _ _ _ _ _ Ha), (IH child Hc H).
      now rewrite upd_same.
Qed.

Lemma put_app (top q : path) (o : option node) (fs n : node) :
  q <> [] -> lookup top fs = Some n ->
  put (top ++ q) o fs = put top (Some (put q o n)) fs.
Proof.
  intros Hq. revert fs. induction top as [|a top IH]; intros fs H.
  - now injection H as <-.
  - apply lookup_Dir in H as (es & child & -> & Ha & H).
    destruct top as [|b top].
    + injection H as <-. destruct q as [|c q]; [congruence|].
      cbn [app]. now rewrite (put_deeper _ _ _ _ _ _ Ha), put_single.
    + cbn [app]. rewrite !(put_deeper _ _ _ _ _ _ Ha).
      now rewrite <- (IH child H).
Qed.

Lemma lookup_put (top : path) (o : option node) (fs n : node) :
  wf fs = true -> top <> [] -> lookup top fs = Some n ->
  lookup top (put top o fs) = o.
Proof.
  revert fs. induction top as [|a top IH]; intros fs Hwf Hne H; [congruence|].
  apply lookup_Dir in H as (es & child & -> & Ha & H).
  pose proof (wf_child _ _ _ Hwf Ha) as [_ Hc].
  apply wf_Dir in Hwf as [Hnd _].
  destruct top as [|b top].
  - rewrite put_single, lookup_cons, (assoc_upd a child o es Hnd Ha).
    now destruct o.
  - rewrite (put_deeper _ _ _ _ _ _ Ha), lookup_cons, assoc_upd_Some.
    now apply IH.
Qed.

Lemma put_put (top : path) (o : option node) (fs n n' : node) :
  wf fs = true -> top <> [] -> lookup top fs = Some n ->
  put top o (put top (Some n') fs) = put top o fs.
Proof.
  revert fs. induction top as [|a top IH]; intros fs Hwf Hne H; [congruence|].
  apply lookup_Dir in H as (es & child & -> & Ha & H).
  pose proof (wf_child _ _ _ Hwf Ha) as [_ Hc].
  apply wf_Dir in Hwf as [Hnd _].
  assert (Hs : is_Some (assoc a es)) by now exists child.
  destruct top as [|b top].
  - rewrite !put_single. f_equal. now apply upd_upd.
  - rewrite (put_deeper _ _ _ (Some n') _ _ Ha).
    rewrite (put_deeper _ _ _ o _ _ (assoc_upd_Some a _ es)).
    rewrite (IH child Hc) by (congruence || exact H).
    rewrite (put_deeper _ _ _ o _ _ Ha).
    f_equal. now apply upd_upd.
Qed.

Lemma wf_put (top : path) (o : option node) (fs n : node) :
  wf fs = true -> top <> [] -> lookup top fs = Some n ->
  (forall v, o = Some v -> wf v = true) ->
  wf (put top o fs) = true.
Proof.
  revert fs. induction top as [|a top IH]; intros fs Hwf Hne H Ho; [congruence|].
  apply lookup_Dir in H as (es & child & -> & Ha & H).
  pose proof (wf_child _ _ _ Hwf Ha) as [_ Hc].
  destruct top as [|b top].
  - rewrite put_single. now apply (wf_upd a child).
  - rewrite (put_deeper _ _ _ _ _ _ Ha).
    apply (wf_upd a child); [exact Hwf | exact Ha|].
    intros v [= <-]. now apply (IH child).
Qed.

(** What a file holds. *)
Definition file_at (fs : node) (p : path) : option contents :=
  match lookup p fs with Some (File c) => Some c | _ => None end.

(** Replacing a subtree leaves the files outside it as they are. *)
Lemma file_at_put_outside (top p : path) (o : option node) (fs n : node) :
  lookup top fs = Some n -> ~ top `prefix_of` p ->
  file_at (put top o fs) p = file_at fs p.
Proof.
  revert p fs. induction top as [|a top IH]; intros p fs H Hp.
  - exfalso. apply Hp. apply prefix_nil.
  - apply lookup_Dir in H as (es & child & -> & Ha & H).
    unfold file_at in *. destruct p as [|x p].
    + destruct top; [now rewrite put_single|].
      now rewrite (put_deeper _ _ _ _ _ _ Ha).
    + destruct (decide (a = x)) as [->|Hax].
      * assert (Hp' : ~ top `prefix_of` p).
        { intros [k ->]. apply Hp. now exists k. }
        destruct top as [|b top]; [exfalso; apply Hp', prefix_nil|].
        rewrite (put_deeper _ _ _ _ _ _ Ha), !lookup_cons.
        rewrite assoc_upd_Some, Ha.
        apply (IH p child H Hp').
      * destruct top as [|b top];
          [rewrite put_single | rewrite (put_deeper _ _ _ _ _ _ Ha)];
          rewrite !lookup_cons; now rewrite assoc_upd_ne.
Qed.

End FsFacts.

(** ** Empty-directory pruning *)

(** What pruning leaves of a tree: a directory goes when nothing is left
    in it; a file stays. *)
Fixpoint prune_tree (n : node) : option node :=
  match n with
  | File c => Some (File c)
  | Dir es =>
      match flat_map (fun e => match prune_tree (snd e) with
                               | Some v => [(fst e, v)]
                               | None => []
                               end) es with
      | [] => None
      | e :: es' => Some (Dir (e :: es'))
      end
  end.

Definition prune_entries (es : list (str * node)) : list (str * node) :=
  flat_map (fun e => match prune_tree (snd e) with
                     | Some v => [(fst e, v)]
                     | None => []
                     end) es.

(** The directories of the tree at [top] that pruning removes. *)
Fixpoint gone (top : path) (n : node) : gset path :=
  match n with
  | File _ => ∅
  | Dir es =>
      ⋃ (map (fun e => gone (top ++ [fst e]) (snd e)) es)
      ∪ (match prune_tree n with None => {[top]} | Some _ => ∅ end)
  end.

Definition gone_entries (top : path) (es : list (str * node)) : gset path :=
  ⋃ (map (fun e => gone (top ++ [fst e]) (snd e)) es).

(** A tree that holds no file, however deep. *)
Fixpoint holds_no_file (n : node) : bool :=
  match n with
  | File _ => false
  | Dir es => forallb (fun e => holds_no_file (snd e)) es
  end.

Module Pruning.
Import Fs FsFacts.

Lemma prune_tree_Dir (es : list (str * node)) :
  prune_tree (Dir es) =
  match prune_entries es with [] => None | _ :: _ => Some (Dir (prune_entries es)) end.
Proof. cbn [prune_tree]. fold (prune_entries es). now destruct (prune_entries es). Qed.

Lemma gone_Dir (top : path) (es : list (str * node)) :
  gone top (Dir es) =
  gone_entries top es
  ∪ (match prune_entries es with [] => {[top]} | _ :: _ => ∅ end).
Proof.
  cbn [gone]. fold (gone_entries top es). rewrite prune_tree_Dir.
  now destruct (prune_entries es).
Qed.

Lemma prune_entries_app (A B : list (str * node)) :
  prune_entries (A ++ B) = prune_entries A ++ prune_entries B.
Proof. apply List.flat_map_app. Qed.

Lemma prune_entries_cons (k : str) (v : node) (B : list (str * node)) :
  prune_entries ((k, v) :: B) =
  match prune_tree v with Some v' => [(k, v')] | None => [] end
  ++ prune_entries B.
Proof. reflexivity. Qed.

Lemma gone_entries_app (top : path) (A B : list (str * node)) :
  gone_entries top (A ++ B) = gone_entries top A ∪ gone_entries top B.
Proof.
  unfold gone_entries. rewrite map_app. apply leibniz_equiv, union_list_app.
Qed.

Lemma gone_entries_cons (top : path) (k : str) (v : node)
    (B : list (str * node)) :
  gone_entries top ((k, v) :: B) = gone (top ++ [k]) v ∪ gone_entries top B.
Proof. reflexivity. Qed.

Lemma elem_of_gone_entries (top p : path) (es : list (str * node)) :
  p ∈ gone_entries top es <->
  exists k v, (k, v) ∈ es /\ p ∈ gone (top ++ [k]) v.
Proof.
  unfold gone_entries. rewrite elem_of_union_list. split.
  - intros (X & HX & Hp). apply list_elem_of_fmap in HX as ([k v] & -> & He).
    now exists k, v.
  - intros (k & v & He & Hp). exists (gone (top ++ [k]) v). split; [|exact Hp].
    apply list_elem_of_fmap. now exists (k, v).
Qed.

(** Names of pruned entries are names of the entries. *)
Lemma names_prune_entries (x : str) (es : list (str * node)) :
  x ∈ map fst (prune_entries es) -> x ∈ map fst es.
Proof.
  induction es as [|[k v] es IH]; [easy|].
  rewrite prune_entries_cons, map_app, elem_of_app. cbn [map fst].
  rewrite elem_of_cons. intros [H|H]; [|right; now apply IH].
  destruct (prune_tree v); cbn in H.
  - apply list_elem_of_singleton in H. now left.
  - now apply elem_of_nil in H.
Qed.

Lemma NoDup_prune_entries (es : list (str * node)) :
  NoDup (map fst es) -> NoDup (map fst (prune_entries es)).
Proof.
  induction es as [|[k v] es IH]; [easy|]. cbn [map fst].
  rewrite NoDup_cons. intros [Hk Hnd].
  rewrite prune_entries_cons, map_app. destruct (prune_tree v); cbn.
  - apply NoDup_cons. split; [|now apply IH].
    intros H. now apply Hk, names_prune_entries.
  - now apply IH.
Qed.

Lemma prune_tree_wf (n n' : node) :
  wf n = true -> prune_tree n = Some n' -> wf n' = true.
Proof.
  revert n'. induction n as [c|es IH] using node_rect'; intros n' Hwf H.
  - now injection H as <-.
  - rewrite prune_tree_Dir in H.
    destruct (prune_entries es) as [|e es'] eqn:E; [discriminate|].
    injection H as <-. rewrite <- E. clear E e es'.
    apply wf_Dir in Hwf as [Hnd HF]. apply wf_Dir.
    split; [now apply NoDup_prune_entries|].
    clear Hnd. induction es as [|[k v] es IHes]; [constructor|].
    apply List.Forall_cons_iff in HF as [[Hk Hv] HF].
    apply List.Forall_cons_iff in IH as [IHv IH].
    rewrite prune_entries_cons. apply List.Forall_app. split; [|now apply IHes].
    cbn in IHv. destruct (prune_tree v) as [v'|]; constructor; [|constructor].
    cbn. split; [exact Hk | now apply IHv].
Qed.

Lemma wf_prune_entries_app (A B : list (str * node)) :
  wf (Dir (A ++ B)) = true -> wf (Dir (prune_entries A ++ B)) = true.
Proof.
  rewrite !wf_Dir, !map_app. intros [Hnd HF].
  apply NoDup_app in Hnd as (HA & HAB & HB).
  apply List.Forall_app in HF as [HFA HFB]. split.
  - apply NoDup_app. repeat split; [now apply NoDup_prune_entries| |exact HB].
    intros x Hx. now apply HAB, names_prune_entries.
  - apply List.Forall_app. split; [|exact HFB].
    assert (W : wf (Dir A) = true).
    { apply wf_Dir. now split. }
    destruct (prune_entries A) as [|e A'] eqn:E; [constructor|].
    assert (P : prune_tree (Dir A) = Some (Dir (prune_entries A)))
      by (rewrite prune_tree_Dir; now rewrite E).
    apply (prune_tree_wf _ _ W) in P. rewrite E in P.
    now apply wf_Dir in P as [_ P].
Qed.

Lemma not_prefix_snoc (top : path) (k : str) : ~ (top ++ [k]) `prefix_of` top.
Proof.
  intros H%prefix_length. rewrite length_app in H. cbn in H. lia.
Qed.

Lemma prefix_snoc_inj (top p : path) (k k' : str) :
  (top ++ [k]) `prefix_of` p -> (top ++ [k']) `prefix_of` p -> k = k'.
Proof.
  intros [x ->] [y H]. rewrite <- !app_assoc in H.
  apply app_inv_head in H. now injection H.
Qed.

Lemma gone_prefix (n : node) (top p : path) :
  p ∈ gone top n -> top `prefix_of` p.
Proof.
  revert top p. induction n as [c|es IH] using node_rect'; intros top p H.
  - now apply elem_of_empty in H.
  - rewrite gone_Dir in H. apply elem_of_union in H as [H|H].
    + apply elem_of_gone_entries in H as (k & v & He & Hp).
      rewrite List.Forall_forall in IH. apply list_elem_of_In in He.
      apply (IH _ He) in Hp. cbn in Hp.
      destruct Hp as [x ->]. exists ([k] ++ x). now rewrite <- app_assoc.
    + destruct (prune_entries es).
      * apply elem_of_singleton in H as ->. reflexivity.
      * now apply elem_of_empty in H.
Qed.

(** The root of a tree is removed exactly when nothing of a directory is
    left. *)
Lemma gone_root (n : node) (top : path) :
  top ∈ gone top n <-> is_dir n = true /\ prune_tree n = None.
Proof.
  destruct n as [c|es].
  - cbn. split; [intros H; now apply elem_of_empty in H | now intros [? _]].
  - rewrite gone_Dir, prune_tree_Dir, elem_of_union. split.
    + intros [H|H].
      * apply elem_of_gone_entries in H as (k & v & _ & Hp).
        apply gone_prefix in Hp. now apply not_prefix_snoc in Hp.
      * destruct (prune_entries es); [easy | now apply elem_of_empty in H].
    + intros [_ H]. right.
      destruct (prune_entries es); [now apply elem_of_singleton | discriminate].
Qed.

Lemma prune_entries_nil (es : list (str * node)) :
  prune_entries es = [] <->
  forall k v, (k, v) ∈ es -> prune_tree v = None.
Proof.
  induction es as [|[k v] es IH].
  - split; [intros _ k v H; now apply elem_of_nil in H | reflexivity].
  - rewrite prune_entries_cons. split.
    + intros H k' v' He. apply app_eq_nil in H as [Hv Hes].
      apply elem_of_cons in He as [E|He].
      * injection E as -> ->. now destruct (prune_tree v).
      * now apply (proj1 IH Hes k').
    + intros H. rewrite (proj2 IH).
      * rewrite (H k v); [reflexivity | apply elem_of_cons; now left].
      * intros k' v' He. apply (H k'). apply elem_of_cons. now right.
Qed.

Lemma elem_of_filenames (f : str) (es : list (str * node)) :
  f ∈ filenames es <-> exists c, (f, File c) ∈ es.
Proof.
  unfold filenames. induction es as [|[k v] es IH]; cbn.
  - split; [intros H; now apply elem_of_nil in H|].
    intros [c H]. now apply elem_of_nil in H.
  - destruct v as [c|ces]; cbn.
    + rewrite elem_of_cons, IH. split.
      * intros [->|[c' H]]; [exists c; apply elem_of_cons; now left|].
        exists c'. apply elem_of_cons. now right.
      * intros [c' H]. apply elem_of_cons in H as [E|H];
          [left; congruence | right; now exists c'].
    + rewrite IH. split; intros [c' H]; exists c'.
      * apply elem_of_cons. now right.
      * apply elem_of_cons in H as [H|H]; [discriminate | exact H].
Qed.

Lemma elem_of_dirnames (d : str) (es : list (str * node)) :
  d ∈ dirnames es <-> exists ces, (d, Dir ces) ∈ es.
Proof.
  unfold dirnames. induction es as [|[k v] es IH]; cbn.
  - split; [intros H; now apply elem_of_nil in H|].
    intros [c H]. now apply elem_of_nil in H.
  - destruct v as [c|ces]; cbn.
    + rewrite IH. split; intros [c' H]; exists c'.
      * apply elem_of_cons. now right.
      * apply elem_of_cons in H as [H|H]; [discriminate | exact H].
    + rewrite elem_of_cons, IH. split.
      * intros [->|[c' H]]; [exists ces; apply elem_of_cons; now left|].
        exists c'. apply elem_of_cons. now right.
      * intros [c' H]. apply elem_of_cons in H as [E|H];
          [left; congruence | right; now exists c'].
Qed.

Lemma existsb_false {A} (f : A -> bool) (l : list A) :
  existsb f l = false <-> forall x, x ∈ l -> f x = false.
Proof.
  induction l as [|y l IH]; cbn.
  - split; [intros _ x H; now apply elem_of_nil in H | reflexivity].
  - rewrite orb_false_iff, IH. split.
    + intros [Hy Hl] x [->|Hx]%elem_of_cons; auto.
    + intros H. split; [apply H, elem_of_cons; now left|].
      intros x Hx. apply H, elem_of_cons. now right.
Qed.

(** Two entries of a directory with one name are one entry. *)
Lemma NoDup_entry (k : str) (v v' : node) (es : list (str * node)) :
  NoDup (map fst es) -> (k, v) ∈ es -> (k, v') ∈ es -> v = v'.
Proof.
  induction es as [|[x w] es IH]; [intros _ H; now apply elem_of_nil in H|].
  cbn [map fst]. rewrite NoDup_cons. intros [Hx Hnd] H H'.
  apply elem_of_cons in H as [E|H];
    apply elem_of_cons in H' as [E'|H'].
  - congruence.
  - exfalso. apply Hx. apply list_elem_of_fmap. exists (k, v').
    split; [cbn; congruence | exact H'].
  - exfalso. apply Hx. apply list_elem_of_fmap. exists (k, v).
    split; [cbn; congruence | exact H].
  - now apply IH.
Qed.

(** The test of line 267, once the subdirectories have been walked,
    holds exactly when pruning leaves nothing of the directory. *)
Lemma test_removes (top : path) (es : list (str * node)) (deleted : gset path) :
  wf (Dir es) = true ->
  (forall p, p ∈ deleted -> ~ top `prefix_of` p) ->
  negb (existsb (fun f => negb (bool_decide (f = []))) (filenames es))
  && negb (existsb (fun subdir =>
                      negb (bool_decide
                              (top ++ [subdir] ∈ deleted ∪ gone_entries top es)))
             (dirnames es))
  = match prune_entries es with [] => true | _ :: _ => false end.
Proof.
  intros [Hnd HF]%wf_Dir Hdel. rewrite List.Forall_forall in HF.
  apply eq_true_iff_eq.
  rewrite andb_true_iff, !negb_true_iff, !existsb_false.
  transitivity (prune_entries es = []);
    [|destruct (prune_entries es); split; congruence].
  rewrite prune_entries_nil. split.
  - intros [Hfiles Hdirs] k v He. destruct v as [c|ces].
    + exfalso. specialize (Hfiles k (proj2 (elem_of_filenames k es) (ex_intro _ c He))).
      apply negb_false_iff, bool_decide_eq_true in Hfiles.
      apply list_elem_of_In in He. now apply (HF _ He).
    + specialize (Hdirs k (proj2 (elem_of_dirnames k es) (ex_intro _ ces He))).
      apply negb_false_iff, bool_decide_eq_true in Hdirs.
      apply elem_of_union in Hdirs as [Hd|Hg].
      * exfalso. apply (Hdel _ Hd). now exists [k].
      * apply elem_of_gone_entries in Hg as (k' & v' & He' & Hp).
        pose proof (gone_prefix _ _ _ Hp) as Hpre.
        assert (k' = k) as ->
          by (apply (prefix_snoc_inj top (top ++ [k])); [exact Hpre | reflexivity]).
        rewrite (NoDup_entry k v' (Dir ces) es Hnd He' He) in Hp.
        now apply gone_root in Hp.
  - intros H. split.
    + intros f [c He]%elem_of_filenames. now apply H in He.
    + intros d [ces He]%elem_of_dirnames.
      apply negb_false_iff, bool_decide_eq_true, elem_of_union. right.
      apply elem_of_gone_entries. exists d, (Dir ces). split; [exact He|].
      apply gone_root. split; [reflexivity | now apply (H d)].
Qed.

(** *** The loop over the walk *)

Lemma prune_loop_app (l1 l2 : list (path * list str * list str))
    (d : gset path) (fs : node) :
  prune_loop (l1 ++ l2) d fs =
  match prune_loop l1 d fs with
  | (fs1, ev1, Ok d1) =>
      match prune_loop l2 d1 fs1 with (fs2, ev2, r) => (fs2, ev1 ++ ev2, r) end
  | (fs1, ev1, Raise e) => (fs1, ev1, Raise e)
  end.
Proof.
  revert d fs. induction l1 as [|x l1 IH]; intros d fs.
  - cbn. now destruct (prune_loop l2 d fs) as [[fs2 ev2] r].
  - cbn [app prune_loop]. unfold mbind, M_bind, bind.
    destruct (prune_dir d x fs) as [[fs1 ev1] [d1|e]]; [|reflexivity].
    rewrite IH.
    destruct (prune_loop l1 d1 fs1) as [[fs2 ev2] [d2|e]]; [|reflexivity].
    destruct (prune_loop l2 d2 fs2) as [[fs3 ev3] r].
    now rewrite app_assoc.
Qed.

Lemma rmdir_empty (top : path) (fs : node) :
  top <> [] -> lookup top fs = Some (Dir []) ->
  rmdir top fs = Ok (put top None fs).
Proof.
  intros Htop H. unfold rmdir. destruct top; [congruence|]. now rewrite H.
Qed.

(** The main statement, for the tree [n] found at [top]. *)
Definition prunes (n : node) : Prop :=
  forall (top : path) (fs : node) (deleted : gset path),
    wf fs = true -> top <> [] -> lookup top fs = Some n ->
    is_dir n = true ->
    (forall p, p ∈ deleted -> ~ top `prefix_of` p) ->
    prune_loop (walk_bottom_up_from top n) deleted fs
    = (put top (prune_tree n) fs, [], Ok (deleted ∪ gone top n)).

(** The subdirectories of a directory, one after the other: [done] have
    been walked, [todo] are still to walk. *)
Lemma prune_children (top : path) (fs : node) (deleted : gset path)
    (es : list (str * node)) :
  wf fs = true -> top <> [] -> lookup top fs = Some (Dir es) ->
  (forall p, p ∈ deleted -> ~ top `prefix_of` p) ->
  List.Forall (fun e => prunes (snd e)) es ->
  forall todo done, es = done ++ todo ->
    prune_loop
      (flat_map (fun e => walk_bottom_up_from (top ++ [fst e]) (snd e)) todo)
      (deleted ∪ gone_entries top done)
      (put top (Some (Dir (prune_entries done ++ todo))) fs)
    = (put top (Some (Dir (prune_entries done ++ prune_entries todo))) fs,
       [], Ok (deleted ∪ gone_entries top es)).
Proof.
  intros Hwf Htop Hlook Hdel IH.
  pose proof (lookup_wf _ _ _ Hwf Hlook) as Hes.
  induction todo as [|[k v] todo IHtodo]; intros done E.
  - rewrite app_nil_r in E. subst done. cbn. now rewrite !app_nil_r.
  - assert (W : wf (Dir (prune_entries done ++ (k, v) :: todo)) = true)
      by (apply wf_prune_entries_app; now rewrite <- E).
    assert (Hnd : NoDup (map fst es)) by now apply wf_Dir in Hes.
    rewrite E, map_app in Hnd. cbn in Hnd.
    apply NoDup_app in Hnd as (_ & Hdk & [Hkt _]%NoDup_cons).
    assert (Hkd : k ∉ map fst done).
    { intros H. apply (Hdk k H), elem_of_cons. now left. }
    assert (Hkp : k ∉ map fst (prune_entries done)).
    { intros H. now apply Hkd, names_prune_entries. }
    set (fs_c := put top (Some (Dir (prune_entries done ++ (k, v) :: todo))) fs).
    assert (Wc : wf fs_c = true).
    { apply (wf_put top _ fs (Dir es)); try assumption. now intros ? [= <-]. }
    assert (L1 : lookup top fs_c
                 = Some (Dir (prune_entries done ++ (k, v) :: todo)))
      by now apply (lookup_put top _ fs (Dir es)).
    specialize (IHtodo (done ++ [(k, v)])).
    rewrite <- entry_list in IHtodo. specialize (IHtodo E).
    rewrite prune_entries_app, prune_entries_cons in IHtodo.
    rewrite gone_entries_app, gone_entries_cons in IHtodo.
    cbn [prune_entries flat_map] in IHtodo. rewrite !app_nil_r in IHtodo.
    assert (Hset : deleted ∪ (gone_entries top done
                              ∪ (gone (top ++ [k]) v ∪ gone_entries top []))
                   = deleted ∪ gone_entries top done ∪ gone (top ++ [k]) v).
    { unfold gone_entries at 2. cbn. set_solver. }
    rewrite Hset in IHtodo. clear Hset.
    cbn [flat_map fst snd]. rewrite prune_loop_app.
    destruct v as [c|ces].
    + cbn [walk_bottom_up_from prune_loop]. unfold ret at 1.
      cbn [prune_tree] in IHtodo. cbn [gone] in IHtodo.
      rewrite <- !app_assoc in IHtodo. cbn [app] in IHtodo.
      replace (deleted ∪ gone_entries top done ∪ ∅)
        with (deleted ∪ gone_entries top done) in IHtodo by set_solver.
      fold fs_c in IHtodo. rewrite IHtodo.
      rewrite prune_entries_cons. reflexivity.
    + assert (Hv : prunes (Dir ces)).
      { rewrite List.Forall_forall in IH.
        apply (IH (k, Dir ces)). rewrite E. apply in_elt. }
      rewrite (Hv (top ++ [k]) fs_c (deleted ∪ gone_entries top done)); cycle 1.
      * exact Wc.
      * now destruct top.
      * rewrite lookup_app, L1, lookup_cons.
        now rewrite (assoc_middle k (Dir ces) _ todo Hkp).
      * reflexivity.
      * intros p [Hp|Hp]%elem_of_union Hpre.
        -- apply (Hdel p Hp). destruct Hpre as [x ->].
           exists ([k] ++ x). now rewrite <- app_assoc.
        -- apply elem_of_gone_entries in Hp as (k' & v' & He' & Hg).
           apply gone_prefix in Hg.
           pose proof (prefix_snoc_inj _ _ _ _ Hpre Hg) as ->.
           apply Hkd, list_elem_of_fmap. now exists (k', v').
      * assert (Hput : put (top ++ [k]) (prune_tree (Dir ces)) fs_c
                       = put top
                           (Some (Dir (prune_entries done
                                       ++ match prune_tree (Dir ces) with
                                          | Some v' => [(k, v')]
                                          | None => []
                                          end ++ todo))) fs).
        { rewrite (put_app top [k] _ fs_c _ ltac:(discriminate) L1).
          rewrite put_single, (upd_middle k _ _ _ _ Hkp Hkt).
          unfold fs_c. now apply (put_put top _ fs (Dir es)). }
        rewrite Hput. rewrite <- app_assoc in IHtodo. rewrite IHtodo.
        rewrite prune_entries_cons, <- app_assoc. reflexivity.
Qed.

(** The loop over the bottom-up walk of a tree leaves the pruned tree,
    with the removed directories in [deleted]; no step fails. *)
Lemma prune_loop_walk (n : node) : prunes n.
Proof.
  induction n as [c|es IH] using node_rect';
    intros top fs deleted Hwf Htop Hlook Hdir Hdel; [discriminate|].
  pose proof (lookup_wf _ _ _ Hwf Hlook) as Hes.
  pose proof (prune_children top fs deleted es Hwf Htop Hlook Hdel IH es []
                eq_refl) as Hch.
  cbn [prune_entries flat_map app] in Hch. fold (prune_entries es) in Hch.
  rewrite (put_same top fs _ Hwf Hlook) in Hch.
  replace (deleted ∪ gone_entries top []) with deleted in Hch
    by (unfold gone_entries; cbn; set_solver).
  cbn [walk_bottom_up_from]. rewrite prune_loop_app, Hch.
  cbn [prune_loop]. unfold mbind, M_bind, bind, prune_dir. cbn [fst snd].
  rewrite (test_removes top es deleted Hes Hdel).
  rewrite gone_Dir, prune_tree_Dir.
  assert (L : lookup top (put top (Some (Dir (prune_entries es))) fs)
              = Some (Dir (prune_entries es)))
    by now apply (lookup_put top _ fs (Dir es)).
  destruct (prune_entries es) as [|e es'] eqn:E.
  - unfold mbind, M_bind, bind, fs_op. rewrite (rmdir_empty _ _ Htop L).
    rewrite (put_put _ None fs (Dir es)) by assumption.
    cbn. f_equal. f_equal. set_solver.
  - cbn. f_equal. f_equal. set_solver.
Qed.

(** *** What the set [deleted] holds *)

Lemma prune_empty_dirs_run (fs n : node) (base_dir : path) :
  wf fs = true -> base_dir <> [] -> lookup base_dir fs = Some n ->
  is_dir n = true ->
  prune_empty_dirs base_dir fs
  = (put base_dir (prune_tree n) fs, [], Ok (gone base_dir n)).
Proof.
  intros Hwf Hne Hlook Hdir.
  unfold prune_empty_dirs, mbind, M_bind, bind, get, walk_bottom_up.
  rewrite Hlook.
  rewrite (prune_loop_walk n base_dir fs ∅ Hwf Hne Hlook Hdir)
    by (intros p Hp; now apply elem_of_empty in Hp).
  cbn. f_equal. f_equal. set_solver.
Qed.

Lemma walk_prefix (n : node) (top cur : path) (subdirs files : list str) :
  (cur, subdirs, files) ∈ walk_bottom_up_from top n -> top `prefix_of` cur.
Proof.
  revert top. induction n as [c|es IH] using node_rect'; intros top H.
  - now apply elem_of_nil in H.
  - cbn [walk_bottom_up_from] in H. apply elem_of_app in H as [H|H].
    + apply list_elem_of_In, in_flat_map in H as ([k v] & He & H).
      rewrite List.Forall_forall in IH.
      apply list_elem_of_In in H. apply (IH _ He) in H as [x ->].
      exists ([k] ++ x). cbn [fst]. now rewrite <- app_assoc.
    + apply list_elem_of_singleton in H. injection H as -> _ _. reflexivity.
Qed.

(** Below a subdirectory, what the directory loses is what the
    subdirectory loses. *)
Lemma gone_child (top p : path) (k : str) (v : node) (es : list (str * node)) :
  NoDup (map fst es) -> (k, v) ∈ es -> (top ++ [k]) `prefix_of` p ->
  p ∈ gone top (Dir es) <-> p ∈ gone (top ++ [k]) v.
Proof.
  intros Hnd He Hpre. rewrite gone_Dir, elem_of_union, elem_of_gone_entries.
  split.
  - intros [(k' & v' & He' & Hp)|Hp].
    + pose proof (prefix_snoc_inj _ _ _ _ (gone_prefix _ _ _ Hp) Hpre) as ->.
      now rewrite (NoDup_entry k v v' es Hnd He He').
    + exfalso. destruct (prune_entries es); [|now apply elem_of_empty in Hp].
      apply elem_of_singleton in Hp as ->. now apply not_prefix_snoc in Hpre.
  - intros Hp. left. now exists k, v.
Qed.

(** Nothing is left of a directory exactly when it lists no file and
    each of its subdirectories is removed. *)
Lemma removed_iff (top : path) (es : list (str * node)) :
  wf (Dir es) = true ->
  top ∈ gone top (Dir es) <->
  filenames es = []
  /\ forall subdir, subdir ∈ dirnames es -> top ++ [subdir] ∈ gone top (Dir es).
Proof.
  intros [Hnd _]%wf_Dir.
  rewrite gone_root, prune_tree_Dir.
  transitivity (prune_entries es = []);
    [destruct (prune_entries es); cbn; intuition congruence|].
  rewrite prune_entries_nil. split.
  - intros H. split.
    + destruct (filenames es) as [|f fs'] eqn:E; [reflexivity|].
      assert (Hf : f ∈ filenames es) by (rewrite E; apply elem_of_cons; now left).
      apply elem_of_filenames in Hf as [c Hc]. now apply H in Hc.
    + intros d [ces He]%elem_of_dirnames.
      apply (gone_child top _ d (Dir ces) es Hnd He); [reflexivity|].
      apply gone_root. split; [reflexivity | now apply (H d)].
  - intros [Hfiles Hdirs] k v He. destruct v as [c|ces].
    + assert (Hf : k ∈ filenames es) by (apply elem_of_filenames; now exists c).
      rewrite Hfiles in Hf. now apply elem_of_nil in Hf.
    + assert (Hd : k ∈ dirnames es) by (apply elem_of_dirnames; now exists ces).
      apply Hdirs in Hd.
      apply (gone_child top _ k (Dir ces) es Hnd He) in Hd; [|reflexivity].
      now apply gone_root in Hd.
Qed.

(** The rule of the loop, read on the set it ends with: for each
    directory the walk visits. *)
Lemma gone_walk (n : node) (top cur : path) (subdirs files : list str) :
  wf n = true ->
  (cur, subdirs, files) ∈ walk_bottom_up_from top n ->
  cur ∈ gone top n <->
  files = []
  /\ forall subdir, subdir ∈ subdirs -> cur ++ [subdir] ∈ gone top n.
Proof.
  revert top. induction n as [c|es IH] using node_rect'; intros top Hwf H.
  - now apply elem_of_nil in H.
  - cbn [walk_bottom_up_from] in H. apply elem_of_app in H as [H|H].
    + apply list_elem_of_In, in_flat_map in H as ([k v] & He & H).
      apply list_elem_of_In in H. cbn [fst snd] in H.
      pose proof (walk_prefix _ _ _ _ _ H) as Hpre.
      pose proof Hwf as [Hnd HF]%wf_Dir.
      rewrite List.Forall_forall in IH, HF.
      specialize (IH _ He (top ++ [k]) (proj2 (HF _ He)) H). cbn [snd] in IH.
      apply list_elem_of_In in He.
      rewrite (gone_child top cur k v es Hnd He Hpre), IH.
      split; intros [Hf Hs]; (split; [exact Hf|]); intros sd Hsd;
        specialize (Hs sd Hsd);
        apply (gone_child top (cur ++ [sd]) k v es Hnd He);
        try (now apply prefix_app_r); exact Hs.
    + apply list_elem_of_singleton in H. injection H as -> -> ->.
      now apply removed_iff.
Qed.

Lemma prune_tree_None (n : node) :
  prune_tree n = None <-> holds_no_file n = true.
Proof.
  induction n as [c|es IH] using node_rect'; [easy|].
  rewrite prune_tree_Dir.
  transitivity (prune_entries es = []);
    [destruct (prune_entries es); intuition congruence|].
  cbn [holds_no_file]. rewrite prune_entries_nil, forallb_forall.
  rewrite List.Forall_forall in IH. split.
  - intros H [k v] He. apply (IH _ He). apply (H k). now apply list_elem_of_In.
  - intros H k v He%list_elem_of_In. apply (IH _ He). now apply (H (k, v)).
Qed.

(** *** The order of the walk *)

(** An element of a list of lists put end to end is an element of one of
    them. *)
Lemma flat_map_split {A B} (f : A -> list B) (l : list A) (l1 l2 : list B)
    (e : B) :
  flat_map f l = l1 ++ e :: l2 ->
  exists a m1 m2 done, In a l /\ f a = m1 ++ e :: m2 /\ l1 = done ++ m1.
Proof.
  revert l1. induction l as [|a l IH]; intros l1 H.
  - now destruct l1.
  - cbn [flat_map] in H. apply List.app_eq_app in H as [m [[H1 H2]|[H1 H2]]].
    + destruct m as [|x m].
      * rewrite app_nil_r in H1. cbn in H2.
        destruct (IH [] (eq_sym H2)) as (a' & m1 & m2 & done & Ha & Hf & Hl).
        exists a', m1, m2, (l1 ++ done). repeat split; [now right | exact Hf|].
        rewrite <- app_assoc, <- Hl. now rewrite app_nil_r.
      * injection H2 as -> _. exists a, l1, m, [].
        repeat split; [now left | exact H1].
    + destruct (IH m H2) as (a' & m1 & m2 & done & Ha & Hf & Hl).
      exists a', m1, m2, (f a ++ done). repeat split; [now right | exact Hf|].
      now rewrite H1, Hl, app_assoc.
Qed.

Lemma walk_ends_with_top (top : path) (es : list (str * node)) :
  (top, dirnames es, filenames es) ∈ walk_bottom_up_from top (Dir es).
Proof. cbn [walk_bottom_up_from]. apply elem_of_app. right. now left. Qed.

(** Bottom-up: where the walk visits a directory, it has visited each of
    its subdirectories before. *)
Lemma walk_children_first (n : node) (top : path)
    (l1 l2 : list (path * list str * list str))
    (cur : path) (subdirs files : list str) (subdir : str) :
  walk_bottom_up_from top n = l1 ++ (cur, subdirs, files) :: l2 ->
  subdir ∈ subdirs ->
  exists e, e ∈ l1 /\ fst (fst e) = cur ++ [subdir].
Proof.
  revert top l1 l2. induction n as [c|es IH] using node_rect';
    intros top l1 l2 H Hsd.
  - now destruct l1.
  - cbn [walk_bottom_up_from] in H.
    destruct (exists_last_or_nil l2) as [->|(l2' & x & ->)].
    + apply app_inj_tail in H as [<- [= <- <- <-]].
      apply elem_of_dirnames in Hsd as [ces He].
      exists (top ++ [subdir], dirnames ces, filenames ces). split; [|reflexivity].
      apply list_elem_of_In, in_flat_map. exists (subdir, Dir ces).
      split; [now apply list_elem_of_In|].
      apply list_elem_of_In, walk_ends_with_top.
    + rewrite app_comm_cons, app_assoc in H.
      apply app_inj_tail in H as [H _].
      apply flat_map_split in H as ([k v] & m1 & m2 & done & Ha & Hf & ->).
      rewrite List.Forall_forall in IH.
      destruct (IH _ Ha _ _ _ Hf Hsd) as (e & He & Hroot).
      exists e. split; [|exact Hroot]. apply elem_of_app. now right.
Qed.

(** *** What is left of the tree *)

Lemma elem_assoc (k : str) (v : node) (es : list (str * node)) :
  NoDup (map fst es) -> (k, v) ∈ es -> assoc k es = Some v.
Proof.
  intros Hnd He. destruct (assoc k es) as [v'|] eqn:E.
  - apply assoc_Some_elem in E. now rewrite (NoDup_entry k v v' es Hnd He E).
  - apply assoc_None in E. exfalso. apply E, list_elem_of_fmap. now exists (k, v).
Qed.

Lemma assoc_prune_entries (k : str) (v : node) (es : list (str * node)) :
  NoDup (map fst es) -> assoc k es = Some v ->
  assoc k (prune_entries es) = prune_tree v.
Proof.
  intros Hnd H. destruct (assoc_split k v es Hnd H) as (A & B & -> & HA & HB).
  rewrite prune_entries_app, prune_entries_cons, assoc_app.
  assert (HA' : assoc k (prune_entries A) = None).
  { apply assoc_None. intros Hk. now apply HA, names_prune_entries. }
  rewrite HA'. destruct (prune_tree v) as [v'|]; cbn.
  - now destruct (decide (k = k)).
  - apply assoc_None. intros Hk. now apply HB, names_prune_entries.
Qed.

(** The node at [q] in what pruning leaves of [n]. *)
Definition pruned_lookup (q : path) (n : node) : option node :=
  match prune_tree n with Some n' => lookup q n' | None => None end.

Lemma pruned_lookup_cons (k : str) (q : path) (v : node)
    (es : list (str * node)) :
  NoDup (map fst es) -> assoc k es = Some v ->
  pruned_lookup (k :: q) (Dir es) = pruned_lookup q v.
Proof.
  intros Hnd H. unfold pruned_lookup. rewrite prune_tree_Dir.
  pose proof (assoc_prune_entries k v es Hnd H) as Hp.
  destruct (prune_entries es) as [|e es'] eqn:E.
  - cbn in Hp. now rewrite <- Hp.
  - rewrite lookup_cons, Hp. now destruct (prune_tree v).
Qed.

(** A directory of the tree is in the set exactly when it is no longer
    in the tree. *)
Lemma gone_pruned_lookup (q top : path) (n : node) (ces : list (str * node)) :
  wf n = true -> lookup q n = Some (Dir ces) ->
  top ++ q ∈ gone top n <-> pruned_lookup q n = None.
Proof.
  revert top n. induction q as [|k q IH]; intros top n Hwf H.
  - injection H as ->. rewrite app_nil_r, gone_root. unfold pruned_lookup.
    destruct (prune_tree (Dir ces)); cbn; intuition congruence.
  - apply lookup_Dir in H as (es & v & -> & Ha & H).
    pose proof (wf_child _ _ _ Hwf Ha) as [_ Hv].
    apply wf_Dir in Hwf as [Hnd _].
    rewrite (pruned_lookup_cons k q v es Hnd Ha).
    rewrite <- (IH (top ++ [k]) v Hv H), <- app_assoc.
    apply gone_child; [exact Hnd | now apply assoc_Some_elem|].
    exists q. now rewrite <- app_assoc.
Qed.

Lemma walk_lookup (n : node) (top cur : path) (subdirs files : list str) :
  wf n = true ->
  (cur, subdirs, files) ∈ walk_bottom_up_from top n ->
  exists q ces, cur = top ++ q /\ lookup q n = Some (Dir ces).
Proof.
  revert top. induction n as [c|es IH] using node_rect'; intros top Hwf H.
  - now apply elem_of_nil in H.
  - cbn [walk_bottom_up_from] in H. apply elem_of_app in H as [H|H].
    + apply list_elem_of_In, in_flat_map in H as ([k v] & He & H).
      apply list_elem_of_In in H. cbn [fst snd] in H.
      pose proof Hwf as [Hnd HF]%wf_Dir.
      rewrite List.Forall_forall in IH, HF.
      destruct (IH _ He (top ++ [k]) (proj2 (HF _ He)) H) as (q & ces & -> & Hq).
      exists (k :: q), ces. split; [now rewrite <- app_assoc|].
      rewrite lookup_cons.
      now rewrite (elem_assoc k v es Hnd (proj2 (list_elem_of_In _ _) He)).
    + apply list_elem_of_singleton in H. injection H as -> _ _.
      exists [], es. now rewrite app_nil_r.
Qed.

Lemma lookup_pruned (fs n : node) (base_dir q : path) :
  wf fs = true -> base_dir <> [] -> lookup base_dir fs = Some n ->
  lookup (base_dir ++ q) (put base_dir (prune_tree n) fs) = pruned_lookup q n.
Proof.
  intros Hwf Hne Hlook.
  rewrite lookup_app, (lookup_put base_dir _ fs n Hwf Hne Hlook).
  reflexivity.
Qed.

(** The tree of the example: [d1] holds the empty directory [d2] and
    the file [file.txt]; the base directory is [repo]. *)
Definition d1_tree : node :=
  Dir [(lit "repo", Dir [(lit "d1", Dir [
    (lit "d2", Dir []);
    (lit "file.txt", File (Text (lit "kept")))])])].

Definition d1_pruned : node :=
  Dir [(lit "repo", Dir [(lit "d1", Dir [
    (lit "file.txt", File (Text (lit "kept")))])])].

(** C7: the walk visits a directory after each of its subdirectories;
    the pruning loop ends without an error, and for every directory that
    the walk visits: it is in the set of deleted directories if and only
    if it lists no file and each of its subdirectories is in that set;
    and it is in that set if and only if it is no longer in the file
    tree.  For the tree with [d1/d2] empty and [d1/file.txt], [d2] is
    removed and [d1] is kept. *)
Theorem prune_removes_iff :
  (forall (fs n : node) (base_dir : path),
     wf fs = true -> base_dir <> [] -> lookup base_dir fs = Some n ->
     is_dir n = true ->
     (forall l1 l2 current_dir subdirs files subdir,
        walk_bottom_up fs base_dir = l1 ++ (current_dir, subdirs, files) :: l2 ->
        subdir ∈ subdirs ->
        exists e, e ∈ l1 /\ fst (fst e) = current_dir ++ [subdir])
     /\ exists fs' deleted,
         prune_empty_dirs base_dir fs = (fs', [], Ok deleted)
         /\ forall current_dir subdirs files,
              (current_dir, subdirs, files) ∈ walk_bottom_up fs base_dir ->
              (current_dir ∈ deleted <->
               files = []
               /\ forall subdir, subdir ∈ subdirs ->
                    current_dir ++ [subdir] ∈ deleted)
              /\ (current_dir ∈ deleted <-> lookup current_dir fs' = None))
  /\ prune_empty_dirs [lit "repo"] d1_tree
     = (d1_pruned, [], Ok {[ [lit "repo"; lit "d1"; lit "d2"] ]}).
Proof.
  split; [|vm_compute; reflexivity].
  intros fs n base_dir Hwf Hne Hlook Hdir. split.
  { intros l1 l2 cur subdirs files subdir H.
    unfold walk_bottom_up in H. rewrite Hlook in H.
    now apply (walk_children_first n base_dir l1 l2 cur subdirs files). }
  exists (put base_dir (prune_tree n) fs), (gone base_dir n).
  split; [now apply prune_empty_dirs_run|].
  intros cur subdirs files H. unfold walk_bottom_up in H. rewrite Hlook in H.
  pose proof (lookup_wf _ _ _ Hwf Hlook) as Hn.
  split; [now apply gone_walk|].
  destruct (walk_lookup _ _ _ _ _ Hn H) as (q & ces & -> & Hq).
  rewrite (lookup_pruned fs n base_dir q Hwf Hne Hlook).
  now apply (gone_pruned_lookup q base_dir n ces).
Qed.

Lemma prune_removes_iff_witness :
  exists fs' deleted,
    prune_empty_dirs [lit "repo"] d1_tree = (fs', [], Ok deleted)
    /\ [lit "repo"; lit "d1"; lit "d2"] ∈ deleted
    /\ lookup [lit "repo"; lit "d1"; lit "d2"] fs' = None
    /\ [lit "repo"; lit "d1"] ∉ deleted.
Proof.
  destruct prune_removes_iff as [H _].
  destruct (H d1_tree
              (Dir [(lit "d1", Dir [
                 (lit "d2", Dir []);
                 (lit "file.txt", File (Text (lit "kept")))])])
              [lit "repo"])
    as (_ & fs' & deleted & Hrun & Hiff); [reflexivity | discriminate
                                           | reflexivity | reflexivity|].
  exists fs', deleted. split; [exact Hrun|].
  assert (Hin2 : ([lit "repo"; lit "d1"; lit "d2"], [], [])
                 ∈ walk_bottom_up d1_tree [lit "repo"])
    by (apply list_elem_of_In; vm_compute; left; reflexivity).
  assert (Hin1 : ([lit "repo"; lit "d1"], [lit "d2"], [lit "file.txt"])
                 ∈ walk_bottom_up d1_tree [lit "repo"])
    by (apply list_elem_of_In; vm_compute; right; left; reflexivity).
  destruct (Hiff _ _ _ Hin2) as [Hrule2 Hfs2].
  destruct (Hiff _ _ _ Hin1) as [Hrule1 _].
  assert (Hd2 : [lit "repo"; lit "d1"; lit "d2"] ∈ deleted).
  { apply Hrule2. split; [reflexivity|].
    intros sd Hsd. now apply elem_of_nil in Hsd. }
  split; [exact Hd2|]. split; [now apply Hfs2|].
  intros Hd1. apply Hrule1 in Hd1 as [Hfiles _]. discriminate.
Defined.

(** An empty base directory with empty directories below it. *)
Definition hollow_tree : node :=
  Dir [(lit "repo", Dir [(lit "a", Dir []);
                         (lit "b", Dir [(lit "c", Dir [])])])].

(** C10: the walk ends with [base_dir] itself, under the same rule: when
    it lists no file and each of its subdirectories has been removed in
    the pass, [base_dir] is removed too, so it is in the set of deleted
    directories and no longer in the file tree; this happens exactly
    when the tree under [base_dir] holds no file. *)
Theorem prune_removes_base_dir (fs : node) (es : list (str * node))
    (base_dir : path) :
  wf fs = true -> base_dir <> [] -> lookup base_dir fs = Some (Dir es) ->
  exists fs' deleted,
    prune_empty_dirs base_dir fs = (fs', [], Ok deleted)
    /\ List.last (walk_bottom_up fs base_dir) ([], [], [])
       = (base_dir, dirnames es, filenames es)
    /\ (filenames es = [] ->
        (forall subdir, subdir ∈ dirnames es ->
                        base_dir ++ [subdir] ∈ deleted) ->
        base_dir ∈ deleted /\ lookup base_dir fs' = None)
    /\ (base_dir ∈ deleted <-> holds_no_file (Dir es) = true).
Proof.
  intros Hwf Hne Hlook.
  exists (put base_dir (prune_tree (Dir es)) fs), (gone base_dir (Dir es)).
  pose proof (lookup_wf _ _ _ Hwf Hlook) as Hn.
  split; [now apply prune_empty_dirs_run|]. split; [|split].
  - unfold walk_bottom_up. rewrite Hlook. cbn [walk_bottom_up_from].
    apply last_last.
  - intros Hfiles Hdirs.
    assert (Hin : base_dir ∈ gone base_dir (Dir es))
      by now apply removed_iff.
    split; [exact Hin|]. apply gone_root in Hin as [_ Hp].
    rewrite Hp. now apply (lookup_put base_dir None fs (Dir es)).
  - rewrite gone_root, prune_tree_None. intuition.
Qed.

Lemma prune_removes_base_dir_witness :
  exists fs' deleted,
    prune_empty_dirs [lit "repo"] hollow_tree = (fs', [], Ok deleted)
    /\ [lit "repo"] ∈ deleted.
Proof.
  destruct (prune_removes_base_dir hollow_tree
              [(lit "a", Dir []); (lit "b", Dir [(lit "c", Dir [])])]
              [lit "repo"])
    as (fs' & deleted & Hrun & _ & _ & Hiff);
    [reflexivity | discriminate | reflexivity|].
  exists fs', deleted. split; [exact Hrun | now apply Hiff].
Defined.

End Pruning.

(** ** Cleanup: a file that cannot be read *)

Module Cleanup.
Import Fs.

Lemma enumerate_from_app {A} (i : nat) (l1 l2 : list A) :
  enumerate_from i (l1 ++ l2)
  = enumerate_from i l1 ++ enumerate_from (i + length l1) l2.
Proof.
  revert i. induction l1 as [|x l1 IH]; intros i; cbn.
  - now rewrite Nat.add_0_r.
  - rewrite IH. now rewrite Nat.add_succ_r.
Qed.

Section Files.
Context (opts : cleanup_options) (total : nat).

Lemma clean_files_app (l1 l2 : list (nat * str)) (fs : node) :
  clean_files opts total (l1 ++ l2) fs =
  match clean_files opts total l1 fs with
  | (fs1, ev1, Ok Next) =>
      match clean_files opts total l2 fs1 with
      | (fs2, ev2, r) => (fs2, ev1 ++ ev2, r)
      end
  | other => other
  end.
Proof.
  revert fs. induction l1 as [|x l1 IH]; intros fs.
  - cbn. now destruct (clean_files opts total l2 fs) as [[fs2 ev2] r].
  - cbn [app clean_files]. unfold mbind, M_bind, bind.
    destruct (clean_file opts total x fs) as [[fs1 ev1] [[|]|e]];
      [|reflexivity|reflexivity].
    rewrite IH.
    destruct (clean_files opts total l1 fs1) as [[fs2 ev2] [[|]|e]];
      [|reflexivity|reflexivity].
    destruct (clean_files opts total l2 fs2) as [[fs3 ev3] r].
    now rewrite app_assoc.
Qed.

(** The turn of the loop for a file that cannot be read: the two lines
    of the report, no step on the file tree, and out of [cleanup]. *)
Lemma clean_file_unreadable (i : nat) (file : str) (fs : node) (exc : exn) :
  read_text fs (resolve file) = Raise exc ->
  clean_file opts total (i, file) fs
  = (fs, [Print (Got_error_cleaning i total file); Print (Exception_text exc)],
     Ok Return).
Proof.
  intros H. unfold clean_file, mbind, M_bind, bind, get. cbn [fst snd].
  now rewrite H.
Qed.

End Files.

(** C6: when the read of a matched file raises, after the files before
    it have been cleaned, [cleanup] reports the error and returns at
    once: the file tree it leaves is the one it had when the read
    failed, whatever files follow in the list, so no later file has its
    contents or its name changed; and no directory is pruned. *)
Theorem cleanup_aborts_on_read_error (opts : cleanup_options)
    (target_files : str) (before after : list str) (file : str)
    (base_dir : path) (fs fs1 : node) (evs : list event) (exc : exn) :
  let files := before ++ file :: after in
  clean_files opts (length files) (enumerate before) fs = (fs1, evs, Ok Next) ->
  read_text fs1 (resolve file) = Raise exc ->
  cleanup opts target_files files base_dir fs
  = (fs1,
     Print (Cleaning_up (length files) target_files)
     :: evs ++ [Print (Got_error_cleaning (length before) (length files) file);
                Print (Exception_text exc)],
     Ok tt).
Proof.
  intros files Hbefore Hread.
  unfold cleanup, mbind, M_bind, bind, print, enumerate.
  subst files. rewrite enumerate_from_app. cbn [enumerate_from].
  rewrite clean_files_app. unfold enumerate in Hbefore. rewrite Hbefore.
  cbn [clean_files]. unfold mbind, M_bind, bind.
  rewrite (clean_file_unreadable opts _ _ file fs1 exc Hread).
  cbn. now rewrite app_nil_r.
Qed.

Definition swap_old_new : cleanup_options := {|
  name_swaps := [(lit "old", lit "new")];
  regex_remove := fun text => Ok text;
  swap_filenames := true;
  remove_empty_dirs := true;
  overwrite := false
|}.

(** A tree with two scripts, an empty directory, and a file that is no
    UTF-8 between the scripts in the list of matches. *)
Definition three_files : node :=
  Dir [(lit "repo", Dir [
    (lit "a.sql", File (Text (lit "SELECT old")));
    (lit "b.bin", File Undecodable);
    (lit "old.sql", File (Text (lit "SELECT old")));
    (lit "empty", Dir [])])].

Definition in_repo (name : string) : str :=
  lit "repo" ++ backslash ++ lit name.

Lemma cleanup_aborts_on_read_error_witness :
  cleanup swap_old_new (lit "repo") [in_repo "a.sql"; in_repo "b.bin"; in_repo "old.sql"]
    [lit "repo"] three_files
  = (Dir [(lit "repo", Dir [
       (lit "a.sql", File (Text (lit "SELECT new")));
       (lit "b.bin", File Undecodable);
       (lit "old.sql", File (Text (lit "SELECT old")));
       (lit "empty", Dir [])])],
     [Print (Cleaning_up 3 (lit "repo"));
      Print (Got_error_cleaning 1 3 (in_repo "b.bin"));
      Print (Exception_text UnicodeDecodeError)],
     Ok tt).
Proof.
  apply (cleanup_aborts_on_read_error swap_old_new (lit "repo")
           [in_repo "a.sql"] [in_repo "old.sql"] (in_repo "b.bin")
           [lit "repo"] three_files _ [] UnicodeDecodeError);
    vm_compute; reflexivity.
Defined.

End Cleanup.

(** ** Facts about path strings *)

Module PathFacts.
Import SlugFacts.

Lemma segments_not_nil (s : str) : segments s <> [].
Proof.
  destruct s as [|c s]; [discriminate|]. cbn [segments].
  destruct (is_separator c); [discriminate|].
  destruct (segments s); discriminate.
Qed.

(** A backslash between two texts keeps their parts apart: the path
    string of several texts is read text by text. *)
Lemma segments_join (a b : str) :
  segments (a ++ backslash ++ b) = segments a ++ segments b.
Proof.
  induction a as [|c a IH]; [reflexivity|].
  cbn [app segments]. cbn [app] in IH. rewrite IH.
  destruct (is_separator c); [reflexivity|].
  pose proof (segments_not_nil a) as Ha.
  now destruct (segments a).
Qed.

Lemma descend_join (p : path) (a b : str) :
  descend p (a ++ backslash ++ b) = descend (descend p a) b.
Proof. unfold descend. now rewrite segments_join, fold_left_app. Qed.

(** The names that a text goes down by when no part of it is [..]. *)
Definition names_of (s : str) : list str :=
  List.filter (fun part => negb (bool_decide (part = []))
                           && negb (bool_decide (part = lit ".")))
    (segments s).

Lemma descend_names (p : path) (s : str) :
  climbs s = false -> descend p s = p ++ names_of s.
Proof.
  unfold climbs, descend, names_of. generalize (segments s). intros l.
  revert p. induction l as [|part l IH]; intros p H.
  - cbn. now rewrite app_nil_r.
  - cbn [existsb] in H. apply orb_false_iff in H as [Hpart H].
    apply bool_decide_eq_false in Hpart.
    cbn [fold_left List.filter]. rewrite (IH _ H). unfold enter.
    destruct (decide (part = [])) as [->|H0]; [reflexivity|].
    rewrite (bool_decide_eq_false_2 _ H0).
    destruct (decide (part = lit ".")) as [->|H1]; [reflexivity|].
    rewrite (bool_decide_eq_false_2 _ H1).
    destruct (decide (part = lit "..")) as [->|H2]; [contradiction|].
    cbn [negb andb]. now rewrite <- app_assoc.
Qed.

Lemma segments_chars (P : N -> Prop) (s : str) :
  List.Forall P s -> List.Forall (List.Forall P) (segments s).
Proof.
  induction 1 as [|c s Hc _ IH]; [repeat constructor|].
  cbn [segments]. destruct (is_separator c); [now constructor|].
  destruct (segments s) as [|part rest]; [repeat constructor; exact Hc|].
  apply List.Forall_cons_iff in IH as [Hpart Hrest].
  constructor; [now constructor | exact Hrest].
Qed.

Lemma no_dot_no_climb (s : str) :
  List.Forall (fun c => c <> 46) s -> climbs s = false.
Proof.
  intros H. apply segments_chars in H. unfold climbs.
  induction H as [|part rest Hpart _ IH]; [reflexivity|].
  cbn [existsb]. rewrite IH, orb_false_r.
  apply bool_decide_eq_false. intros ->.
  apply List.Forall_cons_iff in Hpart as [Hdot _]. now apply Hdot.
Qed.

(** A slug goes nowhere up: it holds no dot. *)
Lemma slug_stays (ucd : unicode_data) (source : str) :
  climbs (slugify ucd source false) = false.
Proof.
  apply no_dot_no_climb.
  eapply List.Forall_impl; [|apply (slug_chars ucd source)].
  intros c Hc ->. discriminate.
Qed.

Lemma segments_plain (s : str) :
  List.Forall (fun c => is_separator c = false) s -> segments s = [s].
Proof.
  induction 1 as [|c s Hc _ IH]; [reflexivity|].
  cbn [segments]. now rewrite Hc, IH.
Qed.

(** A text without separator that is neither empty nor [.] nor [..] is
    one name. *)
Lemma descend_name (p : path) (s : str) :
  List.Forall (fun c => is_separator c = false) s ->
  s <> [] -> s <> lit "." -> s <> lit ".." ->
  descend p s = p ++ [s].
Proof.
  intros Hs H0 H1 H2. unfold descend. rewrite (segments_plain s Hs).
  cbn [fold_left]. unfold enter.
  destruct (decide (s = [])); [contradiction|].
  destruct (decide (s = lit ".")); [contradiction|].
  now destruct (decide (s = lit "..")).
Qed.

End PathFacts.

(** ** The overwrite step: what it leaves of the schema subtree *)

Definition is_sql (name : str) : bool := Py.endswith name (lit ".sql").

(** A tree without its files named [*.sql], however deep. *)
Fixpoint purge_tree (n : node) : node :=
  match n with
  | File c => File c
  | Dir es =>
      Dir (flat_map (fun e => match snd e with
                              | File _ => if is_sql (fst e) then [] else [e]
                              | Dir _ => [(fst e, purge_tree (snd e))]
                              end) es)
  end.

Definition purge_entries (es : list (str * node)) : list (str * node) :=
  flat_map (fun e => match snd e with
                     | File _ => if is_sql (fst e) then [] else [e]
                     | Dir _ => [(fst e, purge_tree (snd e))]
                     end) es.

(** The entries of a directory without its own files named [*.sql]. *)
Definition sql_removed (es : list (str * node)) : list (str * node) :=
  flat_map (fun e => match snd e with
                     | File _ => if is_sql (fst e) then [] else [e]
                     | Dir _ => [e]
                     end) es.

Module Purge.
Import Fs FsFacts.

Lemma for_each_app {S A} (l1 l2 : list A) (body : A -> M S unit) (s : S) :
  for_each (l1 ++ l2) body s =
  match for_each l1 body s with
  | (s1, ev1, Ok _) =>
      match for_each l2 body s1 with (s2, ev2, r) => (s2, ev1 ++ ev2, r) end
  | (s1, ev1, Raise e) => (s1, ev1, Raise e)
  end.
Proof.
  revert s. induction l1 as [|x l1 IH]; intros s.
  - cbn. now destruct (for_each l2 body s) as [[s2 ev2] r].
  - cbn [app for_each]. unfold mbind, M_bind, bind.
    destruct (body x s) as [[s1 ev1] [[]|e]]; [|reflexivity].
    rewrite IH.
    destruct (for_each l1 body s1) as [[s2 ev2] [[]|e]]; [|reflexivity].
    destruct (for_each l2 body s2) as [[s3 ev3] r].
    now rewrite app_assoc.
Qed.

Lemma purge_tree_Dir (es : list (str * node)) :
  purge_tree (Dir es) = Dir (purge_entries es).
Proof. reflexivity. Qed.

Lemma purge_entries_app (A B : list (str * node)) :
  purge_entries (A ++ B) = purge_entries A ++ purge_entries B.
Proof. apply List.flat_map_app. Qed.

Lemma sql_removed_app (A B : list (str * node)) :
  sql_removed (A ++ B) = sql_removed A ++ sql_removed B.
Proof. apply List.flat_map_app. Qed.

(** A step that maps each entry to at most one entry of the same name
    keeps the names apart. *)
Section Entrywise.
Context (g : str * node -> list (str * node)).
Context (g_name : forall e e', e' ∈ g e -> fst e' = fst e).
Context (g_one : forall e, (length (g e) <= 1)%nat).

Lemma names_entrywise (x : str) (es : list (str * node)) :
  x ∈ map fst (flat_map g es) -> x ∈ map fst es.
Proof.
  induction es as [|e es IH]; [easy|].
  cbn [flat_map map]. rewrite map_app, elem_of_app, elem_of_cons.
  intros [H|H]; [left | right; now apply IH].
  apply list_elem_of_fmap in H as (e' & -> & He'). now apply g_name.
Qed.

Lemma NoDup_entrywise (es : list (str * node)) :
  NoDup (map fst es) -> NoDup (map fst (flat_map g es)).
Proof.
  induction es as [|e es IH]; [easy|]. cbn [map flat_map].
  rewrite NoDup_cons, map_app. intros [He Hnd].
  apply NoDup_app. split; [|split; [|now apply IH]].
  - pose proof (g_one e) as L. destruct (g e) as [|e1 [|e2 l]]; cbn in *.
    + constructor.
    + apply NoDup_singleton.
    + lia.
  - intros x Hx Hx'. apply He. apply names_entrywise in Hx'.
    apply list_elem_of_fmap in Hx as (e' & -> & He').
    now rewrite <- (g_name e e' He').
Qed.

End Entrywise.

Definition purge_entry (e : str * node) : list (str * node) :=
  match snd e with
  | File _ => if is_sql (fst e) then [] else [e]
  | Dir _ => [(fst e, purge_tree (snd e))]
  end.

Definition sql_entry (e : str * node) : list (str * node) :=
  match snd e with
  | File _ => if is_sql (fst e) then [] else [e]
  | Dir _ => [e]
  end.

Lemma purge_entry_name (e e' : str * node) :
  e' ∈ purge_entry e -> fst e' = fst e.
Proof.
  unfold purge_entry. destruct (snd e); [destruct (is_sql (fst e))|].
  - intros H. now apply elem_of_nil in H.
  - now intros ->%list_elem_of_singleton.
  - now intros ->%list_elem_of_singleton.
Qed.

Lemma purge_entry_one (e : str * node) : (length (purge_entry e) <= 1)%nat.
Proof.
  unfold purge_entry. destruct (snd e); [destruct (is_sql (fst e))|]; cbn; lia.
Qed.

Lemma sql_entry_name (e e' : str * node) :
  e' ∈ sql_entry e -> fst e' = fst e.
Proof.
  unfold sql_entry. destruct (snd e); [destruct (is_sql (fst e))|].
  - intros H. now apply elem_of_nil in H.
  - now intros ->%list_elem_of_singleton.
  - now intros ->%list_elem_of_singleton.
Qed.

Lemma sql_entry_one (e : str * node) : (length (sql_entry e) <= 1)%nat.
Proof.
  unfold sql_entry. destruct (snd e); [destruct (is_sql (fst e))|]; cbn; lia.
Qed.

Lemma names_purge_entries (x : str) (es : list (str * node)) :
  x ∈ map fst (purge_entries es) -> x ∈ map fst es.
Proof. apply (names_entrywise purge_entry purge_entry_name). Qed.

Lemma names_sql_removed (x : str) (es : list (str * node)) :
  x ∈ map fst (sql_removed es) -> x ∈ map fst es.
Proof. apply (names_entrywise sql_entry sql_entry_name). Qed.

Lemma purge_tree_wf (n : node) : wf n = true -> wf (purge_tree n) = true.
Proof.
  induction n as [c|es IH] using node_rect'; [easy|].
  rewrite purge_tree_Dir, !wf_Dir. intros [Hnd HF]. split.
  - now apply (NoDup_entrywise purge_entry purge_entry_name purge_entry_one).
  - clear Hnd. induction es as [|[k v] es IHes]; [constructor|].
    apply List.Forall_cons_iff in HF as [[Hk Hv] HF].
    apply List.Forall_cons_iff in IH as [IHv IH].
    change (purge_entries ((k, v) :: es))
      with (purge_entry (k, v) ++ purge_entries es).
    apply List.Forall_app. split; [|now apply IHes].
    unfold purge_entry. cbn [fst snd] in *.
    destruct v as [c|ces]; [destruct (is_sql k)|]; repeat constructor; auto.
Qed.

Lemma sql_removed_Forall (P : str * node -> Prop) (es : list (str * node)) :
  List.Forall P es -> List.Forall P (sql_removed es).
Proof.
  induction 1 as [|[k v] es He _ IH]; [constructor|].
  change (sql_removed ((k, v) :: es)) with (sql_entry (k, v) ++ sql_removed es).
  apply List.Forall_app. split; [|exact IH].
  unfold sql_entry. cbn [fst snd].
  destruct v; [destruct (is_sql k)|]; repeat constructor; auto.
Qed.

(** The directory while the walk is under way: the entries walked are
    purged, the others have lost their own [*.sql] files. *)
Lemma wf_under_way (A B : list (str * node)) :
  wf (Dir (A ++ B)) = true ->
  wf (Dir (purge_entries A ++ sql_removed B)) = true.
Proof.
  rewrite !wf_Dir, !map_app. intros [Hnd HF].
  apply NoDup_app in Hnd as (HA & HAB & HB).
  apply List.Forall_app in HF as [HFA HFB]. split.
  - apply NoDup_app. repeat split.
    + now apply (NoDup_entrywise purge_entry purge_entry_name purge_entry_one).
    + intros x Hx Hx'. apply (HAB x); [now apply names_purge_entries|].
      now apply names_sql_removed.
    + now apply (NoDup_entrywise sql_entry sql_entry_name sql_entry_one).
  - apply List.Forall_app. split; [|now apply sql_removed_Forall].
    assert (W : wf (Dir A) = true) by (apply wf_Dir; now split).
    apply purge_tree_wf in W. rewrite purge_tree_Dir in W.
    now apply wf_Dir in W as [_ W].
Qed.

(** *** The loop over the walk *)

Lemma remove_file (top : path) (k : str) (c : contents) (fs : node) :
  lookup (top ++ [k]) fs = Some (File c) ->
  fs_op (remove (top ++ [k])) fs = (put (top ++ [k]) None fs, [], Ok tt).
Proof. intros H. unfold fs_op, remove. now rewrite H. Qed.

(** Replacing the node at [top], the root of the tree included. *)
Lemma lookup_put_Some (top : path) (fs n n' : node) :
  wf fs = true -> lookup top fs = Some n ->
  lookup top (put top (Some n') fs) = Some n'.
Proof.
  intros Hwf H. destruct top as [|a top]; [reflexivity|].
  now apply (lookup_put (a :: top) (Some n') fs n).
Qed.

Lemma put_put_Some (top : path) (fs n n' n'' : node) :
  wf fs = true -> lookup top fs = Some n ->
  put top (Some n'') (put top (Some n') fs) = put top (Some n'') fs.
Proof.
  intros Hwf H. destruct top as [|a top]; [reflexivity|].
  now apply (put_put (a :: top) (Some n'') fs n).
Qed.

Lemma wf_put_Some (top : path) (fs n n' : node) :
  wf fs = true -> lookup top fs = Some n -> wf n' = true ->
  wf (put top (Some n') fs) = true.
Proof.
  intros Hwf H Hn. destruct top as [|a top]; [exact Hn|].
  apply (wf_put (a :: top) (Some n') fs n Hwf ltac:(discriminate) H).
  now intros v [= <-].
Qed.

(** Setting one entry of the directory at [top], seen from the tree
    before the walk. *)
Lemma put_entry (top : path) (k : str) (v : node) (o : option node)
    (A B es : list (str * node)) (fs : node) :
  wf fs = true -> lookup top fs = Some (Dir es) ->
  k ∉ map fst A -> k ∉ map fst B ->
  put (top ++ [k]) o (put top (Some (Dir (A ++ (k, v) :: B))) fs)
  = put top
      (Some (Dir (A ++ match o with Some v' => [(k, v')] | None => [] end ++ B)))
      fs.
Proof.
  intros Hwf Hlook HA HB.
  assert (L : lookup top (put top (Some (Dir (A ++ (k, v) :: B))) fs)
              = Some (Dir (A ++ (k, v) :: B)))
    by now apply (lookup_put_Some top fs (Dir es)).
  rewrite (put_app top [k] _ _ _ ltac:(discriminate) L).
  rewrite put_single, (upd_middle k _ _ _ _ HA HB).
  now apply (put_put_Some top fs (Dir es)).
Qed.

Lemma lookup_entry (top : path) (k : str) (v : node)
    (A B es : list (str * node)) (fs : node) :
  wf fs = true -> lookup top fs = Some (Dir es) ->
  k ∉ map fst A ->
  lookup (top ++ [k]) (put top (Some (Dir (A ++ (k, v) :: B))) fs) = Some v.
Proof.
  intros Hwf Hlook HA.
  rewrite lookup_app, (lookup_put_Some top fs (Dir es)) by assumption.
  rewrite lookup_cons. now rewrite (assoc_middle k v A B HA).
Qed.

(** The names on both sides of an entry of a directory are other names. *)
Lemma names_around (k : str) (v : node) (A B es : list (str * node)) :
  wf (Dir es) = true -> es = A ++ (k, v) :: B ->
  (k ∉ map fst A) /\ (k ∉ map fst B).
Proof.
  intros [Hnd _]%wf_Dir ->. rewrite map_app in Hnd. cbn in Hnd.
  apply NoDup_app in Hnd as (_ & HAB & [HB _]%NoDup_cons).
  split; [|exact HB]. intros H. apply (HAB k H), elem_of_cons. now left.
Qed.

(** The files of the directory itself: [done] have been seen, [todo]
    are still to see. *)
Lemma remove_own_files (top : path) (fs : node) (es : list (str * node)) :
  wf fs = true -> lookup top fs = Some (Dir es) ->
  forall todo done, es = done ++ todo ->
    for_each (filenames todo)
      (fun file => if Py.endswith file (lit ".sql")
                   then fs_op (remove (top ++ [file])) else ret tt)
      (put top (Some (Dir (sql_removed done ++ todo))) fs)
    = (put top (Some (Dir (sql_removed done ++ sql_removed todo))) fs,
       [], Ok tt).
Proof.
  intros Hwf Hlook.
  pose proof (lookup_wf _ _ _ Hwf Hlook) as Hes.
  induction todo as [|[k v] todo IH]; intros done E.
  - cbn. now rewrite !app_nil_r.
  - destruct (names_around k v done todo es Hes E) as [Hkd Hkt].
    assert (Hks : k ∉ map fst (sql_removed done))
      by (intros H; now apply Hkd, names_sql_removed).
    specialize (IH (done ++ [(k, v)])). rewrite <- entry_list in IH.
    specialize (IH E). rewrite sql_removed_app, <- app_assoc in IH.
    change (sql_removed ((k, v) :: todo))
      with (sql_entry (k, v) ++ sql_removed todo).
    change (sql_removed [(k, v)]) with (sql_entry (k, v) ++ []) in IH.
    rewrite app_nil_r in IH. unfold sql_entry in *. cbn [fst snd] in *.
    destruct v as [c|ces].
    + change (filenames ((k, File c) :: todo)) with (k :: filenames todo).
      cbn [for_each]. unfold mbind, M_bind, bind.
      fold (is_sql k). destruct (is_sql k);
        rewrite <- ?app_assoc in IH; cbn [app] in IH |- *.
      * rewrite (remove_file top k c _
                   (lookup_entry top k (File c) (sql_removed done) todo es fs
                      Hwf Hlook Hks)).
        rewrite (put_entry top k _ None _ _ es) by assumption.
        cbn [app]. now rewrite IH.
      * unfold ret at 1. now rewrite IH.
    + change (filenames ((k, Dir ces) :: todo)) with (filenames todo).
      rewrite <- ?app_assoc in IH. cbn [app] in IH |- *. exact IH.
Qed.

(** The main statement, for the tree [n] found at [top]. *)
Definition purges (n : node) : Prop :=
  forall (top : path) (fs : node),
    wf fs = true -> lookup top fs = Some n ->
    is_dir n = true ->
    for_each (walk_from top n) remove_sql_files fs
    = (put top (Some (purge_tree n)) fs, [], Ok tt).

Lemma purge_children (top : path) (fs : node) (es : list (str * node)) :
  wf fs = true -> lookup top fs = Some (Dir es) ->
  List.Forall (fun e => purges (snd e)) es ->
  forall todo done, es = done ++ todo ->
    for_each
      (flat_map (fun e => walk_from (top ++ [fst e]) (snd e)) todo)
      remove_sql_files
      (put top (Some (Dir (purge_entries done ++ sql_removed todo))) fs)
    = (put top (Some (Dir (purge_entries done ++ purge_entries todo))) fs,
       [], Ok tt).
Proof.
  intros Hwf Hlook IHn.
  pose proof (lookup_wf _ _ _ Hwf Hlook) as Hes.
  induction todo as [|[k v] todo IH]; intros done E.
  - cbn. now rewrite !app_nil_r.
  - destruct (names_around k v done todo es Hes E) as [Hkd Hkt].
    assert (Hkp : k ∉ map fst (purge_entries done))
      by (intros H; now apply Hkd, names_purge_entries).
    assert (Hks : k ∉ map fst (sql_removed todo))
      by (intros H; now apply Hkt, names_sql_removed).
    assert (W : wf (Dir (purge_entries done ++ sql_removed ((k, v) :: todo)))
                = true)
      by (apply wf_under_way; now rewrite <- E).
    specialize (IH (done ++ [(k, v)])). rewrite <- entry_list in IH.
    specialize (IH E). rewrite purge_entries_app, <- app_assoc in IH.
    change (sql_removed ((k, v) :: todo))
      with (sql_entry (k, v) ++ sql_removed todo) in *.
    change (purge_entries ((k, v) :: todo))
      with (purge_entry (k, v) ++ purge_entries todo).
    change (purge_entries [(k, v)]) with (purge_entry (k, v) ++ []) in IH.
    rewrite app_nil_r in IH.
    unfold sql_entry, purge_entry in *. cbn [fst snd flat_map] in *.
    rewrite for_each_app.
    destruct v as [c|ces].
    + cbn [walk_from for_each]. unfold ret at 1.
      destruct (is_sql k); rewrite <- ?app_assoc in IH; cbn [app] in IH |- *;
        now rewrite IH.
    + rewrite <- ?app_assoc in IH. cbn [app] in *.
      set (fs_c := put top (Some (Dir (purge_entries done
                                       ++ (k, Dir ces) :: sql_removed todo)))
                     fs) in *.
      assert (Hv : purges (Dir ces)).
      { rewrite List.Forall_forall in IHn.
        apply (IHn (k, Dir ces)). rewrite E. apply in_elt. }
      rewrite (Hv (top ++ [k]) fs_c); cycle 1.
      * exact (wf_put_Some top fs (Dir es) _ Hwf Hlook W).
      * exact (lookup_entry top k (Dir ces) (purge_entries done)
                 (sql_removed todo) es fs Hwf Hlook Hkp).
      * reflexivity.
      * unfold fs_c. rewrite (put_entry top k _ (Some _) _ _ es) by assumption.
        cbn [app]. now rewrite IH.
Qed.

(** The loop over the walk of a tree leaves the purged tree; no step
    fails. *)
Lemma purge_walk (n : node) : purges n.
Proof.
  induction n as [c|es IH] using node_rect';
    intros top fs Hwf Hlook Hdir; [discriminate|].
  pose proof (remove_own_files top fs es Hwf Hlook es [] eq_refl) as H1.
  pose proof (purge_children top fs es Hwf Hlook IH es [] eq_refl) as H2.
  cbn [sql_removed purge_entries flat_map app] in H1, H2.
  fold (sql_removed es) in H1, H2. fold (purge_entries es) in H2.
  rewrite (put_same top fs _ Hwf Hlook) in H1.
  cbn [walk_from for_each]. unfold mbind, M_bind, bind.
  unfold remove_sql_files at 1. cbn [fst snd].
  now rewrite H1, H2.
Qed.

(** *** The files of the purged tree *)

Lemma assoc_purge_entries (k : str) (es : list (str * node)) :
  NoDup (map fst es) ->
  assoc k (purge_entries es) =
  match assoc k es with
  | Some (File c) => if is_sql k then None else Some (File c)
  | Some (Dir ces) => Some (purge_tree (Dir ces))
  | None => None
  end.
Proof.
  intros Hnd. destruct (assoc k es) as [v|] eqn:E.
  - destruct (assoc_split k v es Hnd E) as (A & B & -> & HA & HB).
    rewrite purge_entries_app, assoc_app.
    assert (HA' : assoc k (purge_entries A) = None).
    { apply assoc_None. intros H. now apply HA, names_purge_entries. }
    assert (HB' : assoc k (purge_entries B) = None).
    { apply assoc_None. intros H. now apply HB, names_purge_entries. }
    rewrite HA'.
    change (purge_entries ((k, v) :: B))
      with (purge_entry (k, v) ++ purge_entries B).
    unfold purge_entry. cbn [fst snd].
    destruct v as [c|ces]; [destruct (is_sql k)|]; cbn;
      try exact HB'; now destruct (decide (k = k)).
  - apply assoc_None. apply assoc_None in E.
    intros H. now apply E, names_purge_entries.
Qed.

Lemma file_at_purge (q : path) (n : node) :
  wf n = true -> q <> [] ->
  file_at (purge_tree n) q =
  if is_sql (List.last q []) then None else file_at n q.
Proof.
  revert n. induction q as [|k q IH]; intros n Hwf Hq; [congruence|].
  destruct n as [c|es].
  - unfold file_at. cbn [purge_tree lookup].
    now destruct (is_sql (List.last (k :: q) [])).
  - unfold file_at in *. rewrite purge_tree_Dir, !lookup_cons.
    pose proof Hwf as [Hnd _]%wf_Dir.
    rewrite (assoc_purge_entries k es Hnd).
    destruct (assoc k es) as [[c|ces]|] eqn:E.
    + destruct q as [|k2 q].
      * cbn [List.last lookup]. now destruct (is_sql k).
      * cbn [lookup]. destruct (is_sql k);
          now destruct (is_sql (List.last (k :: k2 :: q) [])).
    + pose proof (wf_child _ _ _ Hwf E) as [_ Hc].
      destruct q as [|k2 q].
      * cbn [List.last lookup purge_tree]. now destruct (is_sql k).
      * change (List.last (k :: k2 :: q) []) with (List.last (k2 :: q) []).
        now apply IH.
    + now destruct (is_sql (List.last (k :: q) [])).
Qed.

(** Without a part [..] in the names the schema directory lies below
    [base_dir\schema], and the staging area is no part of it. *)
Lemma schema_base_dir_names (base_dir : path) (server db : str) :
  climbs server = false -> climbs db = false ->
  schema_base_dir base_dir server db
  = base_dir ++ [lit "schema"] ++ PathFacts.names_of server
             ++ PathFacts.names_of db.
Proof.
  intros Hs Hd. unfold schema_base_dir.
  rewrite (PathFacts.descend_names _ db Hd).
  rewrite (PathFacts.descend_names _ server Hs).
  now rewrite <- !app_assoc.
Qed.

Lemma stg_outside_schema (ucd : unicode_data) (base_dir q : path)
    (server db source : str) :
  climbs server = false -> climbs db = false ->
  ~ schema_base_dir base_dir server db
      `prefix_of` (db_stg_dir ucd base_dir source ++ q).
Proof.
  intros Hs Hd. rewrite (schema_base_dir_names base_dir server db Hs Hd).
  unfold db_stg_dir.
  rewrite (PathFacts.descend_names _ _ (PathFacts.slug_stays ucd source)).
  intros [x H].
  rewrite <- !app_assoc in H. apply app_inv_head in H.
  injection H as H _. vm_compute in H. discriminate.
Qed.

(** The tree when the overwrite step runs for the source [[..].[.stg]]:
    the staging area [repo\.stg\stg] holds the script that the scripting
    engine has put at [schema\..\.stg] in it, and the schema directory
    [repo\schema\..\.stg] of the source is [repo\.stg]. *)
Definition climbing_tree : node :=
  Dir [(lit "repo", Dir [
    (lit "schema", Dir []);
    (lit ".stg", Dir [(lit "stg", Dir [
       (lit "migrations", Dir []);
       (lit ".stg", Dir [
          (lit "dbo.t.Table.sql",
           File (Text (lit "CREATE TABLE t (c bigint)")))])])])])].

(** C5 fails for names that go up: for the source [[..].[.stg]] the
    schema directory is the directory [.stg] that holds the staging
    area, and the step removes the staged script. *)
Lemma overwrite_removes_staged_sql :
  db_stg_dir Hangul.ucd [lit "repo"] (lit "[..].[.stg]")
  = [lit "repo"; lit ".stg"; lit "stg"]
  /\ schema_base_dir [lit "repo"] (lit "..") (lit ".stg")
     = [lit "repo"; lit ".stg"]
  /\ file_at climbing_tree
       (db_stg_dir Hangul.ucd [lit "repo"] (lit "[..].[.stg]")
        ++ [lit ".stg"; lit "dbo.t.Table.sql"])
     = Some (Text (lit "CREATE TABLE t (c bigint)"))
  /\ file_at (fst (fst (overwrite_existing [lit "repo"] (lit "..") (lit ".stg")
                          true climbing_tree)))
       (db_stg_dir Hangul.ucd [lit "repo"] (lit "[..].[.stg]")
        ++ [lit ".stg"; lit "dbo.t.Table.sql"])
     = None.
Proof. repeat split; vm_compute; reflexivity. Qed.

(** C5, amended: with [overwrite] requested the step ends without an
    error and leaves a file tree in which no file below the schema
    directory of the target has a name ending in [.sql]; every file
    below that directory with another name and every file elsewhere
    holds what it held before; and so does every file of the staging
    area when no part of the server name or of the database name is
    [..]. *)
Theorem overwrite_removes_sql (fs : node) (base_dir : path)
    (source_server source_db : str) :
  wf fs = true ->
  let dir := schema_base_dir base_dir source_server source_db in
  exists fs',
    overwrite_existing base_dir source_server source_db true fs
    = (fs', [Print (Overwriting_existing
                      (schema_base_dir_texts base_dir source_server source_db))],
       Ok tt)
    /\ (forall q : path, q <> [] -> is_sql (List.last q []) = true ->
                  file_at fs' (dir ++ q) = None)
    /\ (forall q : path, q <> [] -> is_sql (List.last q []) = false ->
                  file_at fs' (dir ++ q) = file_at fs (dir ++ q))
    /\ (forall p : path, ~ dir `prefix_of` p -> file_at fs' p = file_at fs p)
    /\ (climbs source_server = false -> climbs source_db = false ->
        forall ucd source (q : path),
          file_at fs' (db_stg_dir ucd base_dir source ++ q)
          = file_at fs (db_stg_dir ucd base_dir source ++ q)).
Proof.
  intros Hwf dir.
  assert (Hstg : forall fs' : node,
             (forall p : path, ~ dir `prefix_of` p ->
                               file_at fs' p = file_at fs p) ->
             climbs source_server = false -> climbs source_db = false ->
             forall ucd source (q : path),
               file_at fs' (db_stg_dir ucd base_dir source ++ q)
               = file_at fs (db_stg_dir ucd base_dir source ++ q)).
  { intros fs' H Hs Hd ucd source q. apply H.
    now apply stg_outside_schema. }
  unfold overwrite_existing, mbind, M_bind, bind, print, get, isdir, walk.
  fold dir. destruct (lookup dir fs) as [[c|es]|] eqn:Hlook.
  - exists fs. split; [reflexivity|]. split; [|split; [|split]]; auto.
    intros q Hq _. unfold file_at. rewrite lookup_app, Hlook.
    now destruct q.
  - exists (put dir (Some (purge_tree (Dir es))) fs).
    rewrite (purge_walk (Dir es) dir fs Hwf Hlook eq_refl).
    pose proof (lookup_wf _ _ _ Hwf Hlook) as Hn.
    assert (Hin : forall q : path,
               file_at (put dir (Some (purge_tree (Dir es))) fs) (dir ++ q)
               = file_at (purge_tree (Dir es)) q).
    { intros q. unfold file_at.
      now rewrite lookup_app, (lookup_put_Some dir fs (Dir es) _ Hwf Hlook). }
    assert (Hold : forall q : path,
               file_at fs (dir ++ q) = file_at (Dir es) q).
    { intros q. unfold file_at. now rewrite lookup_app, Hlook. }
    assert (Hout : forall p : path, ~ dir `prefix_of` p ->
               file_at (put dir (Some (purge_tree (Dir es))) fs) p
               = file_at fs p)
      by (intros p Hp; now apply (file_at_put_outside dir p _ fs (Dir es))).
    split; [reflexivity|]. split; [|split; [|split]].
    + intros q Hq Hsql. now rewrite Hin, (file_at_purge q _ Hn Hq), Hsql.
    + intros q Hq Hsql.
      now rewrite Hin, Hold, (file_at_purge q _ Hn Hq), Hsql.
    + exact Hout.
    + now apply Hstg.
  - exists fs. split; [reflexivity|]. split; [|split; [|split]]; auto.
    intros q Hq _. unfold file_at. now rewrite lookup_app, Hlook.
Qed.

(** The step for a named instance, [SRV\SQLEXPRESS]: the schema
    directory is [app] in [SQLEXPRESS] in [SRV]. *)
Definition instance_tree : node :=
  Dir [(lit "repo", Dir [
    (lit "schema", Dir [(lit "SRV", Dir [(lit "SQLEXPRESS", Dir [
       (lit "app", Dir [
          (lit "dbo.t.Table.sql", File (Text (lit "CREATE TABLE t (c int)")));
          (lit "notes.txt", File (Text (lit "keep me")))])])])]);
    (lit ".stg", Dir [(lit "srvsqlexpressapp", Dir [(lit "schema", Dir [
       (lit "dbo.t.Table.sql", File (Text (lit "CREATE TABLE t (c bigint)")))])])])])].

Lemma overwrite_removes_sql_witness :
  exists fs',
    overwrite_existing [lit "repo"] (lit "SRV\SQLEXPRESS") (lit "app") true
      instance_tree
    = (fs', [Print (Overwriting_existing
                      [lit "repo"; lit "schema"; lit "SRV\SQLEXPRESS";
                       lit "app"])],
       Ok tt)
    /\ file_at fs' [lit "repo"; lit "schema"; lit "SRV"; lit "SQLEXPRESS";
                    lit "app"; lit "dbo.t.Table.sql"] = None
    /\ file_at fs' [lit "repo"; lit "schema"; lit "SRV"; lit "SQLEXPRESS";
                    lit "app"; lit "notes.txt"] = Some (Text (lit "keep me"))
    /\ file_at fs' [lit "repo"; lit ".stg"; lit "srvsqlexpressapp";
                    lit "schema"; lit "dbo.t.Table.sql"]
       = Some (Text (lit "CREATE TABLE t (c bigint)")).
Proof.
  destruct (overwrite_removes_sql instance_tree [lit "repo"]
              (lit "SRV\SQLEXPRESS") (lit "app") eq_refl)
    as (fs' & Hrun & Hsql & Hother & _ & Hstg).
  exists fs'. split; [exact Hrun|]. split; [|split].
  - apply (Hsql [lit "dbo.t.Table.sql"]); [discriminate | reflexivity].
  - exact (Hother [lit "notes.txt"] ltac:(discriminate) eq_refl).
  - exact (Hstg eq_refl eq_refl Hangul.ucd (lit "[SRV\SQLEXPRESS].[app]")
             [lit "schema"; lit "dbo.t.Table.sql"]).
Defined.

End Purge.

(** * Further properties *)

(** ** The batch splitter: what a batch holds and what is lost *)

Module SplitterMore.
Import Py PyFacts Splitter.

Lemma strip_prefix_longer (p x y r : str) :
  strip_prefix p x = Some r -> strip_prefix p (x ++ y) = Some (r ++ y).
Proof.
  revert x. induction p as [|a p IH]; intros x H; cbn in *.
  - now injection H as <-.
  - destruct x as [|b x]; [discriminate|]. cbn.
    destruct (N.eqb a b); [now apply IH | discriminate].
Qed.

(** The text before the first separator holds none. *)
Lemma partition_GO_before (s b a : str) :
  partition GO_newline s = Some (b, a) -> count GO_newline b = 0%nat.
Proof.
  revert b. induction s as [|c s IH]; intros b H; [discriminate|].
  cbn [partition] in H.
  destruct (strip_prefix GO_newline (c :: s)) as [r|] eqn:E.
  - now injection H as <- <-.
  - destruct (partition GO_newline s) as [[b' a']|] eqn:E'; [|discriminate].
    injection H as <- <-. cbn [count]. rewrite (IH b' eq_refl).
    unfold startswith.
    destruct (strip_prefix GO_newline (c :: b')) as [r|] eqn:Eb; [|reflexivity].
    apply partition_Some in E'. subst s.
    change (c :: b' ++ GO_newline ++ a') with ((c :: b') ++ GO_newline ++ a') in E.
    rewrite (strip_prefix_longer _ _ _ _ Eb) in E. discriminate.
Qed.

Lemma re_split_pieces (text : str) :
  List.Forall (fun b => count GO_newline b = 0%nat) (re_split_GO text).
Proof.
  induction text as [s E R | b a E R IH] using script_ind; rewrite R.
  - constructor; [now apply partition_GO_none | constructor].
  - constructor; [exact (partition_GO_before _ b a E) | exact IH].
Qed.

Lemma drop_last_Forall {A} (P : A -> Prop) (l : list A) :
  List.Forall P l -> List.Forall P (drop_last l).
Proof.
  induction 1 as [|x l Hx Hl IH]; [constructor|].
  destruct l as [|y l]; [constructor|].
  cbn [drop_last] in *. now constructor.
Qed.

(** X1: no batch holds a separator: a batch is sent to the server without
    any [GO] line of the script in it. *)
Theorem batches_hold_no_separator (text : str) :
  List.Forall (fun b => count GO_newline b = 0%nat) (split_batches text).
Proof. apply drop_last_Forall, re_split_pieces. Qed.

(** X2: the text after the last separator is lost: a script whose last
    statement is not followed by a separator gives the batches before
    it only. *)
Theorem text_after_last_separator_is_dropped (bs : list str) (rest : str) :
  List.Forall (fun b => count GO_newline b = 0%nat) bs ->
  count GO_newline rest = 0%nat ->
  split_batches (concat (map (fun b => b ++ GO_newline) bs) ++ rest) = bs.
Proof.
  intros Hbs Hrest. unfold split_batches.
  rewrite (re_split_concat bs rest Hbs Hrest). apply drop_last_snoc.
Qed.

Lemma text_after_last_separator_is_dropped_witness :
  split_batches (lit "CREATE TABLE t (c int)" ++ [10] ++ GO_newline
                 ++ lit "INSERT INTO t VALUES (1)")
  = [lit "CREATE TABLE t (c int)" ++ [10]].
Proof.
  apply (text_after_last_separator_is_dropped
           [lit "CREATE TABLE t (c int)" ++ [10]]
           (lit "INSERT INTO t VALUES (1)"));
    [repeat constructor | reflexivity].
Defined.

End SplitterMore.

(** ** Addresses: [[server].[database]] *)

Module Address.
Import Py PyFacts.

(** [[server].[database]] as the commands take it. *)
Definition address (server database : str) : str :=
  lit "[" ++ server ++ lit "].[" ++ database ++ lit "]".

(** No character of the text is a square bracket. *)
Definition bracket_free (s : str) : Prop :=
  List.Forall (fun c => c <> 91 /\ c <> 93) s.

Definition dot_bracket : str := Eval cbv in lit "].[".

Lemma lit_dot_bracket : lit "].[" = dot_bracket.
Proof. reflexivity. Qed.

Lemma strip_prefix_other (c : N) (s : str) :
  c <> 93 -> strip_prefix dot_bracket (c :: s) = None.
Proof.
  intros H. unfold dot_bracket. cbn [strip_prefix].
  destruct (N.eqb_spec 93 c) as [E|E]; [congruence | reflexivity].
Qed.

Lemma partition_no_closing (s : str) :
  List.Forall (fun c => c <> 93) s -> partition dot_bracket s = None.
Proof.
  induction 1 as [|c s Hc Hs IH]; [reflexivity|].
  cbn [partition]. rewrite (strip_prefix_other c s Hc). now rewrite IH.
Qed.

Lemma partition_first_closing (s d : str) :
  List.Forall (fun c => c <> 93) s ->
  partition dot_bracket (s ++ dot_bracket ++ d) = Some (s, d).
Proof.
  induction 1 as [|c s Hc Hs IH].
  - apply partition_here. exact (strip_prefix_app dot_bracket d).
  - cbn [app partition]. rewrite (strip_prefix_other c _ Hc). now rewrite IH.
Qed.

Lemma split_no_closing (s : str) :
  List.Forall (fun c => c <> 93) s -> split dot_bracket s = [s].
Proof.
  intros H. unfold dot_bracket. rewrite split_unfold.
  fold dot_bracket. now rewrite (partition_no_closing s H).
Qed.

Lemma split_two (s d : str) :
  List.Forall (fun c => c <> 93) s -> List.Forall (fun c => c <> 93) d ->
  split dot_bracket (s ++ dot_bracket ++ d) = [s; d].
Proof.
  intros Hs Hd. unfold dot_bracket at 1. rewrite split_unfold.
  fold dot_bracket. rewrite (partition_first_closing s d Hs).
  now rewrite (split_no_closing d Hd).
Qed.

Section Strip.
Context (p : N -> bool).

Lemma rstrip_snoc_keep (l : str) (c : N) :
  p c = false -> rstrip p (l ++ [c]) = l ++ [c].
Proof.
  intros Hc. induction l as [|x l IH]; cbn [app rstrip].
  - now rewrite Hc.
  - rewrite IH. now destruct l.
Qed.

Lemma rstrip_snoc_drop (l : str) (c : N) :
  p c = true -> rstrip p (l ++ [c]) = rstrip p l.
Proof.
  intros Hc. induction l as [|x l IH]; cbn [app rstrip].
  - now rewrite Hc.
  - now rewrite IH.
Qed.

End Strip.

Lemma no_closing (s : str) :
  bracket_free s -> List.Forall (fun c => c <> 93) s.
Proof. apply List.Forall_impl. now intros c [_ H]. Qed.

Lemma one_of_open (c : N) : one_of (lit "[") c = (c =? 91).
Proof. unfold one_of. cbn. now rewrite orb_false_r. Qed.

Lemma one_of_close (c : N) : one_of (lit "]") c = (c =? 93).
Proof. unfold one_of. cbn. now rewrite orb_false_r. Qed.

(** The brackets at the two ends are stripped and nothing else. *)
Lemma address_stripped (server database : str) :
  server <> [] -> bracket_free server -> bracket_free database ->
  strip (one_of (lit "]")) (strip (one_of (lit "[")) (address server database))
  = server ++ dot_bracket ++ database.
Proof.
  intros Hne Hs Hd. destruct server as [|x server]; [congruence|].
  apply List.Forall_cons_iff in Hs as [[Hx1 Hx2] Hs].
  unfold address, strip. rewrite lit_dot_bracket.
  change (lit "[") with [91]. change (lit "]") with [93].
  cbn [app lstrip]. rewrite one_of_open, N.eqb_refl.
  cbn [lstrip]. rewrite one_of_open.
  destruct (N.eqb_spec x 91) as [E|_]; [congruence|].
  replace (x :: server ++ dot_bracket ++ database ++ [93])
    with ((x :: server ++ dot_bracket ++ database) ++ [93])
    by (cbn [app]; now rewrite <- !app_assoc).
  rewrite rstrip_snoc_keep by (now rewrite one_of_open).
  cbn [app lstrip]. rewrite one_of_close.
  destruct (N.eqb_spec x 93) as [E|_]; [congruence|].
  change (x :: (server ++ dot_bracket ++ database) ++ [93])
    with ((x :: server ++ dot_bracket ++ database) ++ [93]).
  rewrite rstrip_snoc_drop by (now rewrite one_of_close).
  destruct (FsFacts.exists_last_or_nil database) as [-> | (d' & c & ->)].
  - rewrite app_nil_r. unfold dot_bracket.
    replace (x :: server ++ [93; 46; 91])
      with ((x :: server ++ [93; 46]) ++ [91])
      by (cbn [app]; now rewrite <- app_assoc).
    apply rstrip_snoc_keep. now rewrite one_of_close.
  - apply List.Forall_app in Hd as [_ Hc].
    apply List.Forall_cons_iff in Hc as [[_ Hc] _].
    replace (x :: server ++ dot_bracket ++ d' ++ [c])
      with ((x :: server ++ dot_bracket ++ d') ++ [c])
      by (cbn [app]; now rewrite <- !app_assoc).
    apply rstrip_snoc_keep. rewrite one_of_close.
    now destruct (N.eqb_spec c 93).
Qed.

(** X3: an address of a server and a database without square brackets in
    their names, the server's name not empty, is taken apart into the
    two names. *)
Theorem parse_address_roundtrip {S} (server database : str) (s : S) :
  server <> [] -> bracket_free server -> bracket_free database ->
  parse_address (address server database) s = (s, [], Ok (server, database)).
Proof.
  intros Hne Hs Hd. unfold parse_address.
  rewrite (address_stripped server database Hne Hs Hd), lit_dot_bracket.
  now rewrite (split_two server database (no_closing _ Hs) (no_closing _ Hd)).
Qed.

Lemma parse_address_roundtrip_witness :
  parse_address (address (lit "SQL-01") (lit "Sales")) tt
  = (tt, [], Ok (lit "SQL-01", lit "Sales")).
Proof.
  apply (parse_address_roundtrip (lit "SQL-01") (lit "Sales") tt);
    [discriminate | |]; repeat constructor; discriminate.
Defined.

(** X4: a target without a closing bracket is refused: the unpacking of the
    one piece raises [ValueError]. *)
Theorem parse_address_needs_brackets {S} (target : str) (s : S) :
  List.Forall (fun c => c <> 93) target ->
  parse_address target s = (s, [], Raise ValueError).
Proof.
  intros H. unfold parse_address. rewrite lit_dot_bracket.
  rewrite split_no_closing; [reflexivity|].
  now apply StripFacts.strip_Forall, StripFacts.strip_Forall.
Qed.

Lemma parse_address_needs_brackets_witness :
  parse_address (lit "SQL-01.Sales") tt = (tt, [], Raise ValueError).
Proof.
  apply (parse_address_needs_brackets (lit "SQL-01.Sales") tt).
  repeat constructor; discriminate.
Defined.

(** X5: an address with an empty server name is refused too: the closing
    bracket of the server is stripped with the opening one, so that no
    separator is left. *)
Theorem parse_address_empty_server {S} (database : str) (s : S) :
  bracket_free database ->
  parse_address (address [] database) s = (s, [], Raise ValueError).
Proof.
  intros Hd. unfold parse_address, address, strip.
  change (lit "[") with [91]. change (lit "]") with [93].
  change (lit "].[") with [93; 46; 91].
  cbn [app lstrip]. rewrite one_of_open, N.eqb_refl.
  cbn [lstrip]. rewrite one_of_open.
  change (93 =? 91) with false. cbv iota.
  replace (93 :: 46 :: 91 :: database ++ [93])
    with ((93 :: 46 :: 91 :: database) ++ [93]) by reflexivity.
  rewrite rstrip_snoc_keep by (now rewrite one_of_open).
  cbn [app lstrip]. rewrite one_of_close, N.eqb_refl.
  cbn [lstrip]. rewrite one_of_close.
  change (46 =? 93) with false. cbv iota.
  replace (46 :: 91 :: database ++ [93])
    with ((46 :: 91 :: database) ++ [93]) by reflexivity.
  rewrite rstrip_snoc_drop by (now rewrite one_of_close).
  fold dot_bracket. rewrite split_no_closing; [reflexivity|].
  apply StripFacts.rstrip_Forall.
  constructor; [discriminate|]. constructor; [discriminate|].
  now apply no_closing.
Qed.

Lemma parse_address_empty_server_witness :
  parse_address (address [] (lit "Sales")) tt = (tt, [], Raise ValueError).
Proof.
  apply (parse_address_empty_server (lit "Sales") tt).
  repeat constructor; discriminate.
Defined.

End Address.

(** ** The runners: [migration_to_db] and [schema_to_db] as wholes *)

(** The servers to which a connection was opened, in order. *)
Definition connections (evs : list event) : list str :=
  flat_map (fun e => match e with Opened server => [server] | _ => [] end) evs.

Module Runner.
Import Py Executor.

Lemma statements_app (a b : list event) :
  statements (a ++ b) = statements a ++ statements b.
Proof. apply List.flat_map_app. Qed.

Lemma connections_app (a b : list event) :
  connections (a ++ b) = connections a ++ connections b.
Proof. apply List.flat_map_app. Qed.

Lemma filter_Exists {A} (f : A -> bool) (l : list A) :
  List.Exists (fun x => f x = true) l ->
  exists d ds, List.filter f l = d :: ds.
Proof.
  induction 1 as [x l Hx | x l _ IH]; cbn [List.filter].
  - rewrite Hx. eauto.
  - destruct (f x); eauto.
Qed.

Lemma filter_none {A} (f : A -> bool) (l : list A) :
  List.Forall (fun x => f x = false) l -> List.filter f l = [].
Proof.
  induction 1 as [|x l Hx _ IH]; cbn [List.filter]; [reflexivity|].
  now rewrite Hx.
Qed.

Lemma for_each_map {S A B} (h : A -> B) (l : list A) (body : B -> M S unit)
    (s : S) :
  for_each (map h l) body s = for_each l (fun a => body (h a)) s.
Proof.
  revert s. induction l as [|a l IH]; intros s; [reflexivity|].
  cbn [map]. rewrite !for_each_cons.
  destruct (body (h a) s) as [[s1 ev1] [[]|e]]; [|reflexivity].
  now rewrite IH.
Qed.

Lemma for_each_ext {S A} (f g : A -> M S unit) (l : list A) (s : S) :
  (forall x s, f x s = g x s) -> for_each l f s = for_each l g s.
Proof.
  intros H. revert s. induction l as [|a l IH]; intros s; [reflexivity|].
  rewrite !for_each_cons, H.
  destruct (g a s) as [[s1 ev1] [[]|e]]; [|reflexivity].
  now rewrite IH.
Qed.

Lemma for_each_flat {S A B} (g : A -> list B) (l : list A)
    (body : B -> M S unit) (s : S) :
  for_each l (fun a => for_each (g a) body) s
  = for_each (flat_map g l) body s.
Proof.
  revert s. induction l as [|a l IH]; intros s; [reflexivity|].
  cbn [flat_map]. rewrite for_each_cons, Purge.for_each_app.
  destruct (for_each (g a) body s) as [[s1 ev1] [[]|e]]; [|reflexivity].
  now rewrite IH.
Qed.

Section Runner.
Context {db : Type} (env : odbc db) (fs : node) (base_dir : path).

(** A driver whose name ends in [SQL Server] is installed. *)
Definition has_driver : Prop :=
  List.Exists (fun x => endswith x (lit "SQL Server") = true) (drivers env).

Lemma sql_driver_found :
  has_driver -> exists d, forall s, sql_driver env s = (s, [], Ok d).
Proof.
  intros H. destruct (filter_Exists _ _ H) as (d & ds & E).
  exists d. intros s. unfold sql_driver. now rewrite E.
Qed.

Lemma sql_driver_missing (s : db) :
  List.Forall (fun x => endswith x (lit "SQL Server") = false) (drivers env) ->
  sql_driver env s = (s, [], Raise IndexError).
Proof. intros H. unfold sql_driver. now rewrite (filter_none _ _ H). Qed.

(** The batch loop opens no connection. *)
Lemma execute_from_connections (server : str) (total : nat)
    (batches : list str) (i : nat) (s : db) :
  connections (events_of (for_each (enumerate_from i batches)
                            (execute_batch env server total) s)) = [].
Proof.
  revert i s. induction batches as [|b rest IH]; intros i s; [reflexivity|].
  cbn [enumerate_from]. rewrite for_each_cons, execute_batch_run.
  destruct (execute env s server b) as [s1 r]. specialize (IH (S i) s1).
  destruct r as [exc|]; cbv iota beta;
    destruct (for_each (enumerate_from (S i) rest)
                (execute_batch env server total) s1) as [[s2 evs] r2];
    unfold events_of in *; cbn [fst snd] in *;
    rewrite connections_app, IH; reflexivity.
Qed.

Lemma execute_batches_run (server : str) (batches : list str) (s : db) :
  exists s' evs,
    execute_batches env server batches s = (s', evs, Ok tt)
    /\ statements evs = batches /\ connections evs = [].
Proof.
  pose proof (execute_from env server (length batches) batches 0 s) as H.
  pose proof (execute_from_connections server (length batches) batches 0 s) as C.
  cbv zeta in H. fold (enumerate batches) in H, C.
  fold (execute_batches env server batches) in H, C.
  destruct (execute_batches env server batches s) as [[s' evs] r].
  unfold result_of, events_of in *. cbn [fst snd] in *.
  destruct H as (-> & Hst & _). now exists s', evs.
Qed.

(** *** [migration_to_db] *)

Definition migration_file (target : str) : path :=
  descend (base_dir ++ [lit "migrations"]) (target ++ lit ".sql").

(** The body of the loop of [migration_to_db]. *)
Definition migrate (target_server target : str) : M db unit :=
  sql_driver env ;;
  print (Trying_to_connect target_server) ;;
  text ← lift (Fs.read_text fs (migration_file target));
  let batches := split_batches text in
  with_connection env target_server (
    print (Executing_batches (length batches)) ;;
    execute_batches env target_server batches).

Lemma migration_to_db_loop (server : str) (targets : list str) :
  migration_to_db env fs server targets base_dir
  = for_each targets (migrate server).
Proof. reflexivity. Qed.

Lemma migrate_run (server target text : str) (s : db) :
  has_driver ->
  Fs.read_text fs (migration_file target) = Ok text ->
  connect env s server = None ->
  exists s' evs,
    migrate server target s = (s', evs, Ok tt)
    /\ statements evs = split_batches text /\ connections evs = [server].
Proof.
  intros Hd Hread Hconn. destruct (sql_driver_found Hd) as (d & Hdrv).
  destruct (execute_batches_run server (split_batches text) s)
    as (s' & evs & Hrun & Hst & Hco).
  exists s'. eexists.
  unfold migrate, mbind, M_bind, bind, print, lift, with_connection.
  rewrite Hdrv, Hread. cbv iota beta zeta. rewrite Hconn, Hrun.
  cbv iota beta. split; [reflexivity|].
  cbn [app]. unfold statements, connections in *. cbn [flat_map app].
  rewrite !List.flat_map_app, Hst, Hco. cbn. now rewrite app_nil_r.
Qed.

Lemma migrate_unreadable (server target : str) (exc : exn) (s : db) :
  has_driver ->
  Fs.read_text fs (migration_file target) = Raise exc ->
  migrate server target s
  = (s, [Print (Trying_to_connect server)], Raise exc).
Proof.
  intros Hd Hread. destruct (sql_driver_found Hd) as (d & Hdrv).
  unfold migrate, mbind, M_bind, bind, print, lift.
  now rewrite Hdrv, Hread.
Qed.

Lemma migrate_all (server : str) (targets texts : list str) :
  has_driver ->
  (forall s, connect env s server = None) ->
  List.Forall2 (fun target text =>
                  Fs.read_text fs (migration_file target) = Ok text)
    targets texts ->
  forall s, exists s' evs,
    for_each targets (migrate server) s = (s', evs, Ok tt)
    /\ statements evs = flat_map split_batches texts
    /\ connections evs = map (fun _ => server) targets.
Proof.
  intros Hd Hconn. induction 1 as [|target text targets texts Hread _ IH];
    intros s.
  - exists s, []. now cbn.
  - destruct (migrate_run server target text s Hd Hread (Hconn s))
      as (s1 & ev1 & E1 & Hst1 & Hco1).
    destruct (IH s1) as (s2 & ev2 & E2 & Hst2 & Hco2).
    exists s2, (ev1 ++ ev2). rewrite for_each_cons, E1, E2.
    split; [reflexivity|].
    rewrite statements_app, connections_app, Hst1, Hst2, Hco1, Hco2.
    now cbn.
Qed.

(** *** [schema_to_db] *)

(** The files of the schema tree of a target, in the order of the walk. *)
Definition schema_files (target_server target_db : str) : list path :=
  flat_map (fun entry => map (fun file => fst (fst entry) ++ [file]) (snd entry))
    (Fs.walk fs (schema_base_dir base_dir target_server target_db)).

(** The body of the loop over the files. *)
Definition run_file (overwrite : bool) (target_server target_db : str)
    (file : path) : M db unit :=
  text ← lift (Fs.read_text fs file);
  let batches := split_batches text in
  with_connection env target_server (
    print Preparing_to_execute ;;
    (if overwrite
     then print (Dropping_if_exists target_db) ;;
          run_statement env target_server (drop_database target_db)
     else ret tt) ;;
    print (Executing_batches (length batches)) ;;
    execute_batches env target_server batches).

(** The body of the loop over the targets, the two loops over the walk
    as one loop over its files. *)
Definition run_target (overwrite : bool) (target : str) : M db unit :=
  address ← parse_address target;
  sql_driver env ;;
  print (Trying_to_connect (fst address)) ;;
  for_each (schema_files (fst address) (snd address))
    (run_file overwrite (fst address) (snd address)).

Lemma schema_to_db_loop (targets : list str) (overwrite : bool) (s : db) :
  schema_to_db env fs targets overwrite base_dir s
  = for_each targets (run_target overwrite) s.
Proof.
  unfold schema_to_db. apply for_each_ext. clear s. intros target s.
  unfold run_target, mbind, M_bind, bind.
  destruct (parse_address target s) as [[s1 ev1] [[server database]|e]];
    [|reflexivity].
  cbn [fst snd].
  destruct (sql_driver env s1) as [[s2 ev2] [d|e]]; [|reflexivity].
  destruct (print (Trying_to_connect server) s2) as [[s3 ev3] [[]|e]];
    [|reflexivity].
  unfold schema_files. rewrite <- for_each_flat.
  rewrite (for_each_ext
             (fun a => for_each (map (fun file => fst (fst a) ++ [file]) (snd a))
                         (run_file overwrite server database))
             (fun entry => for_each (snd entry) (fun file =>
                run_file overwrite server database (fst (fst entry) ++ [file]))));
    [reflexivity|].
  intros entry s'. apply for_each_map.
Qed.

Lemma run_file_plain (server database : str) (file : path) (text : str)
    (s : db) :
  Fs.read_text fs file = Ok text ->
  connect env s server = None ->
  exists s' evs,
    run_file false server database file s = (s', evs, Ok tt)
    /\ statements evs = split_batches text /\ connections evs = [server].
Proof.
  intros Hread Hconn.
  destruct (execute_batches_run server (split_batches text) s)
    as (s' & evs & Hrun & Hst & Hco).
  exists s'. eexists.
  unfold run_file, mbind, M_bind, bind, print, lift, with_connection, mret,
    M_ret, ret.
  rewrite Hread. cbv iota beta zeta. rewrite Hconn, Hrun.
  cbv iota beta. split; [reflexivity|].
  unfold statements, connections in *. cbn [flat_map app].
  rewrite !List.flat_map_app, Hst, Hco. cbn. now rewrite app_nil_r.
Qed.

Lemma run_file_dropping (server database : str) (file : path) (text : str)
    (s s1 : db) :
  Fs.read_text fs file = Ok text ->
  connect env s server = None ->
  execute env s server (drop_database database) = (s1, None) ->
  exists s' evs,
    run_file true server database file s = (s', evs, Ok tt)
    /\ statements evs = drop_database database :: split_batches text
    /\ connections evs = [server].
Proof.
  intros Hread Hconn Hdrop.
  destruct (execute_batches_run server (split_batches text) s1)
    as (s' & evs & Hrun & Hst & Hco).
  exists s'. eexists.
  unfold run_file, run_statement, try_execute, mbind, M_bind, bind, print,
    lift, with_connection, mret, M_ret, ret.
  rewrite Hread. cbv iota beta zeta. rewrite Hconn, Hdrop.
  cbv iota beta. rewrite Hrun.
  cbv iota beta. split; [reflexivity|].
  unfold statements, connections in *. cbn [flat_map app].
  rewrite !List.flat_map_app, Hst, Hco. cbn. now rewrite app_nil_r.
Qed.

Lemma run_file_drop_fails (server database : str) (file : path) (text : str)
    (exc : exn) (s s1 : db) :
  Fs.read_text fs file = Ok text ->
  connect env s server = None ->
  execute env s server (drop_database database) = (s1, Some exc) ->
  run_file true server database file s
  = (s1, [Opened server; Print Preparing_to_execute;
          Print (Dropping_if_exists database);
          Execute server (drop_database database) (Some exc);
          Closed server], Raise exc).
Proof.
  intros Hread Hconn Hdrop.
  unfold run_file, run_statement, try_execute, mbind, M_bind, bind, print,
    lift, with_connection, mret, M_ret, ret, raise.
  rewrite Hread. cbv iota beta zeta. rewrite Hconn, Hdrop. reflexivity.
Qed.

(** The statements of one file: the drop, if asked for, and the batches. *)
Definition file_statements (overwrite : bool) (database text : str)
  : list str :=
  (if overwrite then [drop_database database] else []) ++ split_batches text.

Lemma run_files (overwrite : bool) (server database : str)
    (files : list path) (texts : list str) :
  (forall s, connect env s server = None) ->
  (overwrite = true ->
   forall s, snd (execute env s server (drop_database database)) = None) ->
  List.Forall2 (fun file text => Fs.read_text fs file = Ok text) files texts ->
  forall s, exists s' evs,
    for_each files (run_file overwrite server database) s = (s', evs, Ok tt)
    /\ statements evs = flat_map (file_statements overwrite database) texts
    /\ connections evs = map (fun _ => server) files.
Proof.
  intros Hconn Hdrop. induction 1 as [|file text files texts Hread _ IH];
    intros s.
  - exists s, []. now cbn.
  - assert (exists s1 ev1,
               run_file overwrite server database file s = (s1, ev1, Ok tt)
               /\ statements ev1 = file_statements overwrite database text
               /\ connections ev1 = [server]) as (s1 & ev1 & E1 & Hst1 & Hco1).
    { destruct overwrite.
      - specialize (Hdrop eq_refl s).
        destruct (execute env s server (drop_database database))
          as [s1 r] eqn:E. cbn [snd] in Hdrop. subst r.
        exact (run_file_dropping server database file text s s1
                 Hread (Hconn s) E).
      - exact (run_file_plain server database file text s Hread (Hconn s)). }
    destruct (IH s1) as (s2 & ev2 & E2 & Hst2 & Hco2).
    exists s2, (ev1 ++ ev2). rewrite for_each_cons, E1, E2.
    split; [reflexivity|].
    rewrite statements_app, connections_app, Hst1, Hst2, Hco1, Hco2.
    now cbn.
Qed.

Lemma run_target_files (overwrite : bool) (target server database : str)
    (s : db) :
  has_driver ->
  (forall s : db, parse_address target s = (s, [], Ok (server, database))) ->
  run_target overwrite target s
  = match for_each (schema_files server database)
            (run_file overwrite server database) s with
    | (s', evs, r) => (s', Print (Trying_to_connect server) :: evs, r)
    end.
Proof.
  intros Hd Hparse. destruct (sql_driver_found Hd) as (d & Hdrv).
  unfold run_target, mbind, M_bind, bind, print.
  rewrite Hparse. cbv iota beta. cbn [fst snd]. rewrite Hdrv.
  cbv iota beta.
  now destruct (for_each (schema_files server database) _ s)
    as [[s' evs] r].
Qed.

Lemma schema_files_missing (server database : str) :
  Fs.isdir fs (schema_base_dir base_dir server database) = false ->
  schema_files server database = [].
Proof.
  unfold Fs.isdir, schema_files, Fs.walk.
  destruct (Fs.lookup _ fs) as [[c|es]|]; [reflexivity | discriminate |
                                            reflexivity].
Qed.

(** *** What the two commands do as wholes *)

(** X6: with a driver installed, the server reachable and every migration
    file readable, [migration_to_db] ends normally whatever the server
    answers to the batches; it sends the batches of the files, file after
    file in the order of the list, and opens one connection for each
    migration. *)
Theorem migration_to_db_runs_every_file (server : str)
    (targets texts : list str) (s : db) :
  has_driver ->
  (forall s, connect env s server = None) ->
  List.Forall2 (fun target text =>
                  Fs.read_text fs (migration_file target) = Ok text)
    targets texts ->
  let run := migration_to_db env fs server targets base_dir s in
  result_of run = Ok tt
  /\ statements (events_of run) = flat_map split_batches texts
  /\ connections (events_of run) = map (fun _ => server) targets.
Proof.
  intros Hd Hconn Hread run. subst run. rewrite migration_to_db_loop.
  destruct (migrate_all server targets texts Hd Hconn Hread s)
    as (s' & evs & -> & Hst & Hco).
  now unfold result_of, events_of.
Qed.

(** X7: a migration file that cannot be read ends the command with the
    exception of the read: the migrations before it have been run, each
    on its own connection, and neither it nor any migration after it is
    run or connected for. *)
Theorem migration_to_db_stops_at_unreadable_file (server : str)
    (before texts : list str) (target : str) (after : list str)
    (exc : exn) (s : db) :
  has_driver ->
  (forall s, connect env s server = None) ->
  List.Forall2 (fun target text =>
                  Fs.read_text fs (migration_file target) = Ok text)
    before texts ->
  Fs.read_text fs (migration_file target) = Raise exc ->
  let run := migration_to_db env fs server (before ++ target :: after)
               base_dir s in
  result_of run = Raise exc
  /\ statements (events_of run) = flat_map split_batches texts
  /\ connections (events_of run) = map (fun _ => server) before.
Proof.
  intros Hd Hconn Hread Hbad run. subst run.
  rewrite migration_to_db_loop, Purge.for_each_app.
  destruct (migrate_all server before texts Hd Hconn Hread s)
    as (s' & evs & -> & Hst & Hco).
  rewrite for_each_cons, (migrate_unreadable server target exc s' Hd Hbad).
  unfold result_of, events_of. cbn [fst snd].
  rewrite statements_app, connections_app, Hst, Hco. cbn.
  now rewrite !app_nil_r.
Qed.

(** X8: without an installed driver whose name ends in [SQL Server], a
    command with something to run raises [IndexError] before it prints,
    connects or sends anything. *)
Theorem commands_need_driver (server target : str) (targets : list str)
    (overwrite : bool) (s : db) :
  List.Forall (fun x => endswith x (lit "SQL Server") = false) (drivers env) ->
  migration_to_db env fs server (target :: targets) base_dir s
  = (s, [], Raise IndexError)
  /\ (forall database,
        parse_address target s = (s, [], Ok (server, database)) ->
        schema_to_db env fs (target :: targets) overwrite base_dir s
        = (s, [], Raise IndexError)).
Proof.
  intros Hnone. split.
  - rewrite migration_to_db_loop, for_each_cons.
    unfold migrate, mbind, M_bind, bind.
    now rewrite (sql_driver_missing s Hnone).
  - intros database Hparse. rewrite schema_to_db_loop, for_each_cons.
    unfold run_target, mbind, M_bind, bind.
    now rewrite Hparse, (sql_driver_missing s Hnone).
Qed.

(** X9: with a driver installed, the server reachable, every file of the
    schema tree of the target readable and, if the drop is asked for, the
    drop accepted, [schema_to_db] ends normally; for each file in the
    order of the walk it opens a connection and sends the drop, if asked
    for, and then the batches of the file.  The schema tree is the one
    at the directory that the path string of [base_dir], [schema] and
    the two names of the target names: for a named instance, a
    directory in a directory. *)
Theorem schema_to_db_runs_every_file (overwrite : bool)
    (target server database : str) (texts : list str) (s : db) :
  has_driver ->
  (forall s : db, parse_address target s = (s, [], Ok (server, database))) ->
  (forall s, connect env s server = None) ->
  (overwrite = true ->
   forall s, snd (execute env s server (drop_database database)) = None) ->
  List.Forall2 (fun file text => Fs.read_text fs file = Ok text)
    (schema_files server database) texts ->
  let run := schema_to_db env fs [target] overwrite base_dir s in
  result_of run = Ok tt
  /\ statements (events_of run)
     = flat_map (file_statements overwrite database) texts
  /\ connections (events_of run)
     = map (fun _ => server) (schema_files server database).
Proof.
  intros Hd Hparse Hconn Hdrop Hread run. subst run.
  rewrite schema_to_db_loop, for_each_cons.
  rewrite (run_target_files overwrite target server database s Hd Hparse).
  destruct (run_files overwrite server database _ texts Hconn Hdrop Hread s)
    as (s' & evs & -> & Hst & Hco).
  unfold result_of, events_of. cbn [for_each fst snd].
  unfold mret, M_ret, ret. cbn [fst snd].
  rewrite app_nil_r. now cbn.
Qed.

(** X10: a drop that the server refuses ends the command with the
    exception of the server, unlike a batch that the server refuses: the
    connection is closed, no batch of the file is sent, and no other file
    or target is looked at. *)
Theorem schema_to_db_failed_drop_aborts (target server database : str)
    (targets : list str) (file : path) (files : list path) (text : str)
    (exc : exn) (s s1 : db) :
  has_driver ->
  (forall s : db, parse_address target s = (s, [], Ok (server, database))) ->
  schema_files server database = file :: files ->
  Fs.read_text fs file = Ok text ->
  connect env s server = None ->
  execute env s server (drop_database database) = (s1, Some exc) ->
  schema_to_db env fs (target :: targets) true base_dir s
  = (s1, [Print (Trying_to_connect server);
          Opened server;
          Print Preparing_to_execute;
          Print (Dropping_if_exists database);
          Execute server (drop_database database) (Some exc);
          Closed server], Raise exc).
Proof.
  intros Hd Hparse Hfiles Hread Hconn Hdrop.
  rewrite schema_to_db_loop, for_each_cons.
  rewrite (run_target_files true target server database s Hd Hparse).
  rewrite Hfiles, for_each_cons.
  now rewrite (run_file_drop_fails server database file text exc s s1
                 Hread Hconn Hdrop).
Qed.

(** X11: targets whose schema directory, the directory that the path
    string of [base_dir], [schema] and the two names of the target
    names, does not exist are passed over without an error: no
    connection is opened and nothing is sent, not even the drop when it
    is asked for. *)
Theorem schema_to_db_skips_missing_directory (targets : list str)
    (overwrite : bool) (s : db) :
  has_driver ->
  List.Forall (fun target => exists server database,
                 (forall s : db,
                    parse_address target s = (s, [], Ok (server, database)))
                 /\ Fs.isdir fs (schema_base_dir base_dir server database)
                    = false) targets ->
  let run := schema_to_db env fs targets overwrite base_dir s in
  result_of run = Ok tt
  /\ statements (events_of run) = []
  /\ connections (events_of run) = [].
Proof.
  intros Hd Hall run. subst run. rewrite schema_to_db_loop.
  induction Hall as [|target targets (server & database & Hparse & Hno) _ IH].
  - now cbn.
  - rewrite for_each_cons.
    rewrite (run_target_files overwrite target server database s Hd Hparse).
    rewrite (schema_files_missing server database Hno).
    cbn [for_each]. unfold mret, M_ret, ret. cbv iota beta.
    destruct (for_each targets (run_target overwrite) s) as [[s' evs] r].
    unfold result_of, events_of in *. cbn [fst snd] in *.
    destruct IH as (-> & Hst & Hco).
    unfold statements, connections in *. cbn [flat_map app]. auto.
Qed.

End Runner.

(** A repository with two migrations, the second of which is a
    directory by mistake, and the schema tree of one database. *)
Definition small_repo : node :=
  Dir [(lit "repo", Dir [
    (lit "migrations", Dir [
       (lit "001-init.sql",
        File (Text (lit "CREATE TABLE a (c int)" ++ [10] ++ GO_newline)));
       (lit "002-more.sql", Dir [])]);
    (lit "schema", Dir [(lit "srv", Dir [(lit "app", Dir [
       (lit "dbo.a.Table.sql",
        File (Text (lit "CREATE TABLE a (c int)" ++ [10] ++ GO_newline)))])])])])].

(** A server that refuses every statement. *)
Definition refusing : odbc unit := {|
  drivers := [lit "ODBC Driver 17 for SQL Server"];
  connect := fun _ _ => None;
  execute := fun _ _ _ => (tt, Some (DatabaseError (lit "no")))
|}.

(** A machine without a driver for SQL Server. *)
Definition driverless : odbc unit := {|
  drivers := [lit "SQLite3 ODBC Driver"];
  connect := fun _ _ => None;
  execute := fun _ _ _ => (tt, None)
|}.

Lemma migration_to_db_runs_every_file_witness :
  let run := migration_to_db refusing small_repo (lit "srv") [lit "001-init"]
               [lit "repo"] tt in
  result_of run = Ok tt
  /\ statements (events_of run)
     = flat_map split_batches [lit "CREATE TABLE a (c int)" ++ [10] ++ GO_newline]
  /\ connections (events_of run) = map (fun _ => lit "srv") [lit "001-init"].
Proof.
  apply (migration_to_db_runs_every_file refusing small_repo [lit "repo"]
           (lit "srv") [lit "001-init"]
           [lit "CREATE TABLE a (c int)" ++ [10] ++ GO_newline] tt).
  - apply List.Exists_cons_hd. reflexivity.
  - reflexivity.
  - repeat constructor.
Defined.

Lemma migration_to_db_stops_at_unreadable_file_witness :
  let run := migration_to_db refusing small_repo (lit "srv")
               ([lit "001-init"] ++ lit "002-more" :: [lit "001-init"])
               [lit "repo"] tt in
  result_of run = Raise PermissionError
  /\ statements (events_of run)
     = flat_map split_batches [lit "CREATE TABLE a (c int)" ++ [10] ++ GO_newline]
  /\ connections (events_of run) = map (fun _ => lit "srv") [lit "001-init"].
Proof.
  apply (migration_to_db_stops_at_unreadable_file refusing small_repo
           [lit "repo"] (lit "srv") [lit "001-init"]
           [lit "CREATE TABLE a (c int)" ++ [10] ++ GO_newline]
           (lit "002-more") [lit "001-init"] PermissionError tt).
  - apply List.Exists_cons_hd. reflexivity.
  - reflexivity.
  - repeat constructor.
  - reflexivity.
Defined.

Lemma commands_need_driver_witness :
  migration_to_db driverless small_repo (lit "srv") [lit "001-init"]
    [lit "repo"] tt = (tt, [], Raise IndexError)
  /\ (forall database,
        parse_address (lit "[srv].[app]") tt = (tt, [], Ok (lit "srv", database)) ->
        schema_to_db driverless small_repo [lit "[srv].[app]"] true
          [lit "repo"] tt = (tt, [], Raise IndexError)).
Proof.
  apply (commands_need_driver driverless small_repo [lit "repo"] (lit "srv")
           (lit "[srv].[app]") [] true tt).
  repeat constructor.
Defined.

(** The schema tree of the database [app] of the named instance
    [SRV\SQLEXPRESS]: the directory [app] in [SQLEXPRESS] in [SRV]. *)
Definition instance_repo : node :=
  Dir [(lit "repo", Dir [
    (lit "schema", Dir [(lit "SRV", Dir [(lit "SQLEXPRESS", Dir [
       (lit "app", Dir [
          (lit "dbo.a.Table.sql",
           File (Text (lit "CREATE TABLE a (c int)" ++ [10] ++ GO_newline)))])])])])])].

Lemma schema_to_db_runs_every_file_witness :
  let run := schema_to_db Deployer.agreeable instance_repo
               [lit "[SRV\SQLEXPRESS].[app]"] true [lit "repo"] tt in
  result_of run = Ok tt
  /\ statements (events_of run)
     = flat_map (file_statements true (lit "app"))
         [lit "CREATE TABLE a (c int)" ++ [10] ++ GO_newline]
  /\ connections (events_of run)
     = map (fun _ => lit "SRV\SQLEXPRESS")
         (schema_files instance_repo [lit "repo"] (lit "SRV\SQLEXPRESS")
            (lit "app")).
Proof.
  apply (schema_to_db_runs_every_file Deployer.agreeable instance_repo
           [lit "repo"] true (lit "[SRV\SQLEXPRESS].[app]")
           (lit "SRV\SQLEXPRESS") (lit "app")
           [lit "CREATE TABLE a (c int)" ++ [10] ++ GO_newline] tt).
  - apply List.Exists_cons_hd. reflexivity.
  - intros []. vm_compute. reflexivity.
  - reflexivity.
  - reflexivity.
  - vm_compute. repeat constructor.
Defined.

Lemma schema_to_db_failed_drop_aborts_witness :
  schema_to_db refusing small_repo [lit "[srv].[app]"] true [lit "repo"] tt
  = (tt, [Print (Trying_to_connect (lit "srv"));
          Opened (lit "srv");
          Print Preparing_to_execute;
          Print (Dropping_if_exists (lit "app"));
          Execute (lit "srv") (drop_database (lit "app"))
            (Some (DatabaseError (lit "no")));
          Closed (lit "srv")], Raise (DatabaseError (lit "no"))).
Proof.
  apply (schema_to_db_failed_drop_aborts refusing small_repo [lit "repo"]
           (lit "[srv].[app]") (lit "srv") (lit "app") []
           [lit "repo"; lit "schema"; lit "srv"; lit "app"; lit "dbo.a.Table.sql"]
           [] (lit "CREATE TABLE a (c int)" ++ [10] ++ GO_newline)
           (DatabaseError (lit "no")) tt tt).
  - apply List.Exists_cons_hd. reflexivity.
  - intros []. vm_compute. reflexivity.
  - vm_compute. reflexivity.
  - reflexivity.
  - reflexivity.
  - reflexivity.
Defined.

Lemma schema_to_db_skips_missing_directory_witness :
  let run := schema_to_db refusing small_repo [lit "[srv].[other]"] true
               [lit "repo"] tt in
  result_of run = Ok tt
  /\ statements (events_of run) = []
  /\ connections (events_of run) = [].
Proof.
  apply (schema_to_db_skips_missing_directory refusing small_repo [lit "repo"]
           [lit "[srv].[other]"] true tt).
  - apply List.Exists_cons_hd. reflexivity.
  - constructor; [|constructor].
    exists (lit "srv"), (lit "other"). split; [|reflexivity].
    intros []. vm_compute. reflexivity.
Defined.

End Runner.

(** ** Slugs: fixed points, empty slugs, case, and leading digits *)

Module SlugMore.
Import Py StripFacts Unicode SlugFacts.

Section Slug.
Context (ucd : unicode_data).

Lemma slug_char_lowered (c : N) : slug_char c = true -> lowered c.
Proof. unfold lowered. intros H. ranges. Qed.

Lemma slug_char_no_space (c : N) :
  slug_char c = true -> isspace ucd c = false.
Proof. unfold isspace, ascii_space. intros H. ranges. Qed.

Lemma slug_char_kept (c : N) : slug_char c = true -> kept ucd c = true.
Proof.
  intros H. unfold kept. rewrite (slug_char_no_space c H), orb_false_r.
  ranges.
Qed.

(** A text of slug characters without two hyphens in a row is tidy. *)
Lemma single_hyphens_tidy (s : str) :
  List.Forall (fun c => slug_char c = true) s ->
  count [45; 45] s = 0%nat ->
  tidy ucd false s = true
  /\ (hd_error s <> Some 45 -> tidy ucd true s = true).
Proof.
  induction 1 as [|c s Hc Hs IH]; [now split|].
  cbn [count]. unfold startswith. cbn [strip_prefix].
  rewrite (N.eqb_sym 45 c). intros Hcount.
  assert (Hrest : count [45; 45] s = 0%nat) by lia.
  destruct (IH Hrest) as [IH1 IH2]. cbn [tidy hd_error].
  destruct (N.eqb_spec c 45) as [->|Hne].
  - split; [|congruence]. cbn [negb andb]. apply IH2.
    destruct s as [|d s]; [discriminate|]. cbn [hd_error].
    intros [= ->]. rewrite Hrest in Hcount. discriminate.
  - rewrite (slug_char_no_space c Hc). cbn [negb andb]. now split.
Qed.

Lemma finish_fixed (s : str) :
  List.Forall (fun c => slug_char c = true) s ->
  count [45; 45] s = 0%nat ->
  strip hyphen_underscore s = s ->
  finish ucd s = s.
Proof.
  intros Hs Hcount Hstrip. unfold finish, remove_others.
  rewrite (filter_all (kept ucd) s).
  - unfold collapse.
    now rewrite (collapse_tidy ucd s false
                   (proj1 (single_hyphens_tidy s Hs Hcount))).
  - eapply List.Forall_impl; [|exact Hs]. apply slug_char_kept.
Qed.

(** An ASCII text goes through normalisation and encoding unchanged and
    is lowered letter by letter, whatever [allow_unicode] is. *)
Lemma ascii_through (s : str) (allow_unicode : bool) :
  List.Forall (fun c => is_ascii c = true) s ->
  slugify ucd s allow_unicode = finish ucd (map ascii_lower s).
Proof.
  intros Ha. rewrite slugify_finish. unfold normalize.
  rewrite (forallb_all _ _ Ha). unfold encode_ascii_ignore.
  rewrite (filter_all _ _ Ha).
  destruct allow_unicode; now rewrite (lower_ascii ucd s Ha).
Qed.

Lemma strippable_all (p : N -> bool) (s : str) :
  List.Forall (fun c => p c = true) (strip p s) -> strip p s = [].
Proof.
  intros H. destruct (strip p s) as [|c r] eqn:E; [reflexivity|].
  apply List.Forall_cons_iff in H as [Hc _].
  pose proof (strip_head p s c) as Hh. rewrite E in Hh.
  specialize (Hh eq_refl). congruence.
Qed.

Lemma collapse_keeps_front (d y : str) (b : bool) :
  List.Forall (fun c => hyphen_or_space ucd c = false) d ->
  exists b', collapse_from ucd b (d ++ y) = d ++ collapse_from ucd b' y.
Proof.
  intros H. revert b. induction H as [|c d Hc _ IH]; intros b.
  - now exists b.
  - cbn [app collapse_from]. rewrite Hc.
    destruct (IH false) as (b' & ->). now exists b'.
Qed.

Lemma rstrip_keeps_front (p : N -> bool) (d y : str) :
  List.Forall (fun c => p c = false) d ->
  rstrip p (d ++ y) = d ++ rstrip p y.
Proof.
  induction 1 as [|c d Hc _ IH]; [reflexivity|].
  cbn [app rstrip]. rewrite IH, Hc. now destruct (d ++ rstrip p y).
Qed.

Lemma strip_keeps_front (p : N -> bool) (d y : str) :
  List.Forall (fun c => p c = false) d ->
  exists tail, strip p (d ++ y) = d ++ tail.
Proof.
  intros H. destruct d as [|c d].
  - now exists (strip p y).
  - unfold strip. cbn [app lstrip].
    rewrite (proj1 (proj1 (List.Forall_cons_iff _ _ _) H)).
    change (c :: d ++ y) with ((c :: d) ++ y).
    rewrite (rstrip_keeps_front p _ y H). eauto.
Qed.

Lemma digit_facts (c : N) :
  between 48 57 c = true ->
  is_ascii c = true /\ ascii_lower c = c /\ kept ucd c = true
  /\ hyphen_or_space ucd c = false /\ hyphen_underscore c = false.
Proof.
  intros H.
  assert (Hsp : isspace ucd c = false)
    by (unfold isspace, ascii_space; ranges).
  assert (Hhu : hyphen_underscore c = false).
  { unfold hyphen_underscore, one_of. change (lit "-_") with [45; 95].
    cbn [existsb].
    destruct (N.eqb_spec c 45) as [->|_]; [discriminate|].
    destruct (N.eqb_spec c 95) as [->|_]; [discriminate | reflexivity]. }
  unfold kept, hyphen_or_space. rewrite Hsp, Hhu. clear Hhu.
  repeat split; ranges.
Qed.

(** X12: a well-formed slug is its own slug: a text of lowercase ASCII
    letters, digits, underscores and hyphens, without two hyphens in a
    row and without a hyphen or an underscore at either end, comes back
    from [slugify] as it is. *)
Theorem slugify_keeps_slugs (s : str) :
  List.Forall (fun c => slug_char c = true) s ->
  count [45; 45] s = 0%nat ->
  strip hyphen_underscore s = s ->
  slugify ucd s false = s.
Proof.
  intros Hs Hcount Hstrip. rewrite slugify_finish.
  rewrite (lowered_through ucd s).
  - now apply finish_fixed.
  - eapply List.Forall_impl; [|exact Hs]. apply slug_char_lowered.
Qed.

(** X13: an ASCII text without a letter or a digit has the empty slug. *)
Theorem slugify_without_alnum_is_empty (s : str) (allow_unicode : bool) :
  List.Forall (fun c => is_ascii c = true /\ ascii_alnum c = false) s ->
  slugify ucd s allow_unicode = [].
Proof.
  intros H.
  assert (Ha : List.Forall (fun c => is_ascii c = true) s)
    by (eapply List.Forall_impl; [|exact H]; now intros c [Hc _]).
  rewrite (ascii_through s allow_unicode Ha). unfold finish.
  apply strippable_all. fold (finish ucd (map ascii_lower s)).
  apply finish_chars; [reflexivity|].
  apply List.Forall_map. eapply List.Forall_impl; [|exact H].
  intros c [Hc Hn] Hw. cbn beta in Hw. unfold is_word, isalnum in Hw.
  assert (Hl : ascii_lower c = c) by ranges.
  rewrite Hl in *. rewrite Hc, Hn in Hw. cbn [orb] in Hw.
  apply N.eqb_eq in Hw. now subst c.
Qed.

(** X14: the case of ASCII letters makes no difference to the slug. *)
Theorem slugify_ignores_ascii_case (s : str) (allow_unicode : bool) :
  List.Forall (fun c => is_ascii c = true) s ->
  slugify ucd (map ascii_lower s) allow_unicode
  = slugify ucd s allow_unicode.
Proof.
  intros Ha. rewrite (ascii_through s allow_unicode Ha).
  rewrite ascii_through.
  - f_equal. apply map_fixed, List.Forall_map.
    eapply List.Forall_impl; [|exact Ha].
    intros c Hc. now apply lowered_ascii_lower.
  - apply List.Forall_map. eapply List.Forall_impl; [|exact Ha].
    intros c Hc. now apply lowered_ascii_lower.
Qed.

(** X15: the slug of digits, a hyphen and an ASCII name starts with the
    digits: the files that [new_blank] and [from_db] name after a
    timestamp and a name start with the timestamp. *)
Theorem slugify_keeps_leading_digits (stamp name : str) :
  List.Forall (fun c => between 48 57 c = true) stamp ->
  List.Forall (fun c => is_ascii c = true) name ->
  exists tail, slugify ucd (stamp ++ lit "-" ++ name) false = stamp ++ tail.
Proof.
  intros Hd Hn. change (lit "-") with [45].
  rewrite ascii_through.
  - rewrite map_app, (map_fixed ascii_lower stamp).
    + unfold finish, remove_others. rewrite List.filter_app.
      rewrite (filter_all (kept ucd) stamp).
      * unfold collapse.
        destruct (collapse_keeps_front stamp
                    (List.filter (kept ucd) (map ascii_lower ([45] ++ name)))
                    false) as (b' & ->).
        -- eapply List.Forall_impl; [|exact Hd].
           intros c Hc. apply (digit_facts c Hc).
        -- apply strip_keeps_front.
           eapply List.Forall_impl; [|exact Hd].
           intros c Hc. apply (digit_facts c Hc).
      * eapply List.Forall_impl; [|exact Hd].
        intros c Hc. apply (digit_facts c Hc).
    + eapply List.Forall_impl; [|exact Hd].
      intros c Hc. apply (digit_facts c Hc).
  - apply List.Forall_app. split.
    + eapply List.Forall_impl; [|exact Hd].
      intros c Hc. apply (digit_facts c Hc).
    + now constructor.
Qed.

End Slug.

Lemma slugify_keeps_slugs_witness :
  slugify Hangul.ucd (lit "20240131-add_orders-table") false
  = lit "20240131-add_orders-table".
Proof.
  apply (slugify_keeps_slugs Hangul.ucd (lit "20240131-add_orders-table"));
    [repeat constructor | reflexivity | reflexivity].
Defined.

Lemma slugify_without_alnum_is_empty_witness :
  slugify Hangul.ucd (lit "?! -- _ (*)") false = [].
Proof.
  apply (slugify_without_alnum_is_empty Hangul.ucd (lit "?! -- _ (*)") false).
  repeat constructor.
Defined.

Lemma slugify_ignores_ascii_case_witness :
  slugify Hangul.ucd (map ascii_lower (lit "Add Orders TABLE")) false
  = slugify Hangul.ucd (lit "Add Orders TABLE") false.
Proof.
  apply (slugify_ignores_ascii_case Hangul.ucd (lit "Add Orders TABLE") false).
  repeat constructor.
Defined.

Lemma slugify_keeps_leading_digits_witness :
  exists tail,
    slugify Hangul.ucd (lit "20240131093000" ++ lit "-" ++ lit "Add Orders") false
    = lit "20240131093000" ++ tail.
Proof.
  apply (slugify_keeps_leading_digits Hangul.ucd (lit "20240131093000")
           (lit "Add Orders"));
    repeat constructor.
Defined.

End SlugMore.

(** ** Creating files and directories in the tree *)

Module TreeMore.
Import Fs FsFacts.

Lemma lookup_put_any (top : path) (fs n n' : node) :
  wf fs = true -> lookup top fs = Some n ->
  lookup top (put top (Some n') fs) = Some n'.
Proof.
  intros Hwf H. destruct top as [|a top]; [reflexivity|].
  now apply (lookup_put (a :: top) (Some n') fs n).
Qed.

Lemma wf_put_any (top : path) (fs n n' : node) :
  wf fs = true -> lookup top fs = Some n -> wf n' = true ->
  wf (put top (Some n') fs) = true.
Proof.
  intros Hwf H Hn. destruct top as [|a top]; [exact Hn|].
  apply (wf_put (a :: top) (Some n') fs n Hwf ltac:(discriminate) H).
  now intros v [= <-].
Qed.

Lemma wf_upd_any (a : str) (v : node) (es : list (str * node)) :
  wf (Dir es) = true -> a <> [] -> wf v = true ->
  wf (Dir (upd a (Some v) es)) = true.
Proof.
  intros Hwf Ha Hv. destruct (assoc a es) as [w|] eqn:E.
  - apply (wf_upd a w (Some v) es Hwf E). now intros v' [= <-].
  - apply assoc_None in E. cbn [upd]. unfold set_entry.
    rewrite (proj2 (existsb_has_name a es) E).
    apply wf_Dir in Hwf as [Hnd Hall]. apply wf_Dir. split.
    + rewrite map_app. apply NoDup_app. split; [exact Hnd|].
      split; [|apply NoDup_singleton].
      intros x Hx Hx'. apply list_elem_of_singleton in Hx'. now subst x.
    + apply List.Forall_app. split; [exact Hall|]. now repeat constructor.
Qed.

(** Setting the entry [a] of the directory at [top], whether the
    directory has the entry or not. *)
Lemma set_entry_at (top : path) (a : str) (v : node) (fs : node)
    (es : list (str * node)) :
  wf fs = true -> lookup top fs = Some (Dir es) -> a <> [] -> wf v = true ->
  wf (put (top ++ [a]) (Some v) fs) = true
  /\ lookup (top ++ [a]) (put (top ++ [a]) (Some v) fs) = Some v
  /\ (forall p : path, ~ (top ++ [a]) `prefix_of` p ->
        file_at (put (top ++ [a]) (Some v) fs) p = file_at fs p).
Proof.
  intros Hwf Hlook Ha Hv.
  rewrite (put_app top [a] (Some v) fs (Dir es) ltac:(discriminate) Hlook).
  rewrite put_single.
  assert (Hes : wf (Dir es) = true) by exact (lookup_wf _ _ _ Hwf Hlook).
  pose proof (wf_upd_any a v es Hes Ha Hv) as HX.
  pose proof (lookup_put_any top fs (Dir es) (Dir (upd a (Some v) es))
                Hwf Hlook) as HL.
  split; [exact (wf_put_any top fs (Dir es) _ Hwf Hlook HX)|]. split.
  - rewrite lookup_app, HL, lookup_cons, assoc_upd_Some. reflexivity.
  - intros p Hp. destruct (decide (top `prefix_of` p)) as [[q ->]|Hn].
    + unfold file_at. rewrite !lookup_app, HL, Hlook.
      destruct q as [|b q]; [reflexivity|].
      rewrite !lookup_cons, assoc_upd_ne; [reflexivity|].
      intros ->. apply Hp. apply prefix_app. now exists q.
    + exact (file_at_put_outside top p _ fs (Dir es) Hlook Hn).
Qed.

Lemma lookup_child (top : path) (a : str) (fs : node)
    (es : list (str * node)) :
  lookup top fs = Some (Dir es) -> lookup (top ++ [a]) fs = assoc a es.
Proof.
  intros H. rewrite lookup_app, H, lookup_cons.
  now destruct (assoc a es).
Qed.

(** Nothing is found below a path that holds no directory. *)
Lemma lookup_below (f q : path) (fs : node) :
  q <> [] ->
  match lookup f fs with Some (Dir _) => False | _ => True end ->
  lookup (f ++ q) fs = None.
Proof.
  intros Hq H. rewrite lookup_app.
  destruct (lookup f fs) as [[c|ces]|]; [|contradiction | reflexivity].
  now destruct q.
Qed.

(** Writing a file into an existing directory, over a file of the name
    or as a new one: the file holds what was written, and every other
    file is as before. *)
Lemma write_found_creates (dir : path) (name : str) (found : contents)
    (fs : node) (es : list (str * node)) :
  wf fs = true -> lookup dir fs = Some (Dir es) -> name <> [] ->
  (forall ces, assoc name es <> Some (Dir ces)) ->
  exists fs',
    write_found (dir ++ [name]) found fs = Ok fs'
    /\ wf fs' = true
    /\ file_at fs' (dir ++ [name]) = Some found
    /\ (forall p : path, p <> dir ++ [name] -> file_at fs' p = file_at fs p).
Proof.
  intros Hwf Hlook Hname Hnodir.
  pose proof (lookup_child dir name fs es Hlook) as Hchild.
  destruct (set_entry_at dir name (File found) fs es Hwf Hlook Hname eq_refl)
    as (Hwf' & Hnew & Hframe).
  exists (put (dir ++ [name]) (Some (File found)) fs). split.
  - unfold write_found. rewrite Hchild.
    destruct (assoc name es) as [[c|ces]|] eqn:E; [reflexivity | |].
    + now destruct (Hnodir ces).
    + unfold isdir. now rewrite removelast_last, Hlook.
  - split; [exact Hwf'|]. split; [unfold file_at; now rewrite Hnew|].
    intros p Hp.
    destruct (decide ((dir ++ [name]) `prefix_of` p)) as [[q ->]|Hn];
      [|now apply Hframe].
    assert (Hq : q <> []) by (intros ->; now rewrite app_nil_r in Hp).
    unfold file_at. rewrite !lookup_below; [reflexivity | exact Hq | | exact Hq |].
    + rewrite Hchild. destruct (assoc name es) as [[c|ces]|] eqn:E; [exact I | |exact I].
      now destruct (Hnodir ces).
    + now rewrite Hnew.
Qed.

Lemma make_from_leaf (base : path) (m : str) (fs : node)
    (es : list (str * node)) :
  lookup base fs = Some (Dir es) -> assoc m es = None ->
  make_from (base ++ [m]) fs = Ok (put (base ++ [m]) (Some (Dir [])) fs).
Proof.
  revert fs. induction base as [|k base IH]; intros fs Hlook Hm.
  - cbn in Hlook. injection Hlook as ->.
    cbn [app make_from]. now rewrite Hm.
  - destruct (lookup_Dir k base fs _ Hlook) as (es0 & child & -> & Hk & Hc).
    cbn [app make_from]. rewrite Hk, (IH child Hc Hm).
    destruct base as [|b base]; cbn [app];
      now rewrite (put_deeper k _ _ _ es0 child Hk).
Qed.

(** Making a directory that is missing in an existing directory: it is
    there and empty, and every file is as before. *)
Lemma makedirs_creates (base : path) (m : str) (fs : node)
    (es : list (str * node)) :
  wf fs = true -> lookup base fs = Some (Dir es) -> m <> [] ->
  assoc m es = None ->
  exists fs',
    makedirs (base ++ [m]) fs = Ok fs'
    /\ wf fs' = true
    /\ lookup (base ++ [m]) fs' = Some (Dir [])
    /\ (forall p : path, file_at fs' p = file_at fs p).
Proof.
  intros Hwf Hlook Hm Hnone.
  pose proof (lookup_child base m fs es Hlook) as Hchild.
  rewrite Hnone in Hchild.
  destruct (set_entry_at base m (Dir []) fs es Hwf Hlook Hm eq_refl)
    as (Hwf' & Hnew & Hframe).
  exists (put (base ++ [m]) (Some (Dir [])) fs). split.
  - unfold makedirs. rewrite Hchild. exact (make_from_leaf base m fs es Hlook Hnone).
  - split; [exact Hwf'|]. split; [exact Hnew|].
    intros p.
    destruct (decide ((base ++ [m]) `prefix_of` p)) as [[q ->]|Hn];
      [|now apply Hframe].
    unfold file_at.
    rewrite (lookup_app (base ++ [m]) q fs), Hchild.
    rewrite (lookup_app (base ++ [m]) q), Hnew.
    now destruct q.
Qed.

End TreeMore.

(** ** The scaffolder: what [new_blank] leaves behind *)

Module Scaffold.
Import Py Fs FsFacts TreeMore.

Lemma strip_prefix_chars (p s r : str) (x : N) :
  strip_prefix p s = Some r -> In x p -> In x s.
Proof.
  revert s. induction p as [|a p IH]; intros s H Hx; [easy|].
  destruct s as [|b s]; [discriminate|]. cbn [strip_prefix] in H.
  destruct (N.eqb_spec a b) as [->|_]; [|discriminate].
  destruct Hx as [->|Hx]; [now left | right; now apply IH].
Qed.

(** A text without a line feed holds no separator, so no batch. *)
Lemma no_newline_no_batch (text : str) :
  List.Forall (fun c => c <> 10) text -> split_batches text = [].
Proof.
  intros H. unfold split_batches. rewrite Splitter.re_split_none; [reflexivity|].
  induction H as [|c s Hc Hs IH]; [reflexivity|].
  cbn [count]. rewrite IH. unfold startswith.
  destruct (strip_prefix GO_newline (c :: s)) as [r|] eqn:E; [|reflexivity].
  assert (Hin : In 10 (c :: s))
    by (apply (strip_prefix_chars GO_newline _ r 10 E); cbn; auto).
  destruct Hin as [->|Hin]; [congruence|].
  now destruct (proj1 (List.Forall_forall _ _) Hs 10 Hin).
Qed.

Section Scaffold.
Context (ucd : unicode_data) (locale : str -> option contents).
Context (stamp written name : str) (base_dir : path).

(** The name, without [.sql], of the migration that [new_blank] makes. *)
Definition blank_name : str := slugify ucd (stamp ++ lit "-" ++ name) false.

Definition blank_file : path :=
  (base_dir ++ [lit "migrations"]) ++ [blank_name ++ lit ".sql"].

Definition blank_text : str := lit "-- " ++ written ++ lit " - " ++ name.

Lemma blank_file_name : blank_name ++ lit ".sql" <> [].
Proof. intros H. now apply app_eq_nil in H as [_ H]. Qed.

(** The file is one name in [migrations]: a slug holds no separator. *)
Lemma blank_file_located :
  descend (base_dir ++ [lit "migrations"]) (blank_name ++ lit ".sql")
  = blank_file.
Proof.
  unfold blank_file. apply PathFacts.descend_name.
  - apply List.Forall_app. split; [|repeat constructor].
    eapply List.Forall_impl; [|apply (SlugFacts.slug_chars ucd)].
    intros c Hc. unfold is_separator.
    destruct (N.eqb_spec c 92) as [->|_]; [discriminate|].
    destruct (N.eqb_spec c 47) as [->|_]; [discriminate | reflexivity].
  - apply blank_file_name.
  - intros E. apply (f_equal (@length N)) in E.
    rewrite length_app in E. cbn in E. lia.
  - intros E. apply (f_equal (@length N)) in E.
    rewrite length_app in E. cbn in E. lia.
Qed.

(** The directory [migrations] after the first step. *)
Lemma ensure_migrations (fs : node) :
  wf fs = true ->
  isdir fs base_dir = true ->
  isfile fs (base_dir ++ [lit "migrations"]) = false ->
  isdir fs blank_file = false ->
  exists fs1 mes,
    (if isdir fs (base_dir ++ [lit "migrations"]) then ret tt
     else fs_op (makedirs (base_dir ++ [lit "migrations"]))) fs
    = (fs1, [], Ok tt)
    /\ wf fs1 = true
    /\ lookup (base_dir ++ [lit "migrations"]) fs1 = Some (Dir mes)
    /\ (forall ces, assoc (blank_name ++ lit ".sql") mes <> Some (Dir ces))
    /\ (forall p : path, file_at fs1 p = file_at fs p)
    /\ match lookup blank_file fs with Some (Dir _) => False | _ => True end.
Proof.
  intros Hwf Hbase Hmig Hfile. unfold isdir in Hbase.
  destruct (lookup base_dir fs) as [[c|es]|] eqn:Eb; try discriminate.
  pose proof (lookup_child base_dir (lit "migrations") fs es Eb) as Hchild.
  assert (Hnot : match lookup blank_file fs with
                 | Some (Dir _) => False | _ => True end).
  { unfold isdir in Hfile.
    now destruct (lookup blank_file fs) as [[c|ces]|]. }
  unfold isfile in Hmig. rewrite Hchild in Hmig.
  destruct (assoc (lit "migrations") es) as [[c|mes]|] eqn:Em;
    [discriminate | |].
  - exists fs, mes. unfold isdir. rewrite Hchild.
    split; [reflexivity|]. split; [exact Hwf|]. split; [reflexivity|].
    split; [|split; [reflexivity | exact Hnot]].
    intros ces Hces.
    assert (Hc : lookup blank_file fs = assoc (blank_name ++ lit ".sql") mes)
      by exact (lookup_child _ (blank_name ++ lit ".sql") fs mes Hchild).
    now rewrite Hc, Hces in Hnot.
  - destruct (makedirs_creates base_dir (lit "migrations") fs es Hwf Eb
                ltac:(discriminate) Em) as (fs1 & Hmk & Hwf1 & Hl1 & Hframe).
    exists fs1, []. unfold isdir, fs_op. rewrite Hchild, Hmk.
    split; [reflexivity|]. split; [exact Hwf1|]. split; [exact Hl1|].
    split; [now intros ces|]. split; [exact Hframe | exact Hnot].
Qed.

(** The two steps of [new_blank] up to the end of the writing. *)
Lemma new_blank_run (fs : node) :
  wf fs = true ->
  isdir fs base_dir = true ->
  isfile fs (base_dir ++ [lit "migrations"]) = false ->
  isdir fs blank_file = false ->
  exists fs',
    new_blank ucd locale stamp written name base_dir fs
    = (fs', [], match locale blank_text with
                | Some _ => Ok tt
                | None => Raise ValueError
                end)
    /\ file_at fs' blank_file
       = Some (match locale blank_text with
               | Some found => found
               | None => Text []
               end)
    /\ (forall p : path, p <> blank_file -> file_at fs' p = file_at fs p).
Proof.
  intros Hwf Hbase Hmig Hfile.
  destruct (ensure_migrations fs Hwf Hbase Hmig Hfile)
    as (fs1 & mes & Hstep & Hwf1 & Hl1 & Hnodir & Hframe1 & _).
  set (found := match locale blank_text with
                | Some found => found | None => Text [] end).
  destruct (write_found_creates (base_dir ++ [lit "migrations"])
              (blank_name ++ lit ".sql") found fs1 mes Hwf1 Hl1
              blank_file_name Hnodir) as (fs' & Hwrite & _ & Hnew & Hframe).
  exists fs'. split; [|split; [exact Hnew|]].
  - unfold new_blank, mbind, M_bind, bind, get. cbv zeta.
    rewrite Hstep. cbv iota beta. fold blank_name blank_text.
    subst found. unfold fs_op, raise.
    destruct (locale blank_text) as [found|]; cbv beta iota in Hwrite;
      match goal with
      | |- context [write_found ?a ?b ?c] =>
          replace (write_found a b c) with (@Ok node fs')
            by (symmetry; exact Hwrite)
      end; reflexivity.
  - intros p Hp. now rewrite (Hframe p Hp).
Qed.

(** X16: in an existing base directory [new_blank] ends normally when the
    locale can encode the text: the migration file holds the header
    line, the directory [migrations] being made if it is missing, and
    every other file is as it was.  A file of the same name is
    overwritten. *)
Theorem new_blank_writes_header (fs : node) (found : contents) :
  wf fs = true ->
  isdir fs base_dir = true ->
  isfile fs (base_dir ++ [lit "migrations"]) = false ->
  isdir fs blank_file = false ->
  locale blank_text = Some found ->
  exists fs',
    new_blank ucd locale stamp written name base_dir fs = (fs', [], Ok tt)
    /\ file_at fs' blank_file = Some found
    /\ (forall p : path, p <> blank_file -> file_at fs' p = file_at fs p).
Proof.
  intros Hwf Hbase Hmig Hfile Hloc.
  destruct (new_blank_run fs Hwf Hbase Hmig Hfile) as (fs' & Hrun & Hnew & Hframe).
  rewrite Hloc in Hrun, Hnew. now exists fs'.
Qed.

(** X17: when the locale cannot encode the text, [new_blank] ends with the
    error of the encoder and leaves the migration file empty, also when
    it held a migration before. *)
Theorem new_blank_unencodable_leaves_empty_file (fs : node) :
  wf fs = true ->
  isdir fs base_dir = true ->
  isfile fs (base_dir ++ [lit "migrations"]) = false ->
  isdir fs blank_file = false ->
  locale blank_text = None ->
  exists fs',
    new_blank ucd locale stamp written name base_dir fs
    = (fs', [], Raise ValueError)
    /\ file_at fs' blank_file = Some (Text [])
    /\ (forall p : path, p <> blank_file -> file_at fs' p = file_at fs p).
Proof.
  intros Hwf Hbase Hmig Hfile Hloc.
  destruct (new_blank_run fs Hwf Hbase Hmig Hfile) as (fs' & Hrun & Hnew & Hframe).
  rewrite Hloc in Hrun, Hnew. now exists fs'.
Qed.

(** X18: a migration fresh from [new_blank] runs as nothing: when the name
    and the time hold no line feed and the header is read back as it was
    written, [migration_to_db] on the new migration connects, sends no
    statement and ends normally. *)
Theorem new_blank_migration_runs_nothing {db : Type} (env : odbc db)
    (server : str) (fs : node) (s : db) :
  wf fs = true ->
  isdir fs base_dir = true ->
  isfile fs (base_dir ++ [lit "migrations"]) = false ->
  isdir fs blank_file = false ->
  locale blank_text = Some (Text blank_text) ->
  List.Forall (fun c => c <> 10) written ->
  List.Forall (fun c => c <> 10) name ->
  Runner.has_driver env ->
  (forall s, connect env s server = None) ->
  exists fs',
    new_blank ucd locale stamp written name base_dir fs = (fs', [], Ok tt)
    /\ let run := migration_to_db env fs' server [blank_name] base_dir s in
       result_of run = Ok tt
       /\ statements (events_of run) = []
       /\ connections (events_of run) = [server].
Proof.
  intros Hwf Hbase Hmig Hfile Hloc Hw Hn Hd Hconn.
  destruct (new_blank_run fs Hwf Hbase Hmig Hfile) as (fs' & Hrun & Hnew & _).
  rewrite Hloc in Hrun, Hnew. exists fs'. split; [exact Hrun|].
  assert (Hread : read_text fs' (Runner.migration_file base_dir blank_name)
                  = Ok blank_text).
  { unfold Runner.migration_file, read_text. rewrite blank_file_located.
    unfold file_at in Hnew.
    destruct (lookup blank_file fs') as [[c|ces]|]; [|discriminate..].
    now injection Hnew as ->. }
  destruct (Runner.migrate_all env fs' base_dir server [blank_name]
              [blank_text] Hd Hconn ltac:(repeat constructor; exact Hread) s)
    as (s' & evs & Hall & Hst & Hco).
  rewrite Runner.migration_to_db_loop, Hall.
  unfold result_of, events_of. cbn [fst snd].
  rewrite Hst, Hco. cbn [flat_map map]. rewrite app_nil_r.
  repeat split. apply no_newline_no_batch. unfold blank_text.
  change (lit "-- ") with [45; 45; 32]. change (lit " - ") with [32; 45; 32].
  repeat (apply List.Forall_app; split); try assumption;
    repeat constructor; discriminate.
Qed.

End Scaffold.

(** A locale that stores every ASCII text as it is and no other text. *)
Definition ascii_locale (text : str) : option contents :=
  if forallb Unicode.is_ascii text then Some (Text text) else None.

Definition empty_repo : node := Dir [(lit "repo", Dir [])].

Lemma new_blank_writes_header_witness :
  exists fs',
    new_blank Hangul.ucd ascii_locale (lit "20240131093000")
      (lit "2024-01-31 09:30:00") (lit "Add Orders") [lit "repo"] empty_repo
    = (fs', [], Ok tt)
    /\ file_at fs' [lit "repo"; lit "migrations";
                    lit "20240131093000-add-orders.sql"]
       = Some (Text (lit "-- 2024-01-31 09:30:00 - Add Orders"))
    /\ (forall p : path,
          p <> [lit "repo"; lit "migrations";
                lit "20240131093000-add-orders.sql"] ->
          file_at fs' p = file_at empty_repo p).
Proof.
  apply (new_blank_writes_header Hangul.ucd ascii_locale
           (lit "20240131093000") (lit "2024-01-31 09:30:00")
           (lit "Add Orders") [lit "repo"] empty_repo
           (Text (lit "-- 2024-01-31 09:30:00 - Add Orders")));
    reflexivity.
Defined.

Lemma new_blank_unencodable_leaves_empty_file_witness :
  exists fs',
    new_blank Hangul.ucd ascii_locale (lit "20240131093000")
      (lit "2024-01-31 09:30:00") [54620; 44544] [lit "repo"] empty_repo
    = (fs', [], Raise ValueError)
    /\ file_at fs' [lit "repo"; lit "migrations"; lit "20240131093000.sql"]
       = Some (Text [])
    /\ (forall p : path,
          p <> [lit "repo"; lit "migrations"; lit "20240131093000.sql"] ->
          file_at fs' p = file_at empty_repo p).
Proof.
  apply (new_blank_unencodable_leaves_empty_file Hangul.ucd ascii_locale
           (lit "20240131093000") (lit "2024-01-31 09:30:00")
           [54620; 44544] [lit "repo"] empty_repo);
    reflexivity.
Defined.

Lemma new_blank_migration_runs_nothing_witness :
  exists fs',
    new_blank Hangul.ucd ascii_locale (lit "20240131093000")
      (lit "2024-01-31 09:30:00") (lit "Add Orders") [lit "repo"] empty_repo
    = (fs', [], Ok tt)
    /\ let run := migration_to_db Runner.refusing fs' (lit "srv")
                    [lit "20240131093000-add-orders"] [lit "repo"] tt in
       result_of run = Ok tt
       /\ statements (events_of run) = []
       /\ connections (events_of run) = [lit "srv"].
Proof.
  apply (new_blank_migration_runs_nothing Hangul.ucd ascii_locale
           (lit "20240131093000") (lit "2024-01-31 09:30:00")
           (lit "Add Orders") [lit "repo"] Runner.refusing (lit "srv")
           empty_repo tt); try reflexivity.
  - repeat constructor; discriminate.
  - repeat constructor; discriminate.
  - apply List.Exists_cons_hd. reflexivity.
Defined.

End Scaffold.

(** ** Pruning: what it keeps, what it leaves, and a second pass *)

Module PruneMore.
Import Fs FsFacts Pruning.

(** The files of the pruned tree are the files of the tree. *)
Lemma pruned_file (q : path) (n : node) :
  wf n = true ->
  match pruned_lookup q n with Some (File c) => Some c | _ => None end
  = file_at n q.
Proof.
  revert n. induction q as [|k q IH]; intros n Hwf.
  - unfold pruned_lookup, file_at. destruct n as [c|es]; [reflexivity|].
    rewrite prune_tree_Dir. now destruct (prune_entries es).
  - destruct n as [c|es]; [reflexivity|].
    pose proof Hwf as [Hnd _]%wf_Dir.
    destruct (assoc k es) as [v|] eqn:E.
    + rewrite (pruned_lookup_cons k q v es Hnd E).
      rewrite (IH v (proj2 (wf_child k v es Hwf E))).
      unfold file_at. now rewrite lookup_cons, E.
    + unfold file_at. rewrite lookup_cons, E.
      unfold pruned_lookup. rewrite prune_tree_Dir.
      destruct (prune_entries es) as [|e es'] eqn:Ep; [reflexivity|].
      rewrite <- Ep, lookup_cons.
      destruct (assoc k (prune_entries es)) as [w|] eqn:Ek; [|reflexivity].
      apply assoc_Some_elem in Ek.
      apply assoc_None in E. destruct E.
      apply names_prune_entries. apply list_elem_of_fmap.
      now exists (k, w).
Qed.

(** No directory of the pruned tree is empty. *)
Lemma pruned_dir (q : path) (n : node) (ces : list (str * node)) :
  wf n = true -> pruned_lookup q n = Some (Dir ces) -> ces <> [].
Proof.
  revert n. induction q as [|k q IH]; intros n Hwf.
  - unfold pruned_lookup. destruct n as [c|es]; [discriminate|].
    rewrite prune_tree_Dir.
    destruct (prune_entries es) as [|e es'] eqn:Ep; [discriminate|].
    cbn [lookup]. intros [= <-]. discriminate.
  - destruct n as [c|es]; [discriminate|].
    pose proof Hwf as [Hnd _]%wf_Dir.
    destruct (assoc k es) as [v|] eqn:E.
    + rewrite (pruned_lookup_cons k q v es Hnd E).
      apply IH. exact (proj2 (wf_child k v es Hwf E)).
    + unfold pruned_lookup. rewrite prune_tree_Dir.
      destruct (prune_entries es) as [|e es'] eqn:Ep; [discriminate|].
      rewrite <- Ep, lookup_cons.
      destruct (assoc k (prune_entries es)) as [w|] eqn:Ek; [|discriminate].
      apply assoc_Some_elem in Ek.
      apply assoc_None in E. destruct E.
      apply names_prune_entries. apply list_elem_of_fmap.
      now exists (k, w).
Qed.

(** What pruning leaves is left as it is by pruning. *)
Lemma prune_tree_fixed (n : node) :
  forall n', prune_tree n = Some n' ->
    prune_tree n' = Some n' /\ forall top, gone top n' = ∅.
Proof.
  induction n as [c|es IH] using node_rect'; intros n' H.
  - injection H as <-. now split.
  - rewrite prune_tree_Dir in H.
    assert (Hes : prune_entries (prune_entries es) = prune_entries es
                  /\ forall top, gone_entries top (prune_entries es) = ∅).
    { clear H. induction IH as [|[k v] es Hv _ IHes]; [now split|].
      cbn [snd] in Hv. rewrite prune_entries_cons.
      destruct IHes as [IH1 IH2].
      destruct (prune_tree v) as [v'|] eqn:Ev; [|now split].
      destruct (Hv v' eq_refl) as [Hv1 Hv2]. cbn [app]. split.
      - now rewrite prune_entries_cons, Hv1, IH1.
      - intros top. rewrite gone_entries_cons, Hv2, IH2. set_solver. }
    destruct Hes as [H1 H2].
    destruct (prune_entries es) as [|e es'] eqn:Ep; [discriminate|].
    injection H as <-. split.
    + now rewrite prune_tree_Dir, H1.
    + intros top. rewrite gone_Dir, H1, H2. set_solver.
Qed.

Lemma pruned_files (fs n : node) (base_dir p : path) :
  wf fs = true -> base_dir <> [] -> lookup base_dir fs = Some n ->
  file_at (put base_dir (prune_tree n) fs) p = file_at fs p.
Proof.
  intros Hwf Hbase Hlook.
  destruct (decide (base_dir `prefix_of` p)) as [[q ->]|Hn].
  - unfold file_at at 1.
    rewrite (lookup_pruned fs n base_dir q Hwf Hbase Hlook).
    rewrite (pruned_file q n (lookup_wf _ _ _ Hwf Hlook)).
    unfold file_at. now rewrite (lookup_app base_dir q fs), Hlook.
  - exact (file_at_put_outside base_dir p _ fs n Hlook Hn).
Qed.

(** X19: pruning removes no file: every file is where it was, with what it
    held. *)
Theorem prune_keeps_every_file (fs n : node) (base_dir : path) :
  wf fs = true -> base_dir <> [] -> lookup base_dir fs = Some n ->
  is_dir n = true ->
  exists fs' deleted,
    prune_empty_dirs base_dir fs = (fs', [], Ok deleted)
    /\ forall p : path, file_at fs' p = file_at fs p.
Proof.
  intros Hwf Hbase Hlook Hdir. eexists. eexists.
  split; [exact (prune_empty_dirs_run fs n base_dir Hwf Hbase Hlook Hdir)|].
  intros p. exact (pruned_files fs n base_dir p Hwf Hbase Hlook).
Qed.

Lemma prune_keeps_every_file_witness :
  exists fs' deleted,
    prune_empty_dirs [lit "repo"] d1_tree = (fs', [], Ok deleted)
    /\ forall p : path, file_at fs' p = file_at d1_tree p.
Proof.
  apply (prune_keeps_every_file d1_tree
           (Dir [(lit "d1", Dir [(lit "d2", Dir []);
                                 (lit "file.txt", File (Text (lit "kept")))])])
           [lit "repo"]);
    [reflexivity | discriminate | reflexivity | reflexivity].
Defined.

(** X20: after pruning no directory at or below [base_dir] is empty. *)
Theorem prune_leaves_no_empty_directory (fs n : node) (base_dir : path) :
  wf fs = true -> base_dir <> [] -> lookup base_dir fs = Some n ->
  is_dir n = true ->
  exists fs' deleted,
    prune_empty_dirs base_dir fs = (fs', [], Ok deleted)
    /\ forall q : path, lookup (base_dir ++ q) fs' <> Some (Dir []).
Proof.
  intros Hwf Hbase Hlook Hdir. eexists. eexists.
  split; [exact (prune_empty_dirs_run fs n base_dir Hwf Hbase Hlook Hdir)|].
  intros q. rewrite (lookup_pruned fs n base_dir q Hwf Hbase Hlook).
  intros H.
  now apply (pruned_dir q n [] (lookup_wf _ _ _ Hwf Hlook) H).
Qed.

Lemma prune_leaves_no_empty_directory_witness :
  exists fs' deleted,
    prune_empty_dirs [lit "repo"] d1_tree = (fs', [], Ok deleted)
    /\ forall q : path, lookup ([lit "repo"] ++ q) fs' <> Some (Dir []).
Proof.
  apply (prune_leaves_no_empty_directory d1_tree
           (Dir [(lit "d1", Dir [(lit "d2", Dir []);
                                 (lit "file.txt", File (Text (lit "kept")))])])
           [lit "repo"]);
    [reflexivity | discriminate | reflexivity | reflexivity].
Defined.

(** X21: one pass is enough: a second pass removes nothing and leaves the
    tree as the first pass left it. *)
Theorem prune_twice_removes_nothing (fs n : node) (base_dir : path) :
  wf fs = true -> base_dir <> [] -> lookup base_dir fs = Some n ->
  is_dir n = true ->
  exists fs' deleted,
    prune_empty_dirs base_dir fs = (fs', [], Ok deleted)
    /\ prune_empty_dirs base_dir fs' = (fs', [], Ok ∅).
Proof.
  intros Hwf Hbase Hlook Hdir. eexists. eexists.
  split; [exact (prune_empty_dirs_run fs n base_dir Hwf Hbase Hlook Hdir)|].
  pose proof (lookup_put base_dir (prune_tree n) fs n Hwf Hbase Hlook) as L.
  destruct (prune_tree n) as [n'|] eqn:E.
  - destruct (prune_tree_fixed n n' E) as [Hfix Hgone].
    assert (Hwf' : wf (put base_dir (Some n') fs) = true).
    { apply (wf_put base_dir (Some n') fs n Hwf Hbase Hlook).
      intros v [= <-].
      exact (prune_tree_wf n n' (lookup_wf _ _ _ Hwf Hlook) E). }
    assert (Hdir' : is_dir n' = true).
    { destruct n as [c|es]; [discriminate|].
      rewrite prune_tree_Dir in E.
      destruct (prune_entries es); [discriminate | now injection E as <-]. }
    rewrite (prune_empty_dirs_run _ n' base_dir Hwf' Hbase L Hdir').
    rewrite Hfix, Hgone. now rewrite (put_same base_dir _ n' Hwf' L).
  - unfold prune_empty_dirs, mbind, M_bind, bind, get, walk_bottom_up.
    now rewrite L.
Qed.

Lemma prune_twice_removes_nothing_witness :
  exists fs' deleted,
    prune_empty_dirs [lit "repo"] d1_tree = (fs', [], Ok deleted)
    /\ prune_empty_dirs [lit "repo"] fs' = (fs', [], Ok ∅).
Proof.
  apply (prune_twice_removes_nothing d1_tree
           (Dir [(lit "d1", Dir [(lit "d2", Dir []);
                                 (lit "file.txt", File (Text (lit "kept")))])])
           [lit "repo"]);
    [reflexivity | discriminate | reflexivity | reflexivity].
Defined.

End PruneMore.

(** ** Cleanup without renaming: the files are rewritten in place *)

Module CleanMore.
Import Py PyFacts Fs FsFacts TreeMore.

(** Writing a file over a file: the file holds what was written, and
    every other file is as before. *)
Lemma rewrite_file (f : path) (c c' : contents) (fs : node) :
  wf fs = true -> lookup f fs = Some (File c) ->
  wf (put f (Some (File c')) fs) = true
  /\ file_at (put f (Some (File c')) fs) f = Some c'
  /\ (forall p : path, p <> f ->
        file_at (put f (Some (File c')) fs) p = file_at fs p).
Proof.
  intros Hwf H.
  pose proof (lookup_put_any f fs _ (File c') Hwf H) as L.
  split; [exact (wf_put_any f fs _ (File c') Hwf H eq_refl)|].
  split; [unfold file_at; now rewrite L|].
  intros p Hp. destruct (decide (f `prefix_of` p)) as [[q ->]|Hn].
  - assert (Hq : q <> []) by (intros ->; now rewrite app_nil_r in Hp).
    unfold file_at. rewrite !lookup_below;
      [reflexivity | exact Hq | now rewrite H | exact Hq | now rewrite L].
  - exact (file_at_put_outside f p _ fs _ H Hn).
Qed.

Lemma read_text_file_at (fs : node) (p : path) (text : str) :
  read_text fs p = Ok text <-> file_at fs p = Some (Text text).
Proof.
  unfold read_text, file_at.
  destruct (lookup p fs) as [[[t|]|ces]|]; split; congruence.
Qed.

(** A word that does not occur is not replaced. *)
Lemma replace_absent (old new s : str) :
  old <> [] -> count old s = 0%nat -> replace old new s = s.
Proof.
  intros Hold H. destruct old as [|x old]; [congruence|].
  unfold replace. rewrite split_unfold.
  now rewrite (count_0_partition x old s H).
Qed.

(** X22: texts in which none of the words to swap occurs are left as they
    are; the empty word, which [str.replace] finds between all
    characters, is set aside. *)
Theorem swap_names_without_occurrence (swaps : list (str * str)) (s : str) :
  List.Forall (fun st => fst st <> [] /\ count (fst st) s = 0%nat) swaps ->
  swap_names swaps s = s.
Proof.
  unfold swap_names. induction 1 as [|[old new] swaps [Hold Hc] _ IH];
    [reflexivity|].
  cbn [fold_left fst snd] in *. now rewrite (replace_absent old new s Hold Hc).
Qed.

Lemma swap_names_without_occurrence_witness :
  swap_names [(lit "dbo.old", lit "dbo.new"); (lit "Sales", lit "Shop")]
    (lit "CREATE TABLE dbo.other (c int)")
  = lit "CREATE TABLE dbo.other (c int)".
Proof.
  apply (swap_names_without_occurrence
           [(lit "dbo.old", lit "dbo.new"); (lit "Sales", lit "Shop")]
           (lit "CREATE TABLE dbo.other (c int)")).
  repeat constructor; discriminate.
Defined.

Lemma Forall2_impl_elem {A B} (P Q : A -> B -> Prop) (l : list A)
    (k : list B) :
  List.Forall2 P l k ->
  (forall x y, x ∈ l -> P x y -> Q x y) ->
  List.Forall2 Q l k.
Proof.
  induction 1 as [|x y l k Hxy _ IH]; intros H; constructor.
  - apply H; [apply elem_of_cons; now left | exact Hxy].
  - apply IH. intros x' y' Hin. apply H, elem_of_cons. now right.
Qed.

Section InPlace.
Context (opts : cleanup_options) (remove : str -> str).
Context (Hsf : swap_filenames opts = false).
Context (Hre : forall text, regex_remove opts text = Ok (remove text)).

(** The text that [cleanup] writes for a text it has read. *)
Definition cleaned (text : str) : str :=
  swap_names (dict (name_swaps opts)) (remove text).

Lemma clean_file_in_place (total i : nat) (file text : str) (fs : node) :
  wf fs = true -> file_at fs (resolve file) = Some (Text text) ->
  clean_file opts total (i, file) fs
  = (put (resolve file) (Some (File (Text (cleaned text)))) fs, [], Ok Next).
Proof.
  intros Hwf Hfile.
  pose proof (proj2 (read_text_file_at fs (resolve file) text) Hfile) as Hread.
  assert (L : lookup (resolve file) fs = Some (File (Text text))).
  { unfold file_at in Hfile.
    destruct (lookup (resolve file) fs) as [[c|ces]|]; congruence. }
  unfold clean_file, mbind, M_bind, bind, get, lift, fs_op, write_text.
  cbn [fst snd]. rewrite Hread, Hre, Hsf. cbv iota beta zeta.
  rewrite L. reflexivity.
Qed.

Lemma clean_files_in_place (total : nat) (files : list str) :
  NoDup (map resolve files) ->
  forall (texts : list str) (i : nat) (fs : node),
    wf fs = true ->
    List.Forall2 (fun file text =>
                    file_at fs (resolve file) = Some (Text text)) files texts ->
    exists fs',
      clean_files opts total (enumerate_from i files) fs = (fs', [], Ok Next)
      /\ wf fs' = true
      /\ List.Forall2 (fun file text =>
                         file_at fs' (resolve file) = Some (Text (cleaned text)))
           files texts
      /\ (forall p : path, p ∉ map resolve files ->
            file_at fs' p = file_at fs p).
Proof.
  induction files as [|file files IH]; intros Hnd texts i fs Hwf H;
    inversion H as [|? text ? texts' Hfile Hrest]; subst.
  - exists fs. cbn. repeat split; [exact Hwf | constructor].
  - cbn [map] in Hnd. apply NoDup_cons in Hnd as [Hfresh Hnd].
    assert (L : lookup (resolve file) fs = Some (File (Text text))).
    { unfold file_at in Hfile.
      destruct (lookup (resolve file) fs) as [[c|ces]|]; congruence. }
    destruct (rewrite_file (resolve file) (Text text) (Text (cleaned text))
                fs Hwf L) as (Hwf1 & Hnew1 & Hframe1).
    set (fs1 := put (resolve file) (Some (File (Text (cleaned text)))) fs) in *.
    assert (Hrest1 : List.Forall2
                       (fun file text =>
                          file_at fs1 (resolve file) = Some (Text text))
                       files texts').
    { apply (Forall2_impl_elem _ _ _ _ Hrest). intros f t Hin Hf.
      rewrite Hframe1; [exact Hf|]. intros E. apply Hfresh.
      rewrite <- E. apply list_elem_of_fmap. now exists f. }
    destruct (IH Hnd texts' (S i) fs1 Hwf1 Hrest1)
      as (fs' & Hrun & Hwf' & Hall & Hframe).
    exists fs'. split; [|split; [exact Hwf'|split]].
    + cbn [enumerate_from clean_files]. unfold mbind, M_bind, bind.
      rewrite (clean_file_in_place total i file text fs Hwf Hfile).
      fold fs1. now rewrite Hrun.
    + constructor; [|exact Hall]. now rewrite (Hframe _ Hfresh).
    + intros p Hp. cbn [map] in Hp. rewrite Hframe.
      * apply Hframe1. intros ->. apply Hp, elem_of_cons. now left.
      * intros Hin. apply Hp, elem_of_cons. now right.
Qed.

(** The pass over the directories after the files, whatever is at
    [base_dir]: it ends normally and keeps every file. *)
Lemma prune_after (base_dir : path) (fs : node) :
  wf fs = true -> base_dir <> [] ->
  exists fs' deleted,
    prune_empty_dirs base_dir fs = (fs', [], Ok deleted)
    /\ forall p : path, file_at fs' p = file_at fs p.
Proof.
  intros Hwf Hbase.
  destruct (lookup base_dir fs) as [[c|es]|] eqn:L.
  - exists fs, ∅. split; [|reflexivity].
    unfold prune_empty_dirs, mbind, M_bind, bind, get, walk_bottom_up.
    now rewrite L.
  - eexists. eexists.
    split; [exact (Pruning.prune_empty_dirs_run fs (Dir es) base_dir
                     Hwf Hbase L eq_refl)|].
    intros p. exact (PruneMore.pruned_files fs (Dir es) base_dir p Hwf Hbase L).
  - exists fs, ∅. split; [|reflexivity].
    unfold prune_empty_dirs, mbind, M_bind, bind, get, walk_bottom_up.
    now rewrite L.
Qed.

(** X23: without renaming and with a pattern that [re] accepts, [cleanup]
    on readable files that are distinct ends normally: each file holds
    its text with the matches of the pattern removed and the words
    swapped, and every other file is where it was with what it held,
    also after the empty directories are removed. *)
Theorem cleanup_rewrites_in_place (target_files : str)
    (files texts : list str) (base_dir : path) (fs : node) :
  wf fs = true -> base_dir <> [] ->
  NoDup (map resolve files) ->
  List.Forall2 (fun file text => read_text fs (resolve file) = Ok text)
    files texts ->
  exists fs',
    cleanup opts target_files files base_dir fs
    = (fs', [Print (Cleaning_up (length files) target_files)], Ok tt)
    /\ List.Forall2 (fun file text =>
                       read_text fs' (resolve file) = Ok (cleaned text))
         files texts
    /\ (forall p : path, p ∉ map resolve files ->
          file_at fs' p = file_at fs p).
Proof.
  intros Hwf Hbase Hnd Hread.
  assert (Hfiles : List.Forall2
                     (fun file text =>
                        file_at fs (resolve file) = Some (Text text))
                     files texts).
  { apply (Forall2_impl_elem _ _ _ _ Hread). intros f t _.
    apply read_text_file_at. }
  destruct (clean_files_in_place (length files) files Hnd texts 0%nat fs
              Hwf Hfiles) as (fs1 & Hrun & Hwf1 & Hall & Hframe).
  fold (enumerate files) in Hrun.
  destruct (prune_after base_dir fs1 Hwf1 Hbase)
    as (fs2 & deleted & Hprune & Hkeep).
  exists (if remove_empty_dirs opts then fs2 else fs1).
  split; [|split].
  - unfold cleanup, mbind, M_bind, bind, print. rewrite Hrun.
    cbv iota beta. destruct (remove_empty_dirs opts); [|reflexivity].
    now rewrite Hprune.
  - apply (Forall2_impl_elem _ _ _ _ Hall). intros f t _ Hf.
    apply read_text_file_at.
    destruct (remove_empty_dirs opts); [now rewrite Hkeep | exact Hf].
  - intros p Hp.
    destruct (remove_empty_dirs opts); [rewrite Hkeep|]; now apply Hframe.
Qed.

End InPlace.

Definition swap_in_place : cleanup_options := {|
  name_swaps := [(lit "old", lit "new")];
  regex_remove := fun text => Ok text;
  swap_filenames := false;
  remove_empty_dirs := true;
  overwrite := false
|}.

Lemma cleanup_rewrites_in_place_witness :
  exists fs',
    cleanup swap_in_place (lit "repo")
      [Cleanup.in_repo "a.sql"; Cleanup.in_repo "old.sql"] [lit "repo"]
      Cleanup.three_files
    = (fs', [Print (Cleaning_up 2 (lit "repo"))], Ok tt)
    /\ List.Forall2 (fun file text =>
                       read_text fs' (resolve file)
                       = Ok (cleaned swap_in_place (fun text => text) text))
         [Cleanup.in_repo "a.sql"; Cleanup.in_repo "old.sql"]
         [lit "SELECT old"; lit "SELECT old"]
    /\ (forall p : path,
          p ∉ map resolve [Cleanup.in_repo "a.sql"; Cleanup.in_repo "old.sql"] ->
          file_at fs' p = file_at Cleanup.three_files p).
Proof.
  apply (cleanup_rewrites_in_place swap_in_place (fun text => text)
           eq_refl (fun text => eq_refl) (lit "repo")
           [Cleanup.in_repo "a.sql"; Cleanup.in_repo "old.sql"]
           [lit "SELECT old"; lit "SELECT old"] [lit "repo"]
           Cleanup.three_files).
  - reflexivity.
  - discriminate.
  - refine (bool_decide_unpack _ _). vm_compute. exact I.
  - repeat constructor.
Defined.

End CleanMore.

(** ** Cleanup with renaming: one turn of the loop *)

(** What is at a path: a directory, a file, or nothing. *)
Definition kind_at (fs : node) (p : path) : option bool :=
  option_map Fs.is_dir (Fs.lookup p fs).

Module RenameFacts.
Import Py Fs FsFacts TreeMore CleanMore.

Lemma put_is_dir (top : path) (o : option node) (es : list (str * node)) :
  top <> [] -> is_dir (put top o (Dir es)) = true.
Proof.
  destruct top as [|a top]; [congruence|]. intros _. cbn [put].
  destruct top; [reflexivity|]. now destruct (assoc a es).
Qed.

(** Replacing or deleting a node changes no kind outside it. *)
Lemma kind_put_outside (top p : path) (o : option node) (fs n : node) :
  lookup top fs = Some n -> ~ top `prefix_of` p ->
  kind_at (put top o fs) p = kind_at fs p.
Proof.
  revert p fs. induction top as [|a top IH]; intros p fs H Hp.
  - exfalso. apply Hp. apply prefix_nil.
  - apply lookup_Dir in H as (es & child & -> & Ha & H).
    unfold kind_at in *. destruct p as [|x p].
    + cbn [lookup option_map]. now rewrite put_is_dir.
    + destruct (decide (a = x)) as [->|Hax].
      * assert (Hp' : ~ top `prefix_of` p).
        { intros [k ->]. apply Hp. now exists k. }
        destruct top as [|b top]; [exfalso; apply Hp', prefix_nil|].
        rewrite (put_deeper _ _ _ _ _ _ Ha), !lookup_cons.
        rewrite assoc_upd_Some, Ha.
        apply (IH p child H Hp').
      * destruct top as [|b top];
          [rewrite put_single | rewrite (put_deeper _ _ _ _ _ _ Ha)];
          rewrite !lookup_cons; now rewrite assoc_upd_ne.
Qed.

(** Writing a file over a file changes no kind. *)
Lemma kind_put_file (f : path) (c c' : contents) (fs : node) (p : path) :
  wf fs = true -> lookup f fs = Some (File c) ->
  kind_at (put f (Some (File c')) fs) p = kind_at fs p.
Proof.
  intros Hwf H. destruct (decide (f `prefix_of` p)) as [[q ->]|Hn].
  - pose proof (lookup_put_any f fs _ (File c') Hwf H) as L.
    unfold kind_at. rewrite !lookup_app, L, H. now destruct q.
  - exact (kind_put_outside f p _ fs _ H Hn).
Qed.

Lemma isdir_kind (fs : node) (p : path) :
  isdir fs p = true <-> kind_at fs p = Some true.
Proof.
  unfold isdir, kind_at.
  destruct (lookup p fs) as [[c|es]|]; cbn; split; congruence.
Qed.

Lemma lookup_kind_None (fs : node) (p : path) :
  lookup p fs = None <-> kind_at fs p = None.
Proof.
  unfold kind_at. destruct (lookup p fs); cbn; split; congruence.
Qed.

(** No name of a resolved path is empty. *)
Lemma resolve_names (s : str) : List.Forall (fun name => name <> []) (resolve s).
Proof.
  unfold resolve. eapply List.Forall_impl; [|apply SlugFacts.filter_holds].
  intros name H. cbn beta in H. apply negb_true_iff in H.
  now apply bool_decide_eq_false in H.
Qed.

(** Deleting a file: it is gone, and every other file is as before. *)
Lemma delete_file (f : path) (c : contents) (fs : node) :
  wf fs = true -> f <> [] -> lookup f fs = Some (File c) ->
  wf (put f None fs) = true
  /\ lookup f (put f None fs) = None
  /\ (forall p : path, p <> f -> file_at (put f None fs) p = file_at fs p)
  /\ (forall p : path, ~ f `prefix_of` p ->
        kind_at (put f None fs) p = kind_at fs p).
Proof.
  intros Hwf Hf H.
  pose proof (lookup_put f None fs _ Hwf Hf H) as L.
  split; [apply (wf_put f None fs _ Hwf Hf H); discriminate|].
  split; [exact L|]. split.
  - intros p Hp. destruct (decide (f `prefix_of` p)) as [[q ->]|Hn].
    + assert (Hq : q <> []) by (intros ->; now rewrite app_nil_r in Hp).
      unfold file_at. rewrite !lookup_below;
        [reflexivity | exact Hq | now rewrite H | exact Hq | now rewrite L].
    + exact (file_at_put_outside f p _ fs _ H Hn).
  - intros p Hn. exact (kind_put_outside f p _ fs _ H Hn).
Qed.

(** Renaming a file to a free name in an existing directory. *)
Lemma rename_free (f g : path) (c : contents) (fs : node) :
  wf fs = true -> f <> [] -> lookup f fs = Some (File c) ->
  lookup g fs = None -> isdir fs (removelast g) = true ->
  List.Forall (fun name => name <> []) g ->
  exists fs',
    rename f g fs = Ok fs'
    /\ wf fs' = true
    /\ file_at fs' g = Some c
    /\ file_at fs' f = None
    /\ (forall p : path, p <> f -> p <> g -> file_at fs' p = file_at fs p).
Proof.
  intros Hwf Hf H Hg Hdir Hnames.
  destruct (delete_file f c fs Hwf Hf H) as (Hwf2 & L2 & Hframe2 & Hkind2).
  set (fs2 := put f None fs) in *.
  assert (Hg0 : g <> []).
  { intros ->. cbn in Hg. discriminate. }
  destruct (exists_last_or_nil g) as [->|(dir & name & ->)]; [congruence|].
  rewrite removelast_last in Hdir.
  assert (Hname : name <> []).
  { apply List.Forall_app in Hnames as [_ Hn].
    now apply List.Forall_cons_iff in Hn as [Hn _]. }
  assert (Hfd : ~ f `prefix_of` dir).
  { intros [q ->]. unfold isdir in Hdir. rewrite lookup_app, H in Hdir.
    now destruct q. }
  assert (Hdir2 : isdir fs2 dir = true).
  { apply isdir_kind. rewrite (Hkind2 dir Hfd). now apply isdir_kind. }
  unfold isdir in Hdir2.
  destruct (lookup dir fs2) as [[c2|es2]|] eqn:Ld; try discriminate.
  destruct (set_entry_at dir name (File c) fs2 es2 Hwf2 Ld Hname eq_refl)
    as (Hwf3 & Hnew & Hframe3).
  exists (put (dir ++ [name]) (Some (File c)) fs2).
  assert (Hgf : ~ (dir ++ [name]) `prefix_of` f).
  { intros [q E]. rewrite E, lookup_app, Hg in H. discriminate. }
  split; [|split; [exact Hwf3|split; [|split]]].
  - unfold rename. rewrite H, Hg. fold fs2. unfold isdir.
    now rewrite removelast_last, Ld.
  - unfold file_at. now rewrite Hnew.
  - rewrite (Hframe3 f Hgf). unfold file_at. now rewrite L2.
  - intros p Hpf Hpg.
    destruct (decide ((dir ++ [name]) `prefix_of` p)) as [[q ->]|Hn].
    + assert (Hq : q <> []) by (intros ->; now rewrite app_nil_r in Hpg).
      unfold file_at. rewrite lookup_below; [|exact Hq | now rewrite Hnew].
      now rewrite lookup_app, Hg.
    + rewrite (Hframe3 p Hn). now apply Hframe2.
Qed.

(** *** Path strings: the last backslash *)

Lemma partition_char_none (x : N) (s : str) :
  List.Forall (fun c => c <> x) s <-> partition [x] s = None.
Proof.
  induction s as [|c s IH]; [split; [reflexivity | constructor]|].
  cbn [partition strip_prefix].
  destruct (N.eqb_spec x c) as [->|Hc].
  - split; [|discriminate]. intros H.
    apply List.Forall_cons_iff in H as [H _]. congruence.
  - destruct (partition [x] s) as [[b a]|] eqn:E.
    + split; [|discriminate]. intros H.
      apply List.Forall_cons_iff in H as [_ H]. apply IH in H. discriminate.
    + split; [reflexivity|]. intros _.
      constructor; [congruence | now apply IH].
Qed.

Lemma partition_char_first (x : N) (s d : str) :
  List.Forall (fun c => c <> x) s ->
  partition [x] (s ++ [x] ++ d) = Some (s, d).
Proof.
  induction 1 as [|c s Hc _ IH].
  - cbn [app partition strip_prefix]. rewrite N.eqb_refl. now destruct d.
  - cbn [app partition strip_prefix] in *.
    destruct (N.eqb_spec x c) as [->|_]; [congruence|]. now rewrite IH.
Qed.

Lemma partition_char_before (x : N) (s b a : str) :
  partition [x] s = Some (b, a) -> List.Forall (fun c => c <> x) b.
Proof.
  revert b. induction s as [|c s IH]; intros b H; [discriminate|].
  cbn [partition strip_prefix] in H.
  destruct (N.eqb_spec x c) as [->|Hc].
  - injection H as <- <-. constructor.
  - destruct (partition [x] s) as [[b' a']|]; [|discriminate].
    injection H as <- <-. constructor; [congruence | now apply IH].
Qed.

Lemma split_char_last (x : N) (d name : str) :
  List.Forall (fun c => c <> x) name ->
  split [x] (d ++ [x] ++ name) = split [x] d ++ [name].
Proof.
  intros Hname.
  assert (Hlast : split [x] name = [name]).
  { rewrite PyFacts.split_unfold.
    now rewrite (proj1 (partition_char_none x name) Hname). }
  induction d as [d E | b a E IH] using (PyFacts.separator_ind x []).
  - rewrite (PyFacts.split_unfold x [] d), E, PyFacts.split_unfold.
    rewrite (partition_char_first x d name
               (proj2 (partition_char_none x d) E)).
    now rewrite Hlast.
  - rewrite (PyFacts.split_unfold x [] (b ++ [x] ++ a)), E.
    rewrite <- !app_assoc, PyFacts.split_unfold.
    rewrite (partition_char_first x b (a ++ [x] ++ name)
               (partition_char_before x _ b a E)).
    now rewrite IH.
Qed.

(** A path string that ends in a backslash and a name. *)
Lemma resolve_last (d name : str) :
  name <> [] -> List.Forall (fun c => c <> 92) name ->
  resolve (d ++ backslash ++ name) = resolve d ++ [name].
Proof.
  intros Hne Hname. unfold resolve, backslash.
  rewrite (split_char_last 92 d name Hname), List.filter_app.
  cbn [List.filter]. now rewrite (bool_decide_eq_false_2 _ Hne).
Qed.

Lemma rsplit_head_last (d name : str) :
  List.Forall (fun c => c <> 92) name ->
  rsplit_head (d ++ backslash ++ name) = d.
Proof.
  intros Hname. unfold rsplit_head, backslash.
  rewrite !rev_app_distr, <- app_assoc.
  change (rev [92]) with [92].
  rewrite (partition_char_first 92 (rev name) (rev d)).
  - apply rev_involutive.
  - apply List.Forall_forall. intros c Hc. apply in_rev in Hc.
    exact (proj1 (List.Forall_forall _ _) Hname c Hc).
Qed.

Section Rename.
Context (opts : cleanup_options) (remove : str -> str).
Context (Hsf : swap_filenames opts = true).
Context (Hre : forall text, regex_remove opts text = Ok (remove text)).

(** The name that [cleanup] gives a file. *)
Definition renamed (file : str) : str :=
  swap_names (dict (name_swaps opts)) file.

(** The turn up to the end of the writing, for a file that gets another
    name. *)
Lemma clean_file_renaming (total i : nat) (file text : str) (fs : node) :
  file_at fs (resolve file) = Some (Text text) ->
  file <> renamed file ->
  clean_file opts total (i, file) fs
  = let fs1 := put (resolve file)
                 (Some (File (Text (cleaned opts remove text)))) fs in
    match
      (if isdir fs1 (resolve (rsplit_head (renamed file)))
       then Ok fs1
       else makedirs (resolve (rsplit_head (renamed file))) fs1)
    with
    | Raise e => (fs1, [], Raise e)
    | Ok fs2 =>
        match
          (if overwrite opts && isfile fs2 (resolve (renamed file))
           then Fs.remove (resolve (renamed file)) fs2
           else Ok fs2)
        with
        | Raise e => (fs2, [], Raise e)
        | Ok fs3 =>
            match rename (resolve file) (resolve (renamed file)) fs3 with
            | Raise e => (fs3, [], Raise e)
            | Ok fs4 => (fs4, [], Ok Next)
            end
        end
    end.
Proof.
  intros Hfile Hne.
  pose proof (proj2 (read_text_file_at fs (resolve file) text) Hfile) as Hread.
  assert (L : lookup (resolve file) fs = Some (File (Text text))).
  { unfold file_at in Hfile.
    destruct (lookup (resolve file) fs) as [[c|ces]|]; congruence. }
  unfold clean_file, mbind, M_bind, bind, get, lift, fs_op, write_text.
  cbn [fst snd]. rewrite Hread, Hre, Hsf. cbv iota beta zeta.
  rewrite L. fold (renamed file).
  rewrite (bool_decide_eq_false_2 _ Hne). cbn [negb andb].
  fold (cleaned opts remove text).
  destruct (isdir _ (resolve (rsplit_head (renamed file)))).
  - cbn. destruct (overwrite opts && isfile _ (resolve (renamed file))).
    + destruct (Fs.remove _ _) as [fs3|e]; [|reflexivity].
      now destruct (rename _ _ fs3).
    + cbn. now destruct (rename _ _ _).
  - destruct (makedirs _ _) as [fs2|e]; [|reflexivity].
    destruct (overwrite opts && isfile fs2 (resolve (renamed file))).
    + destruct (Fs.remove _ _) as [fs3|e]; [|reflexivity].
      now destruct (rename _ _ fs3).
    + cbn. now destruct (rename _ _ _).
Qed.

(** What the turn leaves when the file is only rewritten. *)
Lemma written_state (f : path) (text : str) (fs : node) :
  wf fs = true -> file_at fs f = Some (Text text) ->
  let fs1 := put f (Some (File (Text (cleaned opts remove text)))) fs in
  wf fs1 = true
  /\ lookup f fs1 = Some (File (Text (cleaned opts remove text)))
  /\ (forall p : path, p <> f -> file_at fs1 p = file_at fs p)
  /\ (forall p : path, kind_at fs1 p = kind_at fs p).
Proof.
  intros Hwf Hfile fs1.
  assert (L : lookup f fs = Some (File (Text text))).
  { unfold file_at in Hfile.
    destruct (lookup f fs) as [[c|ces]|]; congruence. }
  destruct (rewrite_file f (Text text) (Text (cleaned opts remove text)) fs
              Hwf L) as (Hwf1 & _ & Hframe1).
  split; [exact Hwf1|].
  split; [exact (lookup_put_any f fs _ _ Hwf L)|].
  split; [exact Hframe1|].
  intros p. exact (kind_put_file f _ _ fs p Hwf L).
Qed.

Lemma file_at_lookup (fs : node) (p : path) (c : contents) :
  file_at fs p = Some c <-> lookup p fs = Some (File c).
Proof.
  unfold file_at. destruct (lookup p fs) as [[c'|ces]|]; split; congruence.
Qed.


(** X25: when the new name is taken and [overwrite] is off, or the new name
    is the name of a directory, the renaming raises [FileExistsError]
    out of [cleanup]: the file has been rewritten under its old name,
    and every other file is as it was. *)
Theorem clean_file_name_taken (total i : nat) (file text : str)
    (d name : str) (fs : node) :
  wf fs = true ->
  read_text fs (resolve file) = Ok text ->
  file <> renamed file ->
  renamed file = d ++ backslash ++ name ->
  name <> [] -> List.Forall (fun c => c <> 92) name ->
  resolve file <> resolve d ++ [name] ->
  (overwrite opts = false /\ lookup (resolve d ++ [name]) fs <> None
   \/ isdir fs (resolve d ++ [name]) = true) ->
  exists fs',
    clean_file opts total (i, file) fs = (fs', [], Raise FileExistsError)
    /\ read_text fs' (resolve file) = Ok (cleaned opts remove text)
    /\ (forall p : path, p <> resolve file -> file_at fs' p = file_at fs p).
Proof.
  intros Hwf Hread Hne Hform Hname Hchars Hfg Htaken.
  apply read_text_file_at in Hread.
  destruct (written_state (resolve file) text fs Hwf Hread)
    as (Hwf1 & L1 & Hframe1 & Hkind1).
  rewrite (clean_file_renaming total i file text fs Hread Hne). cbv zeta.
  set (fs1 := put (resolve file)
                (Some (File (Text (cleaned opts remove text)))) fs) in *.
  rewrite Hform, (rsplit_head_last d name Hchars),
    (resolve_last d name Hname Hchars).
  assert (Hthere : lookup (resolve d ++ [name]) fs <> None).
  { destruct Htaken as [[_ H]|H]; [exact H|]. unfold isdir in H.
    now destruct (lookup (resolve d ++ [name]) fs). }
  assert (Hdir : isdir fs (resolve d) = true).
  { unfold isdir. rewrite lookup_app in Hthere.
    destruct (lookup (resolve d) fs) as [[c|es]|]; [|reflexivity|congruence].
    now destruct Hthere. }
  assert (Hdir1 : isdir fs1 (resolve d) = true).
  { apply isdir_kind. rewrite Hkind1. now apply isdir_kind. }
  rewrite Hdir1.
  assert (Hskip : overwrite opts && isfile fs1 (resolve d ++ [name]) = false).
  { destruct Htaken as [[-> _]|H]; [reflexivity|].
    apply isdir_kind in H. rewrite <- Hkind1 in H.
    unfold isfile, kind_at in *.
    destruct (lookup (resolve d ++ [name]) fs1) as [[c|es]|];
      try discriminate. apply andb_false_r. }
  rewrite Hskip.
  assert (Hthere1 : lookup (resolve d ++ [name]) fs1 <> None).
  { intros H. apply lookup_kind_None in H. rewrite Hkind1 in H.
    now apply lookup_kind_None in H. }
  exists fs1. split; [|split].
  - unfold rename. rewrite L1.
    now destruct (lookup (resolve d ++ [name]) fs1).
  - apply read_text_file_at. now apply file_at_lookup.
  - exact Hframe1.
Qed.

(** X26: when the new name is the name of a file and [overwrite] is on, that
    file is replaced: the turn ends normally, the new path holds the
    cleaned text of the renamed file, no file is left at the old path,
    and every other file is as it was. *)
Theorem clean_file_replaces_taken_name (total i : nat) (file text : str)
    (d name : str) (c : contents) (fs : node) :
  wf fs = true ->
  resolve file <> [] ->
  read_text fs (resolve file) = Ok text ->
  file <> renamed file ->
  renamed file = d ++ backslash ++ name ->
  name <> [] -> List.Forall (fun c => c <> 92) name ->
  resolve file <> resolve d ++ [name] ->
  overwrite opts = true ->
  file_at fs (resolve d ++ [name]) = Some c ->
  exists fs',
    clean_file opts total (i, file) fs = (fs', [], Ok Next)
    /\ read_text fs' (resolve d ++ [name]) = Ok (cleaned opts remove text)
    /\ file_at fs' (resolve file) = None
    /\ (forall p : path, p <> resolve file -> p <> resolve d ++ [name] ->
          file_at fs' p = file_at fs p).
Proof.
  intros Hwf Hf Hread Hne Hform Hname Hchars Hfg Hover Htarget.
  apply read_text_file_at in Hread.
  destruct (written_state (resolve file) text fs Hwf Hread)
    as (Hwf1 & L1 & Hframe1 & Hkind1).
  rewrite (clean_file_renaming total i file text fs Hread Hne). cbv zeta.
  set (fs1 := put (resolve file)
                (Some (File (Text (cleaned opts remove text)))) fs) in *.
  rewrite Hform, (rsplit_head_last d name Hchars),
    (resolve_last d name Hname Hchars).
  set (g := resolve d ++ [name]) in *.
  assert (Lg1 : lookup g fs1 = Some (File c)).
  { apply file_at_lookup. rewrite Hframe1; [exact Htarget | congruence]. }
  assert (Hdir1 : isdir fs1 (resolve d) = true).
  { unfold isdir. subst g. rewrite lookup_app in Lg1.
    destruct (lookup (resolve d) fs1) as [[c'|es]|]; [|reflexivity|congruence].
    discriminate. }
  rewrite Hdir1, Hover. unfold isfile at 1. rewrite Lg1. cbn [andb].
  assert (Hg : g <> []) by (subst g; now destruct (resolve d)).
  destruct (delete_file g c fs1 Hwf1 Hg Lg1) as (Hwf2 & L2 & Hframe2 & Hkind2).
  unfold Fs.remove. rewrite Lg1.
  set (fs2 := put g None fs1) in *.
  assert (Lf2 : lookup (resolve file) fs2
                = Some (File (Text (cleaned opts remove text)))).
  { apply file_at_lookup. rewrite Hframe2; [|exact Hfg].
    now apply file_at_lookup. }
  destruct (rename_free (resolve file) g _ fs2 Hwf2 Hf Lf2 L2)
    as (fs' & Hren & _ & Hnew & Hold & Hframe).
  { subst g. rewrite removelast_last. apply isdir_kind.
    rewrite Hkind2; [now apply isdir_kind | apply prefix_snoc_not]. }
  { subst g. apply List.Forall_app. split; [apply resolve_names|].
    now repeat constructor. }
  exists fs'. rewrite Hren. split; [reflexivity|].
  split; [now apply read_text_file_at|]. split; [exact Hold|].
  intros p Hpf Hpg. rewrite (Hframe p Hpf Hpg), (Hframe2 p Hpg).
  now apply Hframe1.
Qed.

End Rename.
(** A tree in which the new name of [old.sql] is taken by a file. *)
Definition taken_tree : node :=
  Dir [(lit "repo", Dir [
    (lit "old.sql", File (Text (lit "SELECT old")));
    (lit "new.sql", File (Text (lit "SELECT 1")))])].

Definition swap_overwriting : cleanup_options := {|
  name_swaps := [(lit "old", lit "new")];
  regex_remove := fun text => Ok text;
  swap_filenames := true;
  remove_empty_dirs := true;
  overwrite := true
|}.

Ltac evaluated := vm_compute; first [reflexivity | discriminate].


Lemma clean_file_name_taken_witness :
  exists fs',
    clean_file Cleanup.swap_old_new 1 (0%nat, Cleanup.in_repo "old.sql")
      taken_tree = (fs', [], Raise FileExistsError)
    /\ read_text fs' (resolve (Cleanup.in_repo "old.sql"))
       = Ok (cleaned Cleanup.swap_old_new (fun text => text) (lit "SELECT old"))
    /\ (forall p : path,
          p <> resolve (Cleanup.in_repo "old.sql") ->
          file_at fs' p = file_at taken_tree p).
Proof.
  apply (clean_file_name_taken Cleanup.swap_old_new (fun text => text)
           eq_refl (fun text => eq_refl) 1 0 (Cleanup.in_repo "old.sql")
           (lit "SELECT old") (lit "repo") (lit "new.sql") taken_tree);
    try evaluated.
  - repeat constructor; discriminate.
  - left. split; evaluated.
Defined.

Lemma clean_file_replaces_taken_name_witness :
  exists fs',
    clean_file swap_overwriting 1 (0%nat, Cleanup.in_repo "old.sql")
      taken_tree = (fs', [], Ok Next)
    /\ read_text fs' (resolve (lit "repo") ++ [lit "new.sql"])
       = Ok (cleaned swap_overwriting (fun text => text) (lit "SELECT old"))
    /\ file_at fs' (resolve (Cleanup.in_repo "old.sql")) = None
    /\ (forall p : path,
          p <> resolve (Cleanup.in_repo "old.sql") ->
          p <> resolve (lit "repo") ++ [lit "new.sql"] ->
          file_at fs' p = file_at taken_tree p).
Proof.
  apply (clean_file_replaces_taken_name swap_overwriting (fun text => text)
           eq_refl (fun text => eq_refl) 1 0 (Cleanup.in_repo "old.sql")
           (lit "SELECT old") (lit "repo") (lit "new.sql")
           (Text (lit "SELECT 1")) taken_tree); try evaluated.
  repeat constructor; discriminate.
Defined.

End RenameFacts.

(** ** The merge out of the staging area: the path of a staged file *)

Module Merge.
Import Py PyFacts RenameFacts.

(** The directory [names] below [top], as [os.walk(top)] names it when
    [top] does not end in a separator: [top\name1\...\namek]. *)
Definition below (top : str) (names : list str) : str :=
  top ++ concat (map (fun name => backslash ++ name) names).

Lemma below_snoc (top : str) (names : list str) (name : str) :
  below top (names ++ [name]) = below top names ++ backslash ++ name.
Proof.
  unfold below. rewrite map_app, concat_app. cbn [map concat].
  now rewrite app_nil_r, <- !app_assoc.
Qed.

Lemma resolve_below (top : str) (names : list str) :
  List.Forall (fun name => name <> [] /\ List.Forall (fun c => c <> 92) name)
    names ->
  resolve (below top names) = resolve top ++ names.
Proof.
  induction names as [|name names IH] using rev_ind; intros H.
  - unfold below. cbn. now rewrite !app_nil_r.
  - apply List.Forall_app in H as [Hnames Hname].
    apply List.Forall_cons_iff in Hname as [[Hne Hchars] _].
    rewrite below_snoc, (resolve_last _ name Hne Hchars), (IH Hnames).
    now rewrite <- app_assoc.
Qed.

Lemma resolve_trailing (s : str) : resolve (s ++ backslash) = resolve s.
Proof.
  unfold resolve, backslash.
  rewrite <- (app_nil_r (s ++ [92])), <- app_assoc.
  rewrite (split_char_last 92 s [] ltac:(constructor)), List.filter_app.
  cbn. now rewrite app_nil_r.
Qed.

Lemma replace_prefix (old rest : str) :
  old <> [] -> count old rest = 0%nat -> replace old [] (old ++ rest) = rest.
Proof.
  intros Hold Hrest. destruct old as [|x old]; [congruence|].
  unfold replace. rewrite split_unfold.
  rewrite (partition_here (x :: old) _ rest (strip_prefix_app _ _)).
  rewrite split_unfold, (count_0_partition x old rest Hrest). reflexivity.
Qed.

(** X27: a staged directory is merged into the directory of the same
    relative path under the base directory: for the directory [names]
    below the staging directory, the staging directory not occurring
    again in the rest of its path string, [full_target_dir] names the
    directory [names] below [base_dir]. *)
Theorem merge_keeps_relative_path (base_dir db_stg_dir : str)
    (names : list str) :
  db_stg_dir <> [] ->
  List.Forall (fun name => name <> [] /\ List.Forall (fun c => c <> 92) name)
    names ->
  count db_stg_dir (concat (map (fun name => backslash ++ name) names))
  = 0%nat ->
  resolve (full_target_dir base_dir db_stg_dir (below db_stg_dir names))
  = resolve base_dir ++ names.
Proof.
  intros Hstg Hnames Hcount. unfold full_target_dir, target_dir.
  unfold below at 1. rewrite (replace_prefix _ _ Hstg Hcount).
  rewrite app_assoc. fold (below (base_dir ++ backslash) names).
  now rewrite (resolve_below _ names Hnames), resolve_trailing.
Qed.

Lemma merge_keeps_relative_path_witness :
  resolve (full_target_dir (lit "C:\repo") (lit "C:\repo\.stg\srvapp")
             (below (lit "C:\repo\.stg\srvapp")
                [lit "schema"; lit "srv"; lit "app"]))
  = resolve (lit "C:\repo") ++ [lit "schema"; lit "srv"; lit "app"].
Proof.
  apply (merge_keeps_relative_path (lit "C:\repo")
           (lit "C:\repo\.stg\srvapp")
           [lit "schema"; lit "srv"; lit "app"]).
  - discriminate.
  - repeat constructor; discriminate.
  - vm_compute. reflexivity.
Defined.

End Merge.
